(** * The rdm indexing pipeline (src/rdm/Indexer.cpp)

    A shallow embedding of the job coordinator ([Indexer], [IndexerImpl]),
    the accumulator and its flusher thread ([IndexerSyncer]), the PCH gate
    and the inclusion visitor of a parse job ([IndexerJob]), the
    directory-change handler and the dirty sweep ([DirtyJob]).

    Conventions.
    - [QByteArray] and [Path] are [string]; [QSet] is [gset]; [QHash] is
      [gmap], except where the iteration order of the hash is observable,
      where it is an association list in iteration order.
    - The C++ [int] is a [Z]; incrementing [INT_MAX] is undefined in C++ and
      is reported as [Undefined].
    - Effects (waking a condition variable, starting a pool job, logging)
      are recorded as a list of events returned next to the new state. *)

From Stdlib Require Import ZArith String Ascii List Lia DecimalString.
From stdpp Require Import gmap strings list fin_maps.

(** ** Outcomes of fallible code *)

Inductive result (A : Type) : Type :=
| Ok (a : A)
| AssertFail      (* a Q_ASSERT of the source does not hold *)
| Undefined       (* undefined behaviour of the C++ program *)
| OutOfFuel.      (* the model's loop bound was too small *)
Arguments Ok {A} a.
Arguments AssertFail {A}.
Arguments Undefined {A}.
Arguments OutOfFuel {A}.

Definition rbind {A B} (r : result A) (k : A → result B) : result B :=
  match r with
  | Ok a => k a
  | AssertFail => AssertFail
  | Undefined => Undefined
  | OutOfFuel => OutOfFuel
  end.

#[global] Instance result_bind : MBind result := λ A B k r, rbind r k.
#[global] Instance result_ret : MRet result := λ A a, Ok a.

Definition INT_MAX : Z := 2147483647.

(** [++i] on an [int]: signed overflow is undefined. *)
Definition int_succ (i : Z) : result Z :=
  if decide (i < INT_MAX)%Z then Ok (i + 1)%Z else Undefined.

(** ** 3.  Data model *)

Module RTags.

(** RTags::Location: a path and a byte offset. *)
Record Location : Type := mkLocation {
  path : string;
  offset : Z
}.

#[global] Instance Location_eq_dec : EqDecision Location.
Proof. solve_decision. Defined.

#[global] Instance Location_countable : Countable Location :=
  inj_countable' (λ l, (path l, offset l)) (λ p, mkLocation p.1 p.2)
                 (λ l, match l with mkLocation _ _ => eq_refl end).

Fixpoint zeros (n : nat) : string :=
  match n with
  | O => EmptyString
  | S n' => String "0"%char (zeros n')
  end.

(** Modelled from the spec: Location::key(Padded) is declared in RTags.h,
    which is not part of the sources; section 6 gives the Symbol key as
    the canonical path, a comma, and the offset in decimal, zero-padded to
    nine digits. *)
Definition key (l : Location) : string :=
  let digits := NilZero.string_of_uint (N.to_uint (Z.to_N (offset l))) in
  path l +:+ "," +:+ zeros (9 - String.length digits) +:+ digits.

(** No byte of [s] is a comma. *)
Fixpoint no_comma (s : string) : bool :=
  match s with
  | EmptyString => true
  | String c s' => negb (bool_decide (c = ","%char)) && no_comma s'
  end.

End RTags.

Module Rdm.
Import RTags.

(** Modelled from the spec: Rdm::CursorInfo is declared in Rdm.h, which
    is not part of the sources; section 3 gives the record as kind,
    symbol_length, an optional target and a set of references. The source
    tests [target.isNull()], which is [target = None] here. *)
Record CursorInfo : Type := mkCursorInfo {
  kind : Z;
  symbolLength : Z;
  target : option Location;
  references : gset Location
}.

#[global] Instance CursorInfo_eq_dec : EqDecision CursorInfo.
Proof. solve_decision. Defined.

(** The default-constructed CursorInfo, which readValue yields for a key
    that is not stored. *)
Definition empty_info : CursorInfo :=
  {| kind := 0; symbolLength := 0; target := None; references := ∅ |}.

(** Modelled from the spec: CursorInfo::unite (Rdm.h, not part of the
    sources). Section 3: the union of references; target is filled if
    currently empty; kind and symbol_length come from whichever side has a
    non-zero symbol_length, first writer wins; the merge returns true iff
    any field changed. *)
Definition unite (current other : CursorInfo) : CursorInfo * bool :=
  let takes := bool_decide (symbolLength current = 0%Z)
               && negb (bool_decide (symbolLength other = 0%Z)) in
  let merged :=
    {| kind := if takes then kind other else kind current;
       symbolLength := if takes then symbolLength other else symbolLength current;
       target := match target current with
                 | Some t => Some t
                 | None => target other
                 end;
       references := references current ∪ references other |} in
  (merged, bool_decide (merged ≠ current)).

(** Modelled from the spec: CursorInfo::dirty (Rdm.h, not part of the
    sources). Section 4.G: removes every reference Location whose path is
    in the dirty set and clears target if its path is in the dirty set;
    reports whether the record changed. *)
Definition dirty (info : CursorInfo) (paths : gset string) : CursorInfo * bool :=
  let cleaned :=
    {| kind := kind info;
       symbolLength := symbolLength info;
       target := match target info with
                 | Some t => if decide (path t ∈ paths) then None else Some t
                 | None => None
                 end;
       references := filter (λ l, path l ∉ paths) (references info) |} in
  (cleaned, bool_decide (cleaned ≠ info)).

End Rdm.

(** ** 4.A  Store facade: four tables and atomic write batches *)

Module LevelDB.
Import RTags Rdm.

Inductive Database : Type := Symbol | SymbolName | Dependency | FileInformation.

Record Store : Type := mkStore {
  symbols : gmap string CursorInfo;
  symbolNames : gmap string (gset Location);
  dependencies : gmap string (gset string);
  fileInformation : gmap string (list string)
}.

(** leveldb::WriteBatch: staged puts and deletes, applied in order. *)
Inductive BatchOp (V : Type) : Type :=
| Put (k : string) (v : V)
| Delete (k : string).
Arguments Put {V} k v.
Arguments Delete {V} k.

Definition apply_op {V} (tbl : gmap string V) (op : BatchOp V) : gmap string V :=
  match op with
  | Put k v => <[k := v]> tbl
  | Delete k => delete k tbl
  end.

(** db->Write(options, &batch) *)
Definition Write {V} (tbl : gmap string V) (batch : list (BatchOp V)) : gmap string V :=
  foldl apply_op tbl batch.

Definition op_key {V} (op : BatchOp V) : string :=
  match op with
  | Put k _ => k
  | Delete k => k
  end.

(** What a staged operation makes of the value stored under its key. *)
Definition effect {V} (o : option (BatchOp V)) (old : option V) : option V :=
  match o with
  | None => old
  | Some (Put _ v) => Some v
  | Some (Delete _) => None
  end.

End LevelDB.

(** ** 4.E  Job coordinator *)

Module Coordinator.

(** #define SYNCINTERVAL 10 *)
Definition SYNCINTERVAL : Z := 10.

(** The part of an [IndexerJob] fixed by its constructor. *)
Record IndexerJob : Type := mkJob {
  mId : Z;
  mPath : string;
  mIn : string;
  mArgs : list string
}.

(** The fields of [IndexerImpl] that [index] and [onJobDone] touch. *)
Record IndexerImpl : Type := mkImpl {
  jobCounter : Z;
  indexing : gset string;
  pchHeaderError : gset string;
  path : string;
  lastJobId : Z;
  jobs : gmap Z IndexerJob;
  timerRunning : bool;
  defaultArgs : list string
}.

Inductive Event : Type :=
| WakeAll                          (* implCond.wakeAll() *)
| SyncerNotify                     (* syncer->notify() *)
| TimerStart                       (* timer.start() *)
| LogElapsed                       (* log(0) << "jobs took" ... *)
| Connect (id : Z)                 (* connect(job, done, this, onJobDone) *)
| PoolStart (job : IndexerJob)     (* QThreadPool::globalInstance()->start(job) *)
| IndexingDone (id : Z).           (* emit indexingDone(id) *)

(** The state the constructor [Indexer::Indexer] leaves ([p] already ends
    in a slash). *)
Definition init (p : string) : IndexerImpl :=
  {| jobCounter := 0; indexing := ∅; pchHeaderError := ∅; path := p;
     lastJobId := 0; jobs := ∅; timerRunning := false; defaultArgs := [] |}.

(** do { id = lastJobId++; } while (jobs.contains(id));
    returns the chosen id and the new value of [lastJobId]. *)
Fixpoint alloc_id (fuel : nat) (last : Z) (js : gmap Z IndexerJob)
  : result (Z * Z) :=
  match fuel with
  | O => OutOfFuel
  | S fuel' =>
      last' ← int_succ last ;
      match js !! last with
      | Some _ => alloc_id fuel' last' js
      | None => Ok (last, last')
      end
  end.

(** The ids of [js] that the search starting at [last] can still meet. *)
Definition taken_from (js : gmap Z IndexerJob) (last : Z) : gset Z :=
  filter (λ k, (last ≤ k)%Z) (dom js).

(** int Indexer::index(const QByteArray& input, const QList<QByteArray>& arguments) *)
Definition index (st : IndexerImpl) (input : string) (arguments : list string)
  : result (Z * IndexerImpl * list Event) :=
  if decide (input ∈ indexing st) then Ok ((-1)%Z, st, [])
  else
    '(id, last') ← alloc_id (S (size (jobs st))) (lastJobId st) (jobs st) ;
    let job := mkJob id (path st) input arguments in
    let starts := if timerRunning st then [] else [TimerStart] in
    Ok (id,
        {| jobCounter := jobCounter st;
           indexing := {[input]} ∪ indexing st;
           pchHeaderError := pchHeaderError st;
           path := path st;
           lastJobId := last';
           jobs := <[id := job]> (jobs st);
           timerRunning := true;
           defaultArgs := defaultArgs st |},
        [Connect id] ++ starts ++ [PoolStart job]).

(** void Indexer::onJobDone(int id, const QByteArray& input) *)
Definition onJobDone (st : IndexerImpl) (id : Z) (input : string)
  : result (IndexerImpl * list Event) :=
  let jobs1 := delete id (jobs st) in
  let woken := if decide (input ∈ indexing st) then [WakeAll] else [] in
  let indexing1 := indexing st ∖ {[input]} in
  counter1 ← int_succ (jobCounter st) ;
  let st1 := {| jobCounter := counter1; indexing := indexing1;
                pchHeaderError := pchHeaderError st; path := path st;
                lastJobId := lastJobId st; jobs := jobs1;
                timerRunning := timerRunning st;
                defaultArgs := defaultArgs st |} in
  if bool_decide (jobs1 = ∅) || bool_decide (counter1 = SYNCINTERVAL) then
    if bool_decide (jobs1 = ∅) then
      if timerRunning st1 then
        Ok ({| jobCounter := counter1; indexing := indexing1;
               pchHeaderError := pchHeaderError st; path := path st;
               lastJobId := lastJobId st; jobs := jobs1;
               timerRunning := false;
               defaultArgs := defaultArgs st |},
            woken ++ [SyncerNotify; LogElapsed; IndexingDone id])
      else AssertFail
    else Ok (st1, woken ++ [IndexingDone id])
  else Ok (st1, woken ++ [IndexingDone id]).

(** The end of IndexerJob::run for a job that produces a PCH (lines
    805-812), before it emits [done]: the header is marked in, or cleared
    from, [pchHeaderError]. *)
Definition recordPchResult (st : IndexerImpl) (mIn : string) (pchError : bool)
  : IndexerImpl :=
  {| jobCounter := jobCounter st; indexing := indexing st;
     pchHeaderError := if pchError then {[mIn]} ∪ pchHeaderError st
                       else pchHeaderError st ∖ {[mIn]};
     path := path st; lastJobId := lastJobId st; jobs := jobs st;
     timerRunning := timerRunning st; defaultArgs := defaultArgs st |}.

(** What happens to the coordinator, for building reachable states. *)
Inductive Call : Type :=
| CallIndex (input : string) (arguments : list string)
| CallPchResult (mIn : string) (pchError : bool)
| CallDone (id : Z) (input : string).

Fixpoint exec (st : IndexerImpl) (calls : list Call) : result IndexerImpl :=
  match calls with
  | [] => Ok st
  | CallIndex input arguments :: rest =>
      '(_, st', _) ← index st input arguments ; exec st' rest
  | CallPchResult mIn pchError :: rest =>
      exec (recordPchResult st mIn pchError) rest
  | CallDone id input :: rest =>
      '(st', _) ← onJobDone st id input ; exec st' rest
  end.

(** Eleven translation units are submitted and the first nine complete. *)
Definition eleven_inputs : list string :=
  ["f0.cpp"; "f1.cpp"; "f2.cpp"; "f3.cpp"; "f4.cpp"; "f5.cpp"; "f6.cpp";
   "f7.cpp"; "f8.cpp"; "f9.cpp"; "f10.cpp"].

Definition nine_done : list Call :=
  map (λ f, CallIndex f []) eleven_inputs
  ++ [CallDone 0 "f0.cpp"; CallDone 1 "f1.cpp"; CallDone 2 "f2.cpp";
      CallDone 3 "f3.cpp"; CallDone 4 "f4.cpp"; CallDone 5 "f5.cpp";
      CallDone 6 "f6.cpp"; CallDone 7 "f7.cpp"; CallDone 8 "f8.cpp"].

(** One translation unit is submitted and completes. *)
Definition one_done : list Call :=
  [CallIndex "a.cpp" []; CallDone 0 "a.cpp"].

(** The coordinator after [one_done]. *)
Definition idle_after_one : IndexerImpl :=
  {| jobCounter := 1; indexing := ∅; pchHeaderError := ∅; path := "/tmp/";
     lastJobId := 1; jobs := ∅; timerRunning := false; defaultArgs := [] |}.

(** The coordinator after [nine_done]: jobs 9 and 10 are still running. *)
Definition busy_after_nine : IndexerImpl :=
  Eval vm_compute in
    match exec (init "/tmp/") nine_done with
    | Ok st => st
    | _ => init "/tmp/"
    end.

(** What the specification calls the lowest unused id. *)
Definition lowest_unused (js : gmap Z IndexerJob) (id : Z) : Prop :=
  js !! id = None ∧ ∀ j : Z, (0 ≤ j < id)%Z → is_Some (js !! j).

End Coordinator.

(** ** 4.B  Accumulator and flusher *)

Module Syncer.
Import RTags Rdm LevelDB.

(** The members of [IndexerSyncer] guarded by [mMutex]. *)
Record IndexerSyncer : Type := mkSyncer {
  mStopped : bool;
  mSymbols : gmap Location CursorInfo;
  mSymbolNames : gmap string (gset Location);
  mDependencies : gmap string (gset string);
  mInformations : gmap string (list string)
}.

(** IndexerSyncer::IndexerSyncer *)
Definition fresh : IndexerSyncer :=
  {| mStopped := false; mSymbols := ∅; mSymbolNames := ∅;
     mDependencies := ∅; mInformations := ∅ |}.

(** void IndexerSyncer::stop() *)
Definition stop (acc : IndexerSyncer) : IndexerSyncer :=
  {| mStopped := true; mSymbols := mSymbols acc;
     mSymbolNames := mSymbolNames acc; mDependencies := mDependencies acc;
     mInformations := mInformations acc |}.

(** The for loop of addSymbolNames and addDependencies:
    buffer[it.key()].unite(it.value()) for every entry. *)
Definition unite_sets {K A} `{Countable K} `{Countable A}
    (buffer added : gmap K (gset A)) : gmap K (gset A) :=
  foldl (λ m e, <[e.1 := default ∅ (m !! e.1) ∪ e.2]> m) buffer (map_to_list added).

(** void IndexerSyncer::addSymbolNames(const SymbolNameHash &locations) *)
Definition addSymbolNames (acc : IndexerSyncer)
    (locations : gmap string (gset Location)) : IndexerSyncer :=
  {| mStopped := mStopped acc; mSymbols := mSymbols acc;
     mSymbolNames := if bool_decide (mSymbolNames acc = ∅) then locations
                     else unite_sets (mSymbolNames acc) locations;
     mDependencies := mDependencies acc; mInformations := mInformations acc |}.

(** void IndexerSyncer::addSymbols(const SymbolHash &symbols) *)
Definition addSymbols (acc : IndexerSyncer)
    (symbols : gmap Location CursorInfo) : IndexerSyncer :=
  {| mStopped := mStopped acc;
     mSymbols :=
       if bool_decide (mSymbols acc = ∅) then symbols
       else foldl (λ m e, <[e.1 := (unite (default empty_info (m !! e.1)) e.2).1]> m)
                  (mSymbols acc) (map_to_list symbols);
     mSymbolNames := mSymbolNames acc;
     mDependencies := mDependencies acc; mInformations := mInformations acc |}.

(** void IndexerSyncer::addDependencies(const DependencyHash& dependencies) *)
Definition addDependencies (acc : IndexerSyncer)
    (dependencies : gmap string (gset string)) : IndexerSyncer :=
  {| mStopped := mStopped acc; mSymbols := mSymbols acc;
     mSymbolNames := mSymbolNames acc;
     mDependencies := if bool_decide (mDependencies acc = ∅) then dependencies
                      else unite_sets (mDependencies acc) dependencies;
     mInformations := mInformations acc |}.

(** void IndexerSyncer::addFileInformation(const Path& input,
    const QList<QByteArray>& args) *)
Definition addFileInformation (acc : IndexerSyncer) (input : string)
    (args : list string) : IndexerSyncer :=
  {| mStopped := mStopped acc; mSymbols := mSymbols acc;
     mSymbolNames := mSymbolNames acc; mDependencies := mDependencies acc;
     mInformations := <[input := args]> (mInformations acc) |}.

(** Modelled from the spec: Rdm::readValue is declared in Rdm.h, which is
    not part of the sources; the flusher computes [current ∪ added] for
    every buffered key (section 4.B), so a key that is not stored reads as
    the default-constructed value. *)
Definition readValue {V} (dflt : V) (tbl : gmap string V) (k : string) : V :=
  default dflt (tbl !! k).

(** The while loop over [symbolNames] (lines 157-168). *)
Fixpoint symbolNames_loop (tbl : gmap string (gset Location))
    (entries : list (string * gset Location))
    (batch : list (BatchOp (gset Location))) (changed : bool)
  : list (BatchOp (gset Location)) * bool :=
  match entries with
  | [] => (batch, changed)
  | (k, added) :: rest =>
      let current := readValue ∅ tbl k in
      let oldSize := size current in
      let current' := current ∪ added in
      if decide (size current' ≠ oldSize)
      then symbolNames_loop tbl rest (batch ++ [Put k current']) true
      else symbolNames_loop tbl rest batch changed
  end.

Definition flushSymbolNames (buf tbl : gmap string (gset Location))
  : gmap string (gset Location) :=
  let '(batch, changed) := symbolNames_loop tbl (map_to_list buf) [] false in
  if changed then Write tbl batch else tbl.

(** The while loop over [symbols] (lines 183-192). *)
Fixpoint symbols_loop (tbl : gmap string CursorInfo)
    (entries : list (Location * CursorInfo))
    (batch : list (BatchOp CursorInfo)) (changed : bool)
  : list (BatchOp CursorInfo) * bool :=
  match entries with
  | [] => (batch, changed)
  | (loc, added) :: rest =>
      let k := key loc in
      let current := readValue empty_info tbl k in
      let '(current', grew) := unite current added in
      if grew
      then symbols_loop tbl rest (batch ++ [Put k current']) true
      else symbols_loop tbl rest batch changed
  end.

Definition flushSymbols (buf : gmap Location CursorInfo)
    (tbl : gmap string CursorInfo) : gmap string CursorInfo :=
  let '(batch, changed) := symbols_loop tbl (map_to_list buf) [] false in
  if changed then Write tbl batch else tbl.

(** The while loop over [dependencies] (lines 207-217). *)
Fixpoint dependencies_loop (tbl : gmap string (gset string))
    (entries : list (string * gset string))
    (batch : list (BatchOp (gset string))) (changed : bool)
  : list (BatchOp (gset string)) * bool :=
  match entries with
  | [] => (batch, changed)
  | (k, added) :: rest =>
      let current := readValue ∅ tbl k in
      let oldSize := size current in
      let current' := current ∪ added in
      if decide (oldSize < size current')
      then dependencies_loop tbl rest (batch ++ [Put k current']) true
      else dependencies_loop tbl rest batch changed
  end.

Definition flushDependencies (buf tbl : gmap string (gset string))
  : gmap string (gset string) :=
  let '(batch, changed) := dependencies_loop tbl (map_to_list buf) [] false in
  if changed then Write tbl batch else tbl.

(** The while loop over [informations] (lines 227-231): one put per entry. *)
Fixpoint informations_loop (entries : list (string * list string))
    (batch : list (BatchOp (list string))) : list (BatchOp (list string)) :=
  match entries with
  | [] => batch
  | (k, args) :: rest => informations_loop rest (batch ++ [Put k args])
  end.

Definition flushInformations (buf tbl : gmap string (list string))
  : gmap string (list string) :=
  Write tbl (informations_loop (map_to_list buf) []).

(** The part of the loop body after the mutex is released (lines 147-237),
    on the four swapped-out buffers. [opens t] tells whether [db.open]
    succeeds for table [t]. The boolean is [false] when [run] returned
    because a table could not be opened. *)
Definition flush (opens : Database → bool)
    (names : gmap string (gset Location)) (syms : gmap Location CursorInfo)
    (deps : gmap string (gset string)) (infos : gmap string (list string))
    (db : Store) : Store * bool :=
  if negb (bool_decide (names = ∅)) && negb (opens SymbolName) then (db, false)
  else
  let db1 :=
    if bool_decide (names = ∅) then db
    else mkStore (symbols db) (flushSymbolNames names (symbolNames db))
                 (dependencies db) (fileInformation db) in
  if negb (bool_decide (syms = ∅)) && negb (opens Symbol) then (db1, false)
  else
  let db2 :=
    if bool_decide (syms = ∅) then db1
    else mkStore (flushSymbols syms (symbols db1)) (symbolNames db1)
                 (dependencies db1) (fileInformation db1) in
  if negb (bool_decide (deps = ∅)) && negb (opens Dependency) then (db2, false)
  else
  let db3 :=
    if bool_decide (deps = ∅) then db2
    else mkStore (symbols db2) (symbolNames db2)
                 (flushDependencies deps (dependencies db2))
                 (fileInformation db2) in
  if negb (bool_decide (infos = ∅)) && negb (opens FileInformation) then (db3, false)
  else
  let db4 :=
    if bool_decide (infos = ∅) then db3
    else mkStore (symbols db3) (symbolNames db3) (dependencies db3)
                 (flushInformations infos (fileInformation db3)) in
  (db4, true).

(** The accumulator after the four qSwap calls with fresh locals. *)
Definition swapped_out (acc : IndexerSyncer) : IndexerSyncer :=
  {| mStopped := mStopped acc; mSymbols := ∅; mSymbolNames := ∅;
     mDependencies := ∅; mInformations := ∅ |}.

(** Where one pass through the body of [while (true)] leaves the flusher
    thread. A thread that is [Waiting] re-enters [run_step] on the state it
    finds when [mCond.wait] comes back: both the test of [mStopped] and the
    condition of the inner while are evaluated again there. *)
Inductive RunStep : Type :=
| Returned (acc : IndexerSyncer) (db : Store)  (* run() returned, the thread ends *)
| Waiting (acc : IndexerSyncer) (db : Store)   (* blocked in mCond.wait *)
| Flushed (acc : IndexerSyncer) (db : Store).  (* body done, next iteration *)

(** void IndexerSyncer::run(), one iteration. *)
Definition run_step (opens : Database → bool) (acc : IndexerSyncer) (db : Store)
  : RunStep :=
  if mStopped acc then Returned acc db
  else if bool_decide (mSymbols acc = ∅) && bool_decide (mSymbolNames acc = ∅)
  then Waiting acc db
  else
    match flush opens (mSymbolNames acc) (mSymbols acc)
                (mDependencies acc) (mInformations acc) db with
    | (db', true) => Flushed (swapped_out acc) db'
    | (db', false) => Returned (swapped_out acc) db'
    end.

(** The place of table [t] in the order in which the body of run() opens
    and flushes the tables (lines 147, 173, 197, 222). *)
Definition stage (t : Database) : nat :=
  match t with
  | SymbolName => 0
  | Symbol => 1
  | Dependency => 2
  | FileInformation => 3
  end.

(** Whether the buffer destined for table [t] is empty. *)
Definition buffer_empty (acc : IndexerSyncer) (t : Database) : bool :=
  match t with
  | Symbol => bool_decide (mSymbols acc = ∅)
  | SymbolName => bool_decide (mSymbolNames acc = ∅)
  | Dependency => bool_decide (mDependencies acc = ∅)
  | FileInformation => bool_decide (mInformations acc = ∅)
  end.

(** A CursorInfo that adds nothing to the stored one. *)
Definition info_included (added current : CursorInfo) : Prop :=
  references added ⊆ references current
  ∧ (target current = None → target added = None)
  ∧ (symbolLength current = 0%Z → symbolLength added = 0%Z).

(** Buffers whose every entry is already contained in the store: sets
    included in the stored sets, records for which unite reports no
    change, argument lists equal to the stored ones. *)
Definition nothing_new (names : gmap string (gset Location))
    (syms : gmap Location CursorInfo) (deps : gmap string (gset string))
    (infos : gmap string (list string)) (db : Store) : Prop :=
  (∀ k added, names !! k = Some added →
     added ⊆ readValue ∅ (symbolNames db) k)
  ∧ (∀ loc added, syms !! loc = Some added →
     (unite (readValue empty_info (symbols db) (key loc)) added).2 = false)
  ∧ (∀ k added, deps !! k = Some added →
     added ⊆ readValue ∅ (dependencies db) k)
  ∧ (∀ k args, infos !! k = Some args → fileInformation db !! k = Some args).

(** Concrete stores and accumulators for the examples. *)
Definition loc_foo : Location := mkLocation "/src/a.cpp" 4.
Definition loc_call : Location := mkLocation "/src/b.cpp" 40.

Definition empty_store : Store := mkStore ∅ ∅ ∅ ∅.

(** Only the dependency buffer holds data, as after a DependencyEvent that
    arrives once the symbols of its job have been flushed. *)
Definition only_dependencies : IndexerSyncer :=
  {| mStopped := false; mSymbols := ∅; mSymbolNames := ∅;
     mDependencies := {["/src/a.h" := {["/src/a.cpp"]}]};
     mInformations := ∅ |}.

(** One buffered name. *)
Definition pending_foo : IndexerSyncer :=
  {| mStopped := false; mSymbols := ∅;
     mSymbolNames := {["foo" := {[loc_foo]}]};
     mDependencies := ∅; mInformations := ∅ |}.

Definition info_foo : CursorInfo :=
  {| kind := 8; symbolLength := 3; target := None; references := {[loc_call]} |}.

(** A store that already holds what [resubmitted] carries. *)
Definition store_foo : Store :=
  {| symbols := {[key loc_foo := info_foo]};
     symbolNames := {["foo" := {[loc_foo]}]};
     dependencies := {["/src/a.cpp" := {["/src/a.cpp"]}]};
     fileInformation := {["/src/a.cpp" := ["-x"; "c++"]]} |}.

Definition resubmitted : IndexerSyncer :=
  {| mStopped := false;
     mSymbols := {[loc_foo := info_foo]};
     mSymbolNames := {["foo" := {[loc_foo]}]};
     mDependencies := {["/src/a.cpp" := {["/src/a.cpp"]}]};
     mInformations := {["/src/a.cpp" := ["-x"; "c++"]]} |}.

End Syncer.

(** ** 4.F  Parse job: PCH gate and inclusion visitor *)

Module ParseJob.
Import Coordinator.

(** static inline QList<Path> extractPchFiles(const QList<QByteArray>& args) *)
Fixpoint extractPchFiles_from (nextIsPch : bool) (args : list string) : list string :=
  match args with
  | [] => []
  | arg :: rest =>
      if decide (arg = EmptyString) then extractPchFiles_from nextIsPch rest
      else if nextIsPch then arg :: extractPchFiles_from false rest
      else if decide (arg = "-include-pch") then extractPchFiles_from true rest
      else extractPchFiles_from false rest
  end.

Definition extractPchFiles (args : list string) : list string :=
  extractPchFiles_from false args.

(** QList::indexOf: the first index holding [x], or -1. *)
Fixpoint indexOf_from (x : string) (l : list string) (i : Z) : Z :=
  match l with
  | [] => (-1)%Z
  | a :: l' => if decide (a = x) then i else indexOf_from x l' (i + 1)%Z
  end.

Definition indexOf (x : string) (l : list string) : Z := indexOf_from x l 0.

(** QList::removeAt: removes the element at [i] when [i] is in range. *)
Definition removeAt (i : Z) (l : list string) : list string :=
  if decide (0 ≤ i < Z.of_nat (length l))%Z then delete (Z.to_nat i) l else l.

(** One execution of the foreach over [pchHeaders] inside the do-while
    (lines 671-682), under [implMutex]: the new argument list and [wait]. *)
Fixpoint pch_pass (pchHeaderError indexing : gset string)
    (pchHeaders : list string) (args : list string)
  : result (list string * bool) :=
  match pchHeaders with
  | [] => Ok (args, false)
  | pchHeader :: rest =>
      if decide (pchHeader ∈ pchHeaderError) then
        let idx := indexOf pchHeader args in
        if decide (idx > 0)%Z
        then pch_pass pchHeaderError indexing rest
                      (removeAt (idx - 1) (removeAt idx args))
        else AssertFail
      else if decide (pchHeader ∈ indexing) then Ok (args, true)
      else pch_pass pchHeaderError indexing rest args
  end.

(** The two removals of lines 676-677 for one header: the entry at
    indexOf(pchHeader) and the entry before it. *)
Definition remove_pair (pchHeader : string) (args : list string) : list string :=
  removeAt (indexOf pchHeader args - 1) (removeAt (indexOf pchHeader args) args).

(** The arguments after the removals for the headers of [pchHeaders] that
    are in [pchHeaderError], taken in the order of the list. *)
Definition drop_failed (pchHeaderError : gset string)
    (pchHeaders : list string) (args : list string) : list string :=
  foldl (λ a h, if decide (h ∈ pchHeaderError) then remove_pair h a else a)
        args pchHeaders.

(** Q_ASSERT(idx > 0) holds at each of these removals. *)
Fixpoint asserts_hold (pchHeaderError : gset string)
    (pchHeaders : list string) (args : list string) : bool :=
  match pchHeaders with
  | [] => true
  | h :: rest =>
      if decide (h ∈ pchHeaderError)
      then bool_decide (indexOf h args > 0)%Z
           && asserts_hold pchHeaderError rest (remove_pair h args)
      else asserts_hold pchHeaderError rest args
  end.

Inductive Gate : Type :=
| Parses (args : list string)    (* the loop ended, parsing begins with [args] *)
| Blocked (args : list string).  (* still inside implCond.wait *)

(** The do-while loop (lines 670-686). [snaps] lists the states of the
    coordinator the job finds each time it holds [implMutex]: first when
    it locks, then after each return of [implCond.wait]. *)
Fixpoint pch_loop (snaps : list IndexerImpl) (pchHeaders args : list string)
  : result Gate :=
  match snaps with
  | [] => Ok (Blocked args)
  | s :: later =>
      '(args', wait) ← pch_pass (pchHeaderError s) (indexing s) pchHeaders args ;
      if wait : bool then pch_loop later pchHeaders args' else Ok (Parses args')
  end.

(** The head of IndexerJob::run (lines 665-687); [defaultArgs] is the value
    of [mImpl->defaultArgs] when the job starts. *)
Definition pch_gate (snaps : list IndexerImpl) (mArgs defaultArgs : list string)
  : result Gate :=
  let args := mArgs ++ defaultArgs in
  let pchHeaders := extractPchFiles args in
  match pchHeaders with
  | [] => Ok (Parses args)
  | _ => pch_loop snaps pchHeaders args
  end.

(** Arguments naming two precompiled headers. *)
Definition two_pch_args : list string :=
  ["-include-pch"; "a.h"; "-include-pch"; "b.h"; "-c"].

Definition pch_args : list string := ["-x"; "c++-header"].

(** The PCH job of a.h has failed and has marked the header, its [done]
    is still queued. *)
Definition a_failed : list Call :=
  [CallIndex "a.h" pch_args; CallPchResult "a.h" true].

Definition snap_a_failed : IndexerImpl :=
  Eval vm_compute in
    match exec (init "/tmp/") a_failed with
    | Ok st => st
    | _ => init "/tmp/"
    end.

(** After the failure of a.h, b.h is being indexed when c.cpp, which names
    both, is submitted. *)
Definition b_indexing : list Call :=
  a_failed ++ [CallDone 0 "a.h"; CallIndex "b.h" pch_args;
               CallIndex "c.cpp" two_pch_args].

Definition snap_b_indexing : IndexerImpl :=
  Eval vm_compute in
    match exec (init "/tmp/") b_indexing with
    | Ok st => st
    | _ => init "/tmp/"
    end.

(** The job of b.h has then completed. *)
Definition b_done : list Call :=
  b_indexing ++ [CallPchResult "b.h" false; CallDone 1 "b.h"].

Definition snap_b_done : IndexerImpl :=
  Eval vm_compute in
    match exec (init "/tmp/") b_done with
    | Ok st => st
    | _ => init "/tmp/"
    end.

(** strncmp(a, b, n) == 0 on strings without a NUL byte. *)
Definition strncmp_eq (a b : string) (n : nat) : bool :=
  bool_decide (substring 0 n a = substring 0 n b).

(** QByteArray::contains(const QByteArray&): [needle] occurs in [hay]. *)
Fixpoint contains (hay needle : string) : bool :=
  String.prefix needle hay
  || match hay with
     | EmptyString => false
     | String _ hay' => contains hay' needle
     end.

(** The members of [IndexerJob] the inclusion visitor works on. *)
Record JobData : Type := mkJobData {
  mIsPch : bool;
  mDependencies : gmap string (gset string);
  mPchDependencies : gset string
}.

(** mDependencies[k].insert(v) *)
Definition add_edge (k v : string) (deps : gmap string (gset string))
  : gmap string (gset string) :=
  <[k := {[v]} ∪ default ∅ (deps !! k)]> deps.

Section InclusionVisitor.

(** Path::canonicalized, an external collaborator (Path.h). *)
Variable canonicalized : string → string.

(** The filter of line 414 on the raw file name. *)
Definition outside_usr (cstr : string) : bool :=
  negb (strncmp_eq "/usr/" cstr 5) || strncmp_eq "/usr/home/" cstr 10.

(** static void inclusionVisitor(included_file, include_stack, include_len,
    client_data): [cstr] is the name of the included file and
    [include_stack] holds the file name of each frame. *)
Definition inclusionVisitor (defaultArgs : list string) (job : JobData)
    (cstr : string) (include_stack : list string) : JobData :=
  if outside_usr cstr then
    let p := canonicalized cstr in
    if existsb (λ arg, contains arg p) defaultArgs then job
    else
      let deps1 :=
        foldl (λ deps frame, add_edge p (canonicalized frame) deps)
              (mDependencies job) include_stack in
      let deps2 :=
        if decide (length include_stack = 0) then add_edge p p deps1 else deps1 in
      {| mIsPch := mIsPch job;
         mDependencies := deps2;
         mPchDependencies :=
           if mIsPch job then {[p]} ∪ mPchDependencies job
           else mPchDependencies job |}
  else job.

(** clang_getInclusions(unit, inclusionVisitor, this): one call of the
    visitor per file of the translation unit. *)
Definition getInclusions (defaultArgs : list string) (job : JobData)
    (inclusions : list (string * list string)) : JobData :=
  foldl (λ j inc, inclusionVisitor defaultArgs j inc.1 inc.2) job inclusions.

End InclusionVisitor.

End ParseJob.

(** ** 4.C  Watch registry: directory-change handler *)

Module Watcher.

(** static inline bool isPch(const QList<QByteArray> &args) *)
Fixpoint isPch_from (nextIsX : bool) (args : list string) : bool :=
  match args with
  | [] => false
  | arg :: rest =>
      if nextIsX then
        bool_decide (arg = "c++-header") || bool_decide (arg = "c-header")
      else if decide (arg = "-x") then isPch_from true rest
      else isPch_from false rest
  end.

Definition isPch (args : list string) : bool := isPch_from false args.

(** A [WatchedPair] (QPair<QByteArray, quint64>, file name and modification
    time) is a [string * Z]. A [WatchedHash] is the list of its entries in
    the iteration order of the QHash, each QSet of pairs in the iteration
    order of the set. An iterator of the hash is an index into the list,
    [end()] being its length. *)

Inductive LogLine : Type :=
| NotWatched (p : string)          (* "directory changed, but not in watched list" *)
| CannotOpen                       (* "Can't open FileInformation database" *)
| NotInDependencies (f : string).  (* "file modified but not in dependency list" *)

(** The locals of onDirectoryChanged together with [watched]. *)
Record Scan : Type := mkScan {
  watched : list (string * list (string * Z));
  it : nat;
  pending : list string;
  dirtyFiles : gset string;
  toIndex : gmap string (list string);
  toIndexPch : gmap string (list string);
  logged : list LogLine
}.

(** new DirtyJob(dirtyFiles, toIndexPch, toIndex) *)
Record DirtyJob : Type := mkDirtyJob {
  mDirty : gset string;
  mToIndexPch : gmap string (list string);
  mToIndex : gmap string (list string)
}.

(** it.value() for a hash iterator: undefined on [end()]. *)
Definition value_at (w : list (string * list (string * Z))) (i : nat)
  : result (list (string * Z)) :=
  match w !! i with
  | Some entry => Ok entry.2
  | None => Undefined
  end.

Definition set_value_at (w : list (string * list (string * Z))) (i : nat)
    (v : list (string * Z)) : list (string * list (string * Z)) :=
  match w !! i with
  | Some entry => <[i := (entry.1, v)]> w
  | None => w
  end.

(** QSet::insert on the list of a set. *)
Definition set_insert (x : string * Z) (s : list (string * Z)) : list (string * Z) :=
  if decide (x ∈ s) then s else s ++ [x].

(** Position of the entry of directory [p], as WatchedHash::find. *)
Fixpoint find_from (p : string) (w : list (string * list (string * Z))) (i : nat)
  : option nat :=
  match w with
  | [] => None
  | entry :: w' => if decide (entry.1 = p) then Some i else find_from p w' (S i)
  end.

(** QByteArray::endsWith(char) *)
Fixpoint endsWith (c : ascii) (s : string) : bool :=
  match s with
  | EmptyString => false
  | String a EmptyString => bool_decide (a = c)
  | String _ s' => endsWith c s'
  end.

Section OnDirectoryChanged.

(** External collaborators (Path.h): the file system and the split of a
    path. *)
Variable file_exists : string → bool.
Variable lastModified : string → Z.
Variable fileName : string → string.

(** The body of the foreach over [dit.value()] (lines 954-968); [db] is the
    FileInformation table, a key that is not stored gives [ok = false]. *)
Definition mark_dependent (db : gmap string (list string)) (s : Scan)
    (path : string) : Scan :=
  let dirty1 := {[path]} ∪ dirtyFiles s in
  let '(idx, pch) :=
    if file_exists path then
      match db !! path with
      | Some args =>
          if isPch args then (toIndex s, <[path := args]> (toIndexPch s))
          else (<[path := args]> (toIndex s), toIndexPch s)
      | None => (toIndex s, toIndexPch s)
      end
    else (toIndex s, toIndexPch s) in
  {| watched := watched s; it := it s; pending := pending s;
     dirtyFiles := dirty1; toIndex := idx; toIndexPch := pch;
     logged := logged s |}.

(** The while loop over the watched pairs of the directory (lines 938-972).
    [home] is the position [find(p)] returned, [todo] the pairs from [wit]
    to the end of that directory's set. [it.value().erase(wit)] is defined
    only while [it] still is [home]: erasing from another set through an
    iterator of this one, or through [end()], is undefined. *)
Fixpoint scan (deps : gmap string (gset string)) (db : gmap string (list string))
    (p : string) (home : nat) (todo : list (string * Z)) (s : Scan) : result Scan :=
  match todo with
  | [] => Ok s
  | wp :: rest =>
      let file := p +:+ wp.1 in
      if negb (file_exists file) || negb (bool_decide (lastModified file = wp.2)) then
        cur ← value_at (watched s) (it s) ;
        if decide (it s = home) then
          let s1 :=
            {| watched := set_value_at (watched s) (it s) (filter (λ x, x ≠ wp) cur);
               it := it s; pending := pending s ++ [file];
               dirtyFiles := {[file]} ∪ dirtyFiles s;
               toIndex := toIndex s; toIndexPch := toIndexPch s;
               logged := logged s |} in
          match deps !! file with
          | None =>
              scan deps db p home rest
                {| watched := watched s1; it := S (it s1); pending := pending s1;
                   dirtyFiles := dirtyFiles s1; toIndex := toIndex s1;
                   toIndexPch := toIndexPch s1;
                   logged := logged s1 ++ [NotInDependencies file] |}
          | Some dependents =>
              if decide (dependents = ∅) then AssertFail
              else scan deps db p home rest
                     (foldl (mark_dependent db) s1 (elements dependents))
          end
        else Undefined
      else scan deps db p home rest s
  end.

(** The foreach over [pending] (lines 974-976). *)
Fixpoint rearm (paths : list string) (w : list (string * list (string * Z)))
    (i : nat) : result (list (string * list (string * Z))) :=
  match paths with
  | [] => Ok w
  | path :: rest =>
      cur ← value_at w i ;
      rearm rest
        (set_value_at w i (set_insert (fileName path, lastModified path) cur)) i
  end.

(** void Indexer::onDirectoryChanged(const QString& path): the new
    [watched], the DirtyJob handed to the thread pool if any, and the log.
    [opens] tells whether the FileInformation table can be opened. *)
Definition onDirectoryChanged (deps : gmap string (gset string))
    (opens : bool) (db : gmap string (list string))
    (w : list (string * list (string * Z))) (p : string)
  : result (list (string * list (string * Z)) * option DirtyJob * list LogLine) :=
  if endsWith "/"%char p then
    match find_from p w 0 with
    | None => Ok (w, None, [NotWatched p])
    | Some home =>
        if opens then
          todo ← value_at w home ;
          s ← scan deps db p home todo
                {| watched := w; it := home; pending := []; dirtyFiles := ∅;
                   toIndex := ∅; toIndexPch := ∅; logged := [] |} ;
          w' ← rearm (pending s) (watched s) (it s) ;
          Ok (w', Some (mkDirtyJob (dirtyFiles s) (toIndexPch s) (toIndex s)),
              logged s)
        else Ok (w, None, [CannotOpen])
    end
  else AssertFail.

End OnDirectoryChanged.

(** A file system for the examples: every file exists and was last
    modified at time 2. *)
Definition all_exist (f : string) : bool := true.
Definition modified_at_2 (f : string) : Z := 2.

Fixpoint has_slash (s : string) : bool :=
  match s with
  | EmptyString => false
  | String c s' => bool_decide (c = "/"%char) || has_slash s'
  end.

(** The part of a path after its last slash. *)
Fixpoint base_name (s : string) : string :=
  match s with
  | EmptyString => EmptyString
  | String c s' =>
      if has_slash s' then base_name s'
      else if bool_decide (c = "/"%char) then s' else s
  end.

(** b.h is known to be included by b.cpp; nothing is known about a.h. *)
Definition deps_of_b : gmap string (gset string) := {["/d/b.h" := {["/d/b.cpp"]}]}.
Definition info_of_b : gmap string (list string) := {["/d/b.cpp" := ["-c"]]}.

Definition watch_a_then_b : list (string * list (string * Z)) :=
  [("/d/", [("a.h", 1%Z); ("b.h", 1%Z)])].
Definition watch_b_then_a : list (string * list (string * Z)) :=
  [("/d/", [("b.h", 1%Z); ("a.h", 1%Z)])].
Definition watch_two_directories : list (string * list (string * Z)) :=
  [("/d/", [("a.h", 1%Z)]); ("/e/", [("x.h", 2%Z)])].
Definition watch_b_only : list (string * list (string * Z)) :=
  [("/d/", [("b.h", 1%Z)])].

End Watcher.

(** ** 4.G  Dirty job: the sweep of the Symbol and SymbolName tables *)

Module Dirty.
Import RTags Rdm LevelDB.

(** QByteArray::lastIndexOf(char): the last index holding [c], or -1. *)
Fixpoint lastIndexOf_from (c : ascii) (s : string) (i found : Z) : Z :=
  match s with
  | EmptyString => found
  | String a s' =>
      lastIndexOf_from c s' (i + 1)%Z (if decide (a = c) then i else found)
  end.

Definition lastIndexOf (c : ascii) (s : string) : Z :=
  lastIndexOf_from c s 0 (-1).

(** The path of a Symbol key: the bytes before its last comma
    (QByteArray::fromRawData(key.data(), comma)). *)
Definition key_path (k : string) : string :=
  substring 0 (Z.to_nat (lastIndexOf ","%char k)) k.

(** The while loop over the Symbol table (lines 1027-1051). *)
Fixpoint symbols_loop (mDirty : gset string)
    (entries : list (string * CursorInfo))
    (batch : list (BatchOp CursorInfo)) (writeBatch : bool)
  : result (list (BatchOp CursorInfo) * bool) :=
  match entries with
  | [] => Ok (batch, writeBatch)
  | (k, value) :: rest =>
      let comma := lastIndexOf ","%char k in
      if decide (comma = -1)%Z then AssertFail
      else
        let p := substring 0 (Z.to_nat comma) k in
        if decide (p ∈ mDirty)
        then symbols_loop mDirty rest (batch ++ [Delete k]) true
        else
          let '(cursorInfo, changed) := Rdm.dirty value mDirty in
          if changed then
            if bool_decide (target cursorInfo = None)
               && bool_decide (references cursorInfo = ∅)
            then symbols_loop mDirty rest (batch ++ [Delete k]) true
            else symbols_loop mDirty rest (batch ++ [Put k cursorInfo]) true
          else symbols_loop mDirty rest batch writeBatch
  end.

Definition sweepSymbols (mDirty : gset string) (tbl : gmap string CursorInfo)
  : result (gmap string CursorInfo) :=
  '(batch, writeBatch) ← symbols_loop mDirty (map_to_list tbl) [] false ;
  Ok (if writeBatch : bool then Write tbl batch else tbl).

(** The inner while loop erasing dirty locations (lines 1074-1081). *)
Fixpoint erase_dirty (mDirty : gset string) (todo : list Location)
    (locations : gset Location) (changed : bool) : gset Location * bool :=
  match todo with
  | [] => (locations, changed)
  | i :: rest =>
      if decide (path i ∈ mDirty)
      then erase_dirty mDirty rest (locations ∖ {[i]}) true
      else erase_dirty mDirty rest locations changed
  end.

(** The while loop over the SymbolName table (lines 1070-1093). *)
Fixpoint symbolNames_loop (mDirty : gset string)
    (entries : list (string * gset Location))
    (batch : list (BatchOp (gset Location))) (writeBatch : bool)
  : list (BatchOp (gset Location)) * bool :=
  match entries with
  | [] => (batch, writeBatch)
  | (k, value) :: rest =>
      let '(locations, changed) :=
        erase_dirty mDirty (elements value) value false in
      if changed then
        if bool_decide (locations = ∅)
        then symbolNames_loop mDirty rest (batch ++ [Delete k]) true
        else symbolNames_loop mDirty rest (batch ++ [Put k locations]) true
      else symbolNames_loop mDirty rest batch writeBatch
  end.

Definition sweepSymbolNames (mDirty : gset string)
    (tbl : gmap string (gset Location)) : gmap string (gset Location) :=
  let '(batch, writeBatch) := symbolNames_loop mDirty (map_to_list tbl) [] false in
  if writeBatch then Write tbl batch else tbl.

(** void DirtyJob::dirty(). When a table cannot be opened the source logs
    and goes on to use the null database handle, which is undefined. *)
Definition dirty (opens : Database → bool) (mDirty : gset string) (db : Store)
  : result Store :=
  if opens Symbol then
    syms ← sweepSymbols mDirty (symbols db) ;
    if opens SymbolName then
      Ok (mkStore syms (sweepSymbolNames mDirty (symbolNames db))
                  (dependencies db) (fileInformation db))
    else Undefined
  else Undefined.

(** The operation the Symbol loop stages for one entry, if any. *)
Definition symbol_op (mDirty : gset string) (k : string) (value : CursorInfo)
  : option (BatchOp CursorInfo) :=
  if decide (key_path k ∈ mDirty) then Some (Delete k)
  else
    let '(cursorInfo, changed) := Rdm.dirty value mDirty in
    if changed then
      if bool_decide (target cursorInfo = None)
         && bool_decide (references cursorInfo = ∅)
      then Some (Delete k)
      else Some (Put k cursorInfo)
    else None.

(** The operation the SymbolName loop stages for one entry, if any. *)
Definition name_op (mDirty : gset string) (k : string) (value : gset Location)
  : option (BatchOp (gset Location)) :=
  let locations := filter (λ l, path l ∉ mDirty) value in
  if decide (locations = value) then None
  else if decide (locations = ∅) then Some (Delete k)
  else Some (Put k locations).

(** No Location of the record lies in a dirty path. *)
Definition info_clean (mDirty : gset string) (info : CursorInfo) : Prop :=
  (∀ t, target info = Some t → path t ∉ mDirty)
  ∧ (∀ l, l ∈ references info → path l ∉ mDirty).

(** Every Symbol key has a comma, as every key written by the flusher. *)
Definition keys_wellformed (tbl : gmap string CursorInfo) : Prop :=
  ∀ k, is_Some (tbl !! k) → lastIndexOf ","%char k ≠ (-1)%Z.

(** A store with a symbol of a.cpp referenced from b.cpp, and the dirty
    set of a change to a.cpp. *)
Definition loc_def : Location := mkLocation "/src/a.cpp" 4.
Definition loc_use : Location := mkLocation "/src/b.cpp" 40.

Definition indexed_store : Store :=
  {| symbols :=
       {[ key loc_def := {| kind := 8; symbolLength := 3; target := None;
                            references := {[loc_use]} |} ;
          key loc_use := {| kind := 103; symbolLength := 3; target := Some loc_def;
                            references := ∅ |} ]};
     symbolNames := {[ "foo" := {[loc_def]} ; "g" := {[loc_use]} ]};
     dependencies := {[ "/src/a.cpp" := {["/src/a.cpp"]} ]};
     fileInformation := {[ "/src/a.cpp" := ["-x"; "c++"] ]} |}.

Definition a_changed : gset string := {["/src/a.cpp"]}.

End Dirty.

(** ** Further parts of the pipeline *)

Module SyncerOps.
Import RTags Rdm LevelDB Syncer.

(** The put the SymbolName and Dependency loops of the flusher stage for
    one buffered entry, if any. *)
Definition merge_op {A} `{Countable A} (tbl : gmap string (gset A))
    (k : string) (added : gset A) : option (BatchOp (gset A)) :=
  let current := readValue ∅ tbl k in
  if decide (size current < size (current ∪ added))
  then Some (Put k (current ∪ added))
  else None.

End SyncerOps.

Module CoordinatorRuns.
Import Coordinator.

(** void Indexer::setDefaultArgs(const QList<QByteArray> &args) *)
Definition setDefaultArgs (st : IndexerImpl) (args : list string) : IndexerImpl :=
  {| jobCounter := jobCounter st; indexing := indexing st;
     pchHeaderError := pchHeaderError st; path := path st;
     lastJobId := lastJobId st; jobs := jobs st;
     timerRunning := timerRunning st; defaultArgs := args |}.

(** The states the coordinator goes through: the constructor, then calls of
    index and setDefaultArgs, the PCH bookkeeping at the end of a job, and
    onJobDone for the [done] signal of a registered job, which carries the
    id and the input of that job (emit done(mId, mIn)). *)
Inductive Reachable : IndexerImpl → Prop :=
| reach_init (p : string) : Reachable (init p)
| reach_index st input arguments id st' evs :
    Reachable st →
    index st input arguments = Ok (id, st', evs) →
    Reachable st'
| reach_args st args :
    Reachable st → Reachable (setDefaultArgs st args)
| reach_pch st input pchError :
    Reachable st → Reachable (recordPchResult st input pchError)
| reach_done st id job st' evs :
    Reachable st →
    jobs st !! id = Some job →
    onJobDone st id (mIn job) = Ok (st', evs) →
    Reachable st'.

(** [exec] with the check that every completion is that of a registered
    job, for showing concrete states reachable. *)
Fixpoint run_checked (st : IndexerImpl) (calls : list Call) : option IndexerImpl :=
  match calls with
  | [] => Some st
  | CallIndex input arguments :: rest =>
      match index st input arguments with
      | Ok (_, st', _) => run_checked st' rest
      | _ => None
      end
  | CallPchResult input pchError :: rest =>
      run_checked (recordPchResult st input pchError) rest
  | CallDone id input :: rest =>
      match jobs st !! id with
      | Some job =>
          if decide (mIn job = input) then
            match onJobDone st id input with
            | Ok (st', _) => run_checked st' rest
            | _ => None
            end
          else None
      | None => None
      end
  end.

(** What every reachable state satisfies. *)
Record Inv (st : IndexerImpl) : Prop := mkInv {
  inv_ids : ∀ k job, jobs st !! k = Some job →
                     (0 ≤ k < lastJobId st)%Z ∧ mId job = k;
  inv_indexing : ∀ input, input ∈ indexing st
                          ↔ ∃ k job, jobs st !! k = Some job ∧ mIn job = input;
  inv_unique : ∀ k1 k2 j1 j2, jobs st !! k1 = Some j1 → jobs st !! k2 = Some j2 →
                              mIn j1 = mIn j2 → k1 = k2;
  inv_timer : timerRunning st = true ↔ jobs st ≠ ∅;
  inv_last : (0 ≤ lastJobId st)%Z
}.

End CoordinatorRuns.

Module WatcherMore.

(** A watched pair whose file is on disk with the recorded modification
    time: the pair the loop of onDirectoryChanged steps over. *)
Definition unchanged (file_exists : string → bool) (lastModified : string → Z)
    (p : string) (wp : string * Z) : Prop :=
  file_exists (p +:+ wp.1) = true ∧ lastModified (p +:+ wp.1) = wp.2.

Section Changes.

Variable file_exists : string → bool.
Variable lastModified : string → Z.

(** The test of line 941 on a watched pair of directory [p]. *)
Definition changed (p : string) (wp : string * Z) : bool :=
  negb (file_exists (p +:+ wp.1))
  || negb (bool_decide (lastModified (p +:+ wp.1) = wp.2)).

(** [file] is the file of a pair of [pairs] that fails the test. *)
Definition changed_file (p : string) (pairs : list (string * Z))
    (file : string) : Prop :=
  ∃ wp, wp ∈ pairs ∧ changed p wp = true ∧ file = p +:+ wp.1.

(** [path] is a dependent of a changed file of [pairs]. *)
Definition dependent_of_changed (deps : gmap string (gset string))
    (p : string) (pairs : list (string * Z)) (path : string) : Prop :=
  ∃ file ds, changed_file p pairs file ∧ deps !! file = Some ds ∧ path ∈ ds.

(** The two tables of units to re-index hold arguments read from [db]. *)
Definition consistent (db : gmap string (list string)) (s : Watcher.Scan) : Prop :=
  (∀ path args, Watcher.toIndexPch s !! path = Some args → db !! path = Some args)
  ∧ (∀ path args, Watcher.toIndex s !! path = Some args → db !! path = Some args).

End Changes.

End WatcherMore.

(** ** Parse job: the body of IndexerJob::run after the gate *)

Module JobBody.
Import RTags Rdm ParseJob.

(** The locals of the loop that builds the clang command line together
    with [mIsPch] (lines 690-722). [clangArgs] lists the entries written so
    far, so [idx] is its length. *)
Record Rewrite : Type := mkRewrite {
  clangArgs : list string;
  pchFiles : list string;
  isPchUnit : bool;      (* mIsPch *)
  nextIsPch : bool;
  nextIsX : bool
}.

Section ArgRewrite.

(** SHA256::hash, an external collaborator (SHA256.h). *)
Variable hash : string → string.

(** static QByteArray pchFileName(const QByteArray &path, const QByteArray &header) *)
Definition pchFileName (path header : string) : string := path +:+ hash header.

(** The body of the foreach over [args] (lines 697-722). *)
Definition rewrite_step (path : string) (r : Rewrite) (arg : string) : Rewrite :=
  if decide (arg = EmptyString) then r
  else if nextIsPch r then
    {| clangArgs := clangArgs r ++ [pchFileName path arg];
       pchFiles := pchFiles r ++ [pchFileName path arg];
       isPchUnit := isPchUnit r;
       nextIsPch := false;
       nextIsX := nextIsX r |}
  else
    {| clangArgs := clangArgs r ++ [arg];
       pchFiles := pchFiles r;
       isPchUnit := if nextIsX r
                    then bool_decide (arg = "c++-header")
                         || bool_decide (arg = "c-header")
                    else isPchUnit r;
       nextIsPch := bool_decide (arg = "-include-pch");
       nextIsX := if decide (arg = "-include-pch") then false
                  else if decide (arg = "-x") then true
                  else false |}.

Definition rewrite_args (path : string) (args : list string) : Rewrite :=
  foldl (rewrite_step path) (mkRewrite [] [] false false false) args.

End ArgRewrite.

(** void IndexerImpl::setPchDependencies(const Path &pchHeader,
    const QSet<Path> &deps) *)
Definition setPchDependencies (pchDeps : gmap string (gset string))
    (pchHeader : string) (deps : gset string) : gmap string (gset string) :=
  if bool_decide (deps = ∅) then delete pchHeader pchDeps
  else <[pchHeader := deps]> pchDeps.

(** QSet<Path> IndexerImpl::pchDependencies(const Path &pchHeader) const *)
Definition pchDependencies (pchDeps : gmap string (gset string))
    (pchHeader : string) : gset string :=
  default ∅ (pchDeps !! pchHeader).

(** The two nested foreach loops after clang_getInclusions (lines 740-744):
    mDependencies[dep].insert(mIn) for every dependency of every PCH header
    of the job. *)
Definition attributePch (pchDeps : gmap string (gset string))
    (pchHeaders : list string) (input : string)
    (deps : gmap string (gset string)) : gmap string (gset string) :=
  foldl (λ d pchHeader,
           foldl (λ d' dep, add_edge dep input d') d
                 (elements (pchDependencies pchDeps pchHeader)))
        deps pchHeaders.

(** QByteArray::indexOf(char): the first index holding [c], or -1. *)
Fixpoint indexOfChar_from (c : ascii) (s : string) (i : Z) : Z :=
  match s with
  | EmptyString => (-1)%Z
  | String a s' => if decide (a = c) then i else indexOfChar_from c s' (i + 1)%Z
  end.

(** The name without its parameter list: qnoparam.left(sp) when there is a
    parenthesis. *)
Definition strip_params (name : string) : string :=
  let sp := indexOfChar_from "("%char name 0 in
  if decide (sp = -1)%Z then name else substring 0 (Z.to_nat sp) name.

(** mSymbolNames[k].insert(location) *)
Definition insert_name (k : string) (location : Location)
    (names : gmap string (gset Location)) : gmap string (gset Location) :=
  <[k := {[location]} ∪ default ∅ (names !! k)]> names.

(** void IndexerJob::addNamePermutations(CXCursor cursor, const
    RTags::Location &location). [names] lists the display names of the
    cursor and of its semantic parents, innermost first, up to the
    translation unit or the null cursor; an empty string stands for a
    missing or empty display name. *)
Fixpoint addNamePermutations_from (names : list string) (location : Location)
    (qparam qnoparam : string) (mSymbolNames : gmap string (gset Location))
  : result (gmap string (gset Location)) :=
  match names with
  | [] => Ok mSymbolNames
  | qname :: parents =>
      if decide (qname = EmptyString) then Ok mSymbolNames
      else
        let '(qparam1, qnoparam1) :=
          if decide (qparam = EmptyString)
          then (qname +:+ qparam, strip_params (qname +:+ qnoparam))
          else ((qname +:+ "::") +:+ qparam, (qname +:+ "::") +:+ qnoparam) in
        if decide (qparam1 = EmptyString) then AssertFail
        else
          let names1 := insert_name qparam1 location mSymbolNames in
          if decide (qparam1 = qnoparam1)
          then addNamePermutations_from parents location qparam1 qnoparam1 names1
          else if decide (qnoparam1 = EmptyString) then AssertFail
          else addNamePermutations_from parents location qparam1 qnoparam1
                 (insert_name qnoparam1 location names1)
  end.

Definition addNamePermutations (names : list string) (location : Location)
    (mSymbolNames : gmap string (gset Location))
  : result (gmap string (gset Location)) :=
  addNamePermutations_from names location EmptyString EmptyString mSymbolNames.

(** The name a chain of parents gives to [base]: each parent is put in
    front with a double colon. *)
Definition qualified (parents : list string) (base : string) : string :=
  foldl (λ acc parent, (parent +:+ "::") +:+ acc) base parents.

Definition with_references (ci : CursorInfo) (refs : gset Location) : CursorInfo :=
  {| kind := kind ci; symbolLength := symbolLength ci; target := target ci;
     references := refs |}.

Definition with_target (ci : CursorInfo) (t : Location) : CursorInfo :=
  {| kind := kind ci; symbolLength := symbolLength ci; target := Some t;
     references := references ci |}.

(** The body of the loop over [mReferences] (lines 759-775), statement by
    statement on the symbol hash, so that the two references [ci] and
    [otherCi] may name the same entry. *)
Definition resolve_step (mSymbols : gmap Location CursorInfo)
    (entry : Location * (Location * bool)) : gmap Location CursorInfo :=
  let key := entry.1 in
  let tgt := entry.2.1 in
  match mSymbols !! tgt with
  | None => mSymbols
  | Some _ =>
      if entry.2.2 then
        (* Rdm::CursorInfo &otherCi = mSymbols[it.key()]; *)
        let m0 := match mSymbols !! key with
                  | Some _ => mSymbols
                  | None => <[key := empty_info]> mSymbols
                  end in
        (* ci.references += otherCi.references; *)
        let m1 := alter (λ ci, with_references ci
                                 (references ci
                                  ∪ references (default empty_info (m0 !! key))))
                        tgt m0 in
        (* otherCi.references = ci.references; *)
        let m2 := alter (λ other, with_references other
                                    (references (default empty_info (m1 !! tgt))))
                        key m1 in
        (* if (otherCi.target.isNull()) ci.target = it.key(); *)
        match target (default empty_info (m2 !! key)) with
        | None => alter (λ ci, with_target ci key) tgt m2
        | Some _ => m2
        end
      else
        (* ci.references.insert(it.key()); *)
        alter (λ ci, with_references ci ({[key]} ∪ references ci)) tgt mSymbols
  end.

Definition resolveReferences (mReferences : gmap Location (Location * bool))
    (mSymbols : gmap Location CursorInfo) : gmap Location CursorInfo :=
  foldl resolve_step mSymbols (map_to_list mReferences).

(** The loop that erases the symbols without target and references (lines
    778-791). *)
Definition prune (mSymbols : gmap Location CursorInfo) : gmap Location CursorInfo :=
  foldl (λ m e, if bool_decide (target e.2 = None)
                   && bool_decide (references e.2 = ∅)
                then delete e.1 m else m)
        mSymbols (map_to_list mSymbols).

Section Markers.

(** Path::fileName, an external collaborator (Path.h). *)
Variable fileName : string → string.

(** The foreach over [mPaths] (lines 792-796). *)
Definition addFileMarkers (mPaths : gset string)
    (mSymbolNames : gmap string (gset Location)) : gmap string (gset Location) :=
  foldl (λ m path,
           let loc := mkLocation path 1 in
           insert_name (fileName path) loc (insert_name path loc m))
        mSymbolNames (elements mPaths).

End Markers.

(** An included file the visitor records: it passes the filter on /usr/
    and its canonical name occurs in no default argument. *)
Definition recorded (canonicalized : string → string)
    (defaultArgs : list string) (cstr : string) : Prop :=
  outside_usr cstr = true
  ∧ existsb (λ arg, contains arg (canonicalized cstr)) defaultArgs = false.

(** [ci'] is [ci] with possibly more references and a target where there
    was none. *)
Definition info_grows (ci ci' : CursorInfo) : Prop :=
  references ci ⊆ references ci'
  ∧ kind ci' = kind ci
  ∧ symbolLength ci' = symbolLength ci
  ∧ (is_Some (target ci) → is_Some (target ci')).

(** Every symbol of [m] is a symbol of [m'], grown. *)
Definition grows (m m' : gmap Location CursorInfo) : Prop :=
  ∀ l ci, m !! l = Some ci → ∃ ci', m' !! l = Some ci' ∧ info_grows ci ci'.

(** The test of the pruning loop. *)
Definition prunable (ci : CursorInfo) : Prop :=
  target ci = None ∧ references ci = ∅.

(** A chain of display names on which the second assertion of
    addNamePermutations holds: its first name, if there is one, does not
    start with a parenthesis. *)
Definition names_assertable (names : list string) : Prop :=
  ∀ name parents, names = name :: parents →
                  name = EmptyString ∨ strip_params name ≠ EmptyString.

End JobBody.

(** ** Coordinator: committing the dependencies of a job *)

Module Commit.

(** The members of [IndexerImpl] that commitDependencies works on. The
    watch table is a finite map here: the function only looks directories
    up and inserts pairs, so the iteration order of the QHash does not
    show. *)
Record ImplDeps : Type := mkImplDeps {
  dependencies : gmap string (gset string);
  watched : gmap string (gset (string * Z))
}.

(** What a call leaves behind besides the new state: the table handed to
    syncer->addDependencies, and the directories handed to
    watcher.addPaths (no call when there is none). *)
Record Committed : Type := mkCommitted {
  impl : ImplDeps;
  newDependencies : gmap string (gset string);
  addPaths : option (gset string)
}.

(** The body of the loop of lines 284-287 on the pair of tables
    (dependencies, newDependencies). *)
Definition merge_step
    (acc : gmap string (gset string) * gmap string (gset string))
    (entry : string * gset string)
  : gmap string (gset string) * gmap string (gset string) :=
  let current := default ∅ (acc.1 !! entry.1) in
  (<[entry.1 := current ∪ entry.2]> acc.1,
   <[entry.1 := default ∅ (acc.2 !! entry.1) ∪ (entry.2 ∖ current)]> acc.2).

(** Lines 277-288. *)
Definition merge_dependencies (deps0 deps : gmap string (gset string))
  : gmap string (gset string) * gmap string (gset string) :=
  if bool_decide (deps0 = ∅) then (deps, deps)
  else foldl merge_step (deps0, ∅) (map_to_list deps).

Section CommitDependencies.

(** Path::parentDir, Path::fileName and Path::lastModified, external
    collaborators (Path.h); the last reads the file system. *)
Variable parentDir : string → string.
Variable fileName : string → string.
Variable lastModified : string → Z.

(** The body of the loop of lines 296-307 on the pair (watched,
    watchPaths). *)
Definition watch_step
    (acc : gmap string (gset (string * Z)) * gset string) (path : string)
  : gmap string (gset (string * Z)) * gset string :=
  let parentPath := parentDir path in
  let pair := (fileName path, lastModified path) in
  match acc.1 !! parentPath with
  | None => (<[parentPath := {[pair]}]> acc.1, {[parentPath]} ∪ acc.2)
  | Some pairs => (<[parentPath := {[pair]} ∪ pairs]> acc.1, acc.2)
  end.

Definition watch_new (watched0 : gmap string (gset (string * Z)))
    (newDeps : gmap string (gset string))
  : gmap string (gset (string * Z)) * gset string :=
  foldl watch_step (watched0, ∅) (map_to_list newDeps).*1.

(** inline void IndexerImpl::commitDependencies(const DependencyHash& deps) *)
Definition commitDependencies (st : ImplDeps) (deps : gmap string (gset string))
  : Committed :=
  let merged := merge_dependencies (dependencies st) deps in
  let registered := watch_new (watched st) merged.2 in
  {| impl := {| dependencies := merged.1; watched := registered.1 |};
     newDependencies := merged.2;
     addPaths := if bool_decide (registered.2 = ∅) then None
                 else Some registered.2 |}.

End CommitDependencies.

(** Every dependency the coordinator knows is in the buffer of the flusher
    or in the Dependency table. *)
Definition accounted (known buffer tbl : gmap string (gset string)) : Prop :=
  ∀ k x, x ∈ default ∅ (known !! k) →
         x ∈ default ∅ (tbl !! k) ∨ x ∈ default ∅ (buffer !! k).

End Commit.

(** ** Parse job: the cursor visitor *)

Module Visitor.
Import RTags Rdm JobBody.

(** The cursor kinds the visitor names, with their values in
    clang-c/Index.h. *)
Definition CXCursor_FunctionDecl : Z := 8.
Definition CXCursor_CXXMethod : Z := 21.
Definition CXCursor_Constructor : Z := 24.
Definition CXCursor_Destructor : Z := 25.
Definition CXCursor_CXXAccessSpecifier : Z := 39.
Definition CXCursor_TypeRef : Z := 43.
Definition CXCursor_CallExpr : Z := 103.

(** What libclang answers about one cursor and the cursor it references
    ([ref], after the step to the definition of lines 565-569). A file
    name is empty when the location is null or clang gives no name; a
    spelling is [None] when clang_getCString gives a null pointer. *)
Record Cursor : Type := mkCursor {
  cursorKind : Z;               (* clang_getCursorKind(cursor) *)
  cursorFile : string;          (* file name of the spelling location *)
  cursorStart : Z;              (* offset of the spelling location *)
  isDefinition : bool;          (* clang_isCursorDefinition(cursor) *)
  isReference : bool;           (* clang_isReference(kind) *)
  cursorSpelling : option string;
  displayNames : list string;   (* of the cursor and its semantic parents *)
  refEqual : bool;              (* clang_equalCursors(cursor, ref) *)
  refKind : Z;                  (* clang_getCursorKind(ref) *)
  refInvalid : bool;            (* clang_isInvalid(refKind) *)
  refFile : string;
  refStart : Z;
  refSpelling : option string
}.

(** The members of [IndexerJob] the visitor works on. *)
Record JobTables : Type := mkJobTables {
  mSymbols : gmap Location CursorInfo;
  mReferences : gmap Location (Location * bool);
  mSymbolNames : gmap string (gset Location);
  mPaths : gset string
}.

Definition no_tables : JobTables :=
  {| mSymbols := ∅; mReferences := ∅; mSymbolNames := ∅; mPaths := ∅ |}.

Definition with_kind (ci : CursorInfo) (k : Z) : CursorInfo :=
  {| kind := k; symbolLength := symbolLength ci; target := target ci;
     references := references ci |}.

Definition with_symbolLength (ci : CursorInfo) (n : Z) : CursorInfo :=
  {| kind := kind ci; symbolLength := n; target := target ci;
     references := references ci |}.

(** strlen of a C string, 0 for the null pointer (line 589). *)
Definition spelling_length (cstr : option string) : Z :=
  match cstr with
  | Some str => Z.of_nat (String.length str)
  | None => 0
  end.

Section IndexVisitor.

(** Path::canonicalize, an external collaborator (Path.h). *)
Variable canonicalize : string → string.

(** Modelled from the spec: RTags::Location::isNull is declared in
    RTags.h, which is not part of the sources; section 4.F.i resolves the
    location of a cursor to null or to a location. The Location that
    createLocation leaves as constructed is the null one, [None] here, and
    one that was given a file name is not. *)
Definition createLocation (file : string) (start : Z) (paths : gset string)
  : option Location * gset string :=
  if decide (file = EmptyString) then (None, paths)
  else (Some (mkLocation (canonicalize file) start),
        {[canonicalize file]} ∪ paths).

(** The member-function test of lines 611-623. *)
Definition isMemberFunction (c : Cursor) : bool :=
  bool_decide (refKind c = cursorKind c)
  && (bool_decide (refKind c = CXCursor_Constructor)
      || bool_decide (refKind c = CXCursor_Destructor)
      || bool_decide (refKind c = CXCursor_CXXMethod)).

(** static CXChildVisitResult indexVisitor(CXCursor cursor, CXCursor,
    CXClientData client_data). Every path returns CXChildVisit_Recurse;
    the result is the job afterwards. [info] is a reference into
    [mSymbols], so the entry of [loc] exists from line 573 on and holds
    what was assigned to [info] when the function returns. *)
Definition indexVisitor (job : JobTables) (c : Cursor) : result JobTables :=
  if decide (cursorKind c = CXCursor_CXXAccessSpecifier) then Ok job
  else
    let located := createLocation (cursorFile c) (cursorStart c) (mPaths job) in
    match located.1 with
    | None =>
        Ok {| mSymbols := mSymbols job; mReferences := mReferences job;
              mSymbolNames := mSymbolNames job; mPaths := located.2 |}
    | Some loc =>
        let info := default empty_info (mSymbols job !! loc) in
        if bool_decide (cursorKind c = CXCursor_CallExpr)
           && bool_decide (refKind c = CXCursor_CXXMethod)
        then Ok {| mSymbols := <[loc := info]> (mSymbols job);
                   mReferences := mReferences job;
                   mSymbolNames := mSymbolNames job; mPaths := located.2 |}
        else if negb (bool_decide (symbolLength info = 0%Z))
                && bool_decide (kind info = CXCursor_Constructor)
                && bool_decide (cursorKind c = CXCursor_TypeRef)
        then Ok {| mSymbols := <[loc := info]> (mSymbols job);
                   mReferences := mReferences job;
                   mSymbolNames := mSymbolNames job; mPaths := located.2 |}
        else
          let info1 := if bool_decide (symbolLength info = 0%Z)
                       then with_kind info (cursorKind c) else info in
          let info2 :=
            if bool_decide (symbolLength info1 = 0%Z)
            then with_symbolLength info1
                   (spelling_length (if isReference c then refSpelling c
                                     else cursorSpelling c))
            else info1 in
          names ← (if isDefinition c
                      || bool_decide (cursorKind c = CXCursor_FunctionDecl)
                   then addNamePermutations (displayNames c) loc
                          (mSymbolNames job)
                   else Ok (mSymbolNames job)) ;
          if negb (refInvalid c) && negb (refEqual c) then
            let refLocated := createLocation (refFile c) (refStart c) located.2 in
            match refLocated.1 with
            | None =>
                Ok {| mSymbols := <[loc := info2]> (mSymbols job);
                      mReferences := mReferences job;
                      mSymbolNames := names; mPaths := refLocated.2 |}
            | Some refLoc =>
                Ok {| mSymbols := <[loc := with_target info2 refLoc]> (mSymbols job);
                      mReferences :=
                        <[loc := (refLoc, isMemberFunction c)]> (mReferences job);
                      mSymbolNames := names; mPaths := refLocated.2 |}
            end
          else
            Ok {| mSymbols := <[loc := info2]> (mSymbols job);
                  mReferences := mReferences job;
                  mSymbolNames := names; mPaths := located.2 |}
    end.

(** clang_visitChildren(..., indexVisitor, this): one call per cursor, in
    the order of the traversal. *)
Fixpoint visitChildren (job : JobTables) (cursors : list Cursor)
  : result JobTables :=
  match cursors with
  | [] => Ok job
  | c :: rest => job' ← indexVisitor job c ; visitChildren job' rest
  end.

End IndexVisitor.

(** What the visitor keeps true of the tables of a job. *)
Record Visited (job : JobTables) : Prop := mkVisited {
  symbols_in_paths :
    ∀ loc, is_Some (mSymbols job !! loc) → path loc ∈ mPaths job;
  references_have_target :
    ∀ loc refLoc member, mReferences job !! loc = Some (refLoc, member) →
      path refLoc ∈ mPaths job
      ∧ ∃ info, mSymbols job !! loc = Some info ∧ target info = Some refLoc;
  targets_are_references :
    ∀ loc info t, mSymbols job !! loc = Some info → target info = Some t →
      ∃ member, mReferences job !! loc = Some (t, member);
  names_are_symbols :
    ∀ name loc, loc ∈ default ∅ (mSymbolNames job !! name) →
      is_Some (mSymbols job !! loc);
  no_references_yet :
    ∀ loc info, mSymbols job !! loc = Some info → references info = ∅
}.

(** A traversal for the examples: the definition of foo(int) in a.cpp and
    a use of it in the same file. *)
Definition def_foo : Cursor :=
  {| cursorKind := CXCursor_FunctionDecl; cursorFile := "/src/a.cpp";
     cursorStart := 4; isDefinition := true; isReference := false;
     cursorSpelling := Some "foo"; displayNames := ["foo(int)"];
     refEqual := true; refKind := CXCursor_FunctionDecl; refInvalid := false;
     refFile := "/src/a.cpp"; refStart := 4; refSpelling := Some "foo" |}.

Definition use_foo : Cursor :=
  {| cursorKind := 101; cursorFile := "/src/a.cpp";
     cursorStart := 40; isDefinition := false; isReference := false;
     cursorSpelling := Some "foo"; displayNames := ["foo"];
     refEqual := false; refKind := CXCursor_FunctionDecl; refInvalid := false;
     refFile := "/src/a.cpp"; refStart := 4; refSpelling := Some "foo" |}.

Definition after_def_foo : JobTables :=
  Eval vm_compute in
    match indexVisitor (λ f, f) no_tables def_foo with
    | Ok job => job
    | _ => no_tables
    end.

(** A second cursor at the location of foo, of another kind and with a
    longer spelling. *)
Definition again_foo : Cursor :=
  {| cursorKind := 101; cursorFile := "/src/a.cpp";
     cursorStart := 4; isDefinition := false; isReference := false;
     cursorSpelling := Some "foobar"; displayNames := ["foobar"];
     refEqual := true; refKind := 101; refInvalid := false;
     refFile := "/src/a.cpp"; refStart := 4; refSpelling := Some "foobar" |}.

(** A call of a C++ method. *)
Definition call_method : Cursor :=
  {| cursorKind := CXCursor_CallExpr; cursorFile := "/src/a.cpp";
     cursorStart := 60; isDefinition := false; isReference := false;
     cursorSpelling := Some "m"; displayNames := ["m()"];
     refEqual := false; refKind := CXCursor_CXXMethod; refInvalid := false;
     refFile := "/src/a.h"; refStart := 20; refSpelling := Some "m" |}.

Definition after_again_foo : JobTables :=
  Eval vm_compute in
    match indexVisitor (λ f, f) after_def_foo again_foo with
    | Ok job => job
    | _ => no_tables
    end.

Definition after_call_method : JobTables :=
  Eval vm_compute in
    match indexVisitor (λ f, f) after_def_foo call_method with
    | Ok job => job
    | _ => no_tables
    end.

End Visitor.

(** * Properties *)

(** ** Job coordinator *)

Module CoordinatorFacts.
Import Coordinator.

Lemma taken_from_succ (js : gmap Z IndexerJob) (last : Z) :
  is_Some (js !! last) →
  size (taken_from js (last + 1)) < size (taken_from js last).
Proof.
  intros Hin. apply subset_size. unfold taken_from. split.
  - intros k. rewrite !elem_of_filter. intros [? ?]. split; [lia | done].
  - intros Hsub. specialize (Hsub last).
    rewrite !elem_of_filter, elem_of_dom in Hsub.
    destruct Hsub as [? _]; [split; [lia | done] | lia].
Qed.

Lemma taken_from_size (js : gmap Z IndexerJob) (last : Z) :
  size (taken_from js last) ≤ size js.
Proof.
  rewrite <- (size_dom (D := gset Z) js). apply subseteq_size.
  unfold taken_from. intros k. rewrite elem_of_filter. tauto.
Qed.

(** The do-while of [index] stops, at the first id from [lastJobId] on that
    is not a key of [jobs]. *)
Lemma alloc_id_spec (fuel : nat) :
  ∀ (last : Z) (js : gmap Z IndexerJob),
    size (taken_from js last) < fuel →
    (last + Z.of_nat (size (taken_from js last)) < INT_MAX)%Z →
    ∃ id, alloc_id fuel last js = Ok (id, (id + 1)%Z)
          ∧ (last ≤ id)%Z ∧ js !! id = None
          ∧ ∀ j, (last ≤ j < id)%Z → is_Some (js !! j).
Proof.
  induction fuel as [|fuel IH]; intros last js Hfuel Hmax; [lia |].
  simpl. unfold int_succ. destruct (decide (last < INT_MAX)%Z) as [_|Hge]; [| lia].
  simpl. destruct (js !! last) as [job|] eqn:Hlast.
  - assert (Hlt := taken_from_succ js last (mk_is_Some _ _ Hlast)).
    destruct (IH (last + 1)%Z js) as (id & Hrun & Hle & Hfree & Hbelow); [lia | lia |].
    exists id. repeat split; [done | lia | done |].
    intros j Hj. destruct (decide (j = last)) as [-> | Hne]; [by eexists |].
    apply Hbelow. lia.
  - exists last. repeat split; [lia | done |]. intros j Hj. lia.
Qed.

(** C3 (as the code has it). If [input] is in [indexing], [index] returns
    -1 and leaves the coordinator as it was. Otherwise, as long as the
    counter cannot overflow, it returns the first id from [lastJobId]
    upwards that is not a key of [jobs] (not the lowest unused id), sets
    [lastJobId] to the id after it, inserts [input] into [indexing],
    registers the job under the id, starts the timer if it was not running
    and hands the job to the thread pool. *)
Theorem index_allocates_from_lastJobId
    (st : IndexerImpl) (input : string) (arguments : list string) :
  (input ∈ indexing st → index st input arguments = Ok ((-1)%Z, st, []))
  ∧ (input ∉ indexing st →
     (lastJobId st + Z.of_nat (size (jobs st)) < INT_MAX)%Z →
     ∃ id,
       index st input arguments =
         Ok (id,
             {| jobCounter := jobCounter st;
                indexing := {[input]} ∪ indexing st;
                pchHeaderError := pchHeaderError st;
                path := path st;
                lastJobId := (id + 1)%Z;
                jobs := <[id := mkJob id (path st) input arguments]> (jobs st);
                timerRunning := true;
                defaultArgs := defaultArgs st |},
             [Connect id] ++ (if timerRunning st then [] else [TimerStart])
             ++ [PoolStart (mkJob id (path st) input arguments)])
       ∧ (lastJobId st ≤ id)%Z
       ∧ jobs st !! id = None
       ∧ ∀ j, (lastJobId st ≤ j < id)%Z → is_Some (jobs st !! j)).
Proof.
  split.
  - intros Hin. unfold index. by rewrite decide_True.
  - intros Hnotin Hmax. unfold index. rewrite decide_False by done.
    pose proof (taken_from_size (jobs st) (lastJobId st)) as Hsize.
    destruct (alloc_id_spec (S (size (jobs st))) (lastJobId st) (jobs st))
      as (id & Hrun & Hle & Hfree & Hbelow); [lia | lia |].
    exists id. rewrite Hrun. simpl. done.
Qed.

Lemma index_allocates_from_lastJobId_witness :
  exec (init "/tmp/") one_done = Ok idle_after_one
  ∧ ∃ id st' evs, index idle_after_one "b.cpp" ["-x"; "c++"] = Ok (id, st', evs)
                  ∧ (1 ≤ id)%Z ∧ jobs idle_after_one !! id = None
                  ∧ lastJobId st' = (id + 1)%Z.
Proof.
  split; [vm_compute; reflexivity |].
  destruct (index_allocates_from_lastJobId idle_after_one "b.cpp" ["-x"; "c++"])
    as [_ H].
  destruct H as (id & Hrun & Hle & Hfree & _);
    [vm_compute; intros [=] | vm_compute; reflexivity |].
  exists id. do 2 eexists. split; [exact Hrun |]. done.
Defined.

(** C3 (as stated) fails: after one job has come and gone, id 0 is unused
    but the next call gets id 1. *)
Lemma index_not_lowest_unused :
  ∃ st, exec (init "/tmp/") one_done = Ok st
    ∧ ("b.cpp" ∉ indexing st)
    ∧ ∃ id st' evs, index st "b.cpp" [] = Ok (id, st', evs)
                    ∧ ¬ lowest_unused (jobs st) id.
Proof.
  eexists. split; [vm_compute; reflexivity |]. split; [vm_compute; intros [=] |].
  do 3 eexists. split; [vm_compute; reflexivity |].
  intros [_ Hbelow]. destruct (Hbelow 0%Z) as [job Hjob]; [lia |].
  vm_compute in Hjob. discriminate.
Qed.

(** C1 (what the code does). Whenever a job completes while other jobs are
    still registered, the flusher is not notified, also when this
    completion brings [jobCounter] to SYNCINTERVAL. *)
Theorem onJobDone_busy_never_notifies
    (st st' : IndexerImpl) (id : Z) (input : string) (evs : list Event) :
  onJobDone st id input = Ok (st', evs) →
  jobs st' ≠ ∅ →
  SyncerNotify ∉ evs.
Proof.
  unfold onJobDone, int_succ. destruct (decide (jobCounter st < INT_MAX)%Z); [| done].
  simpl. intros Hrun Hbusy.
  assert (∀ woken : list Event, woken = [WakeAll] ∨ woken = [] →
            SyncerNotify ∉ woken ++ [IndexingDone id]) as Hquiet.
  { intros woken [-> | ->] Hin; simpl in Hin;
    repeat (apply elem_of_cons in Hin as [Hin | Hin]; [discriminate |]);
    by apply elem_of_nil in Hin. }
  assert (SyncerNotify ∉ (if decide (input ∈ indexing st) then [WakeAll] else [])
                         ++ [IndexingDone id]) as Hevs.
  { apply Hquiet. destruct (decide (input ∈ indexing st)); auto. }
  destruct (bool_decide (delete id (jobs st) = ∅)) eqn:Hempty.
  - simpl in Hrun. destruct (timerRunning st); [| done].
    injection Hrun as <- <-. simpl in Hbusy.
    apply bool_decide_eq_true in Hempty. done.
  - destruct (bool_decide ((jobCounter st + 1)%Z = SYNCINTERVAL));
      simpl in Hrun; injection Hrun as <- <-; done.
Qed.

Lemma onJobDone_busy_never_notifies_witness :
  exec (init "/tmp/") nine_done = Ok busy_after_nine
  ∧ ∃ st', onJobDone busy_after_nine 9 "f9.cpp"
             = Ok (st', [WakeAll; IndexingDone 9])
           ∧ jobCounter st' = SYNCINTERVAL
           ∧ is_Some (jobs st' !! 10%Z)
           ∧ SyncerNotify ∉ [WakeAll; IndexingDone 9].
Proof.
  split; [vm_compute; reflexivity |].
  destruct (onJobDone busy_after_nine 9 "f9.cpp") as [[st' evs]| | |] eqn:Hrun;
    try (vm_compute in Hrun; discriminate).
  assert (evs = [WakeAll; IndexingDone 9]) as Hevs.
  { vm_compute in Hrun. by injection Hrun as _ <-. }
  assert (jobCounter st' = SYNCINTERVAL) as Hcount.
  { vm_compute in Hrun. by injection Hrun as <- _. }
  assert (is_Some (jobs st' !! 10%Z)) as Hbusy.
  { vm_compute in Hrun. injection Hrun as <- _. vm_compute. eauto. }
  exists st'. subst evs. split; [reflexivity |].
  split; [done |]. split; [done |].
  apply (onJobDone_busy_never_notifies busy_after_nine st' 9 "f9.cpp" _ Hrun).
  intros Hempty. rewrite Hempty, lookup_empty in Hbusy. by destruct Hbusy.
Defined.

End CoordinatorFacts.

(** ** Accumulator and flusher *)

Module SyncerFacts.
Import RTags Rdm LevelDB Syncer.

Lemma unite_included (current added : CursorInfo) :
  info_included added current → unite current added = (current, false).
Proof.
  intros (Hrefs & Htarget & Hlen). unfold unite.
  assert (bool_decide (symbolLength current = 0%Z)
          && negb (bool_decide (symbolLength added = 0%Z)) = false) as ->.
  { destruct (decide (symbolLength current = 0%Z)) as [H0 | Hn0].
    - rewrite (bool_decide_eq_true_2 _ (Hlen H0)). apply andb_false_r.
    - by rewrite (bool_decide_eq_false_2 _ Hn0). }
  assert (references current ∪ references added = references current) as ->
    by (rewrite union_comm_L; by apply subseteq_union_1_L).
  assert (match target current with Some t => Some t | None => target added end
          = target current) as ->.
  { destruct (target current); [done | by apply Htarget]. }
  destruct current as [k len t refs]. simpl. f_equal.
  apply bool_decide_eq_false_2. auto.
Qed.

Lemma symbolNames_loop_included (tbl : gmap string (gset Location)) entries :
  ∀ batch changed,
    Forall (λ e, e.2 ⊆ readValue ∅ tbl e.1) entries →
    symbolNames_loop tbl entries batch changed = (batch, changed).
Proof.
  induction entries as [|[k added] rest IH]; intros batch changed Hall; [done |].
  apply Forall_cons in Hall as [Hsub Hrest]. simpl in *.
  assert (readValue ∅ tbl k ∪ added = readValue ∅ tbl k) as ->
    by (rewrite union_comm_L; by apply subseteq_union_1_L).
  rewrite decide_False by auto. by apply IH.
Qed.

Lemma dependencies_loop_included (tbl : gmap string (gset string)) entries :
  ∀ batch changed,
    Forall (λ e, e.2 ⊆ readValue ∅ tbl e.1) entries →
    dependencies_loop tbl entries batch changed = (batch, changed).
Proof.
  induction entries as [|[k added] rest IH]; intros batch changed Hall; [done |].
  apply Forall_cons in Hall as [Hsub Hrest]. simpl in *.
  assert (readValue ∅ tbl k ∪ added = readValue ∅ tbl k) as ->
    by (rewrite union_comm_L; by apply subseteq_union_1_L).
  rewrite decide_False by lia. by apply IH.
Qed.

Lemma symbols_loop_cons (tbl : gmap string CursorInfo) loc added rest batch changed :
  symbols_loop tbl ((loc, added) :: rest) batch changed =
    let '(current', grew) := unite (readValue empty_info tbl (key loc)) added in
    if grew then symbols_loop tbl rest (batch ++ [Put (key loc) current']) true
    else symbols_loop tbl rest batch changed.
Proof. reflexivity. Qed.

Lemma symbols_loop_included (tbl : gmap string CursorInfo) entries :
  ∀ batch changed,
    Forall (λ e, (unite (readValue empty_info tbl (key e.1)) e.2).2 = false) entries →
    symbols_loop tbl entries batch changed = (batch, changed).
Proof.
  induction entries as [|[loc added] rest IH]; intros batch changed Hall; [done |].
  apply Forall_cons in Hall as [Hsame Hrest]. cbn [fst snd] in Hsame.
  rewrite symbols_loop_cons.
  destruct (unite (readValue empty_info tbl (key loc)) added) as [merged grew].
  cbn [snd] in Hsame. subst grew. by apply IH.
Qed.

Lemma informations_loop_app (entries : list (string * list string)) :
  ∀ batch, informations_loop entries batch
           = batch ++ map (λ e, Put e.1 e.2) entries.
Proof.
  induction entries as [|[k args] rest IH]; intros batch; simpl.
  - by rewrite app_nil_r.
  - by rewrite IH, <- app_assoc.
Qed.

Lemma Write_same_values (tbl : gmap string (list string)) entries :
  Forall (λ e, tbl !! e.1 = Some e.2) entries →
  Write tbl (map (λ e, Put e.1 e.2) entries) = tbl.
Proof.
  unfold Write. induction entries as [|[k args] rest IH]; intros Hall; [done |].
  apply Forall_cons in Hall as [Hk Hrest]. simpl in *.
  rewrite (insert_id _ _ _ Hk). by apply IH.
Qed.

Lemma entries_Forall {K V} `{Countable K} (m : gmap K V) (P : K * V → Prop) :
  (∀ k v, m !! k = Some v → P (k, v)) → Forall P (map_to_list m).
Proof.
  intros HP. apply Forall_forall. intros [k v] Hin.
  apply HP. by apply elem_of_map_to_list.
Qed.

(** What the three merging loops stage: only puts of values that grew. *)
Lemma symbolNames_loop_staged (tbl : gmap string (gset Location)) entries :
  ∀ batch changed batch' changed',
    symbolNames_loop tbl entries batch changed = (batch', changed') →
    ∃ new, batch' = batch ++ new
      ∧ changed' = changed || bool_decide (new ≠ [])
      ∧ Forall (λ op, ∃ k added, (k, added) ∈ entries
                  ∧ op = Put k (readValue ∅ tbl k ∪ added)
                  ∧ size (readValue ∅ tbl k) < size (readValue ∅ tbl k ∪ added))
               new.
Proof.
  induction entries as [|[k added] rest IH]; intros batch changed batch' changed' Hrun;
    simpl in Hrun.
  - injection Hrun as <- <-. exists []. by rewrite app_nil_r, orb_false_r.
  - assert (size (readValue ∅ tbl k) ≤ size (readValue ∅ tbl k ∪ added)) as Hle
      by (apply subseteq_size, union_subseteq_l).
    destruct (decide (size (readValue ∅ tbl k ∪ added) ≠ size (readValue ∅ tbl k)))
      as [Hgrew | Hsame];
      apply IH in Hrun as (new & -> & -> & Hall).
    + exists (Put k (readValue ∅ tbl k ∪ added) :: new).
      rewrite <- app_assoc. split; [done |]. split; [by rewrite orb_true_r |].
      apply Forall_cons. split.
      * exists k, added. split; [left |]. split; [done | lia].
      * eapply Forall_impl; [exact Hall |].
        intros op (k' & a' & Hin & Hop). exists k', a'. split; [by right | done].
    + exists new. split; [done |]. split; [done |].
      eapply Forall_impl; [exact Hall |].
      intros op (k' & a' & Hin & Hop). exists k', a'. split; [by right | done].
Qed.

Lemma dependencies_loop_staged (tbl : gmap string (gset string)) entries :
  ∀ batch changed batch' changed',
    dependencies_loop tbl entries batch changed = (batch', changed') →
    ∃ new, batch' = batch ++ new
      ∧ changed' = changed || bool_decide (new ≠ [])
      ∧ Forall (λ op, ∃ k added, (k, added) ∈ entries
                  ∧ op = Put k (readValue ∅ tbl k ∪ added)
                  ∧ size (readValue ∅ tbl k) < size (readValue ∅ tbl k ∪ added))
               new.
Proof.
  induction entries as [|[k added] rest IH]; intros batch changed batch' changed' Hrun;
    simpl in Hrun.
  - injection Hrun as <- <-. exists []. by rewrite app_nil_r, orb_false_r.
  - destruct (decide (size (readValue ∅ tbl k) < size (readValue ∅ tbl k ∪ added)))
      as [Hgrew | Hsame];
      apply IH in Hrun as (new & -> & -> & Hall).
    + exists (Put k (readValue ∅ tbl k ∪ added) :: new).
      rewrite <- app_assoc. split; [done |]. split; [by rewrite orb_true_r |].
      apply Forall_cons. split.
      * exists k, added. split; [left | done].
      * eapply Forall_impl; [exact Hall |].
        intros op (k' & a' & Hin & Hop). exists k', a'. split; [by right | done].
    + exists new. split; [done |]. split; [done |].
      eapply Forall_impl; [exact Hall |].
      intros op (k' & a' & Hin & Hop). exists k', a'. split; [by right | done].
Qed.

Lemma symbols_loop_staged (tbl : gmap string CursorInfo) entries :
  ∀ batch changed batch' changed',
    symbols_loop tbl entries batch changed = (batch', changed') →
    ∃ new, batch' = batch ++ new
      ∧ changed' = changed || bool_decide (new ≠ [])
      ∧ Forall (λ op, ∃ loc added merged, (loc, added) ∈ entries
                  ∧ op = Put (key loc) merged
                  ∧ unite (readValue empty_info tbl (key loc)) added = (merged, true))
               new.
Proof.
  induction entries as [|[loc added] rest IH]; intros batch changed batch' changed' Hrun.
  - injection Hrun as <- <-. exists []. by rewrite app_nil_r, orb_false_r.
  - rewrite symbols_loop_cons in Hrun.
    destruct (unite (readValue empty_info tbl (key loc)) added) as [merged grew] eqn:Hu.
    destruct grew; apply IH in Hrun as (new & -> & -> & Hall).
    + exists (Put (key loc) merged :: new).
      rewrite <- app_assoc. split; [done |]. split; [by rewrite orb_true_r |].
      apply Forall_cons. split.
      * exists loc, added, merged. split; [left | done].
      * eapply Forall_impl; [exact Hall |].
        intros op (l' & a' & m' & Hin & Hop). exists l', a', m'.
        split; [by right | done].
    + exists new. split; [done |]. split; [done |].
      eapply Forall_impl; [exact Hall |].
      intros op (l' & a' & m' & Hin & Hop). exists l', a', m'.
      split; [by right | done].
Qed.

Lemma flush_nothing_new (opens : Database → bool) names syms deps infos db :
  nothing_new names syms deps infos db →
  flushSymbolNames names (symbolNames db) = symbolNames db
  ∧ flushSymbols syms (symbols db) = symbols db
  ∧ flushDependencies deps (dependencies db) = dependencies db
  ∧ flushInformations infos (fileInformation db) = fileInformation db.
Proof.
  intros (Hnames & Hsyms & Hdeps & Hinfos).
  unfold flushSymbolNames, flushSymbols, flushDependencies, flushInformations.
  rewrite symbolNames_loop_included
    by (apply entries_Forall; intros k v Hk; by apply (Hnames k v)).
  rewrite symbols_loop_included
    by (apply entries_Forall; intros k v Hk; by apply (Hsyms k v)).
  rewrite dependencies_loop_included
    by (apply entries_Forall; intros k v Hk; by apply (Hdeps k v)).
  rewrite informations_loop_app. simpl.
  rewrite Write_same_values
    by (apply entries_Forall; intros k v Hk; by apply (Hinfos k v)).
  done.
Qed.

(** C6. The flusher stages a put for a name or a dependency only when the
    union with the stored set is strictly larger, and for a symbol only
    when unite reports a change; no change staged means no batch written;
    and a flush of buffers that hold nothing the store lacks leaves every
    table as it was, whatever tables can be opened. *)
Theorem flush_of_known_data_modifies_nothing
    (opens : Database → bool) (names : gmap string (gset Location))
    (syms : gmap Location CursorInfo) (deps : gmap string (gset string))
    (infos : gmap string (list string)) (db : Store) :
  (∀ batch changed,
     symbolNames_loop (symbolNames db) (map_to_list names) [] false = (batch, changed) →
     (changed = false →
      batch = [] ∧ flushSymbolNames names (symbolNames db) = symbolNames db)
     ∧ Forall (λ op, ∃ k added, names !! k = Some added
                 ∧ op = Put k (readValue ∅ (symbolNames db) k ∪ added)
                 ∧ size (readValue ∅ (symbolNames db) k)
                   < size (readValue ∅ (symbolNames db) k ∪ added)) batch)
  ∧ (∀ batch changed,
     symbols_loop (symbols db) (map_to_list syms) [] false = (batch, changed) →
     (changed = false →
      batch = [] ∧ flushSymbols syms (symbols db) = symbols db)
     ∧ Forall (λ op, ∃ loc added merged, syms !! loc = Some added
                 ∧ op = Put (key loc) merged
                 ∧ unite (readValue empty_info (symbols db) (key loc)) added
                   = (merged, true)) batch)
  ∧ (∀ batch changed,
     dependencies_loop (dependencies db) (map_to_list deps) [] false = (batch, changed) →
     (changed = false →
      batch = [] ∧ flushDependencies deps (dependencies db) = dependencies db)
     ∧ Forall (λ op, ∃ k added, deps !! k = Some added
                 ∧ op = Put k (readValue ∅ (dependencies db) k ∪ added)
                 ∧ size (readValue ∅ (dependencies db) k)
                   < size (readValue ∅ (dependencies db) k ∪ added)) batch)
  ∧ (nothing_new names syms deps infos db →
     (flush opens names syms deps infos db).1 = db).
Proof.
  assert (∀ A (new : list A), false || bool_decide (new ≠ []) = false → new = [])
    as Hnil.
  { intros A [|a new] Hb; [done |].
    rewrite bool_decide_eq_true_2 in Hb; done. }
  split; [| split; [| split]].
  - intros batch changed Hrun. split.
    + intros ->. unfold flushSymbolNames. rewrite Hrun. split; [| done].
      apply symbolNames_loop_staged in Hrun as (new & -> & Hflag & _).
      symmetry in Hflag. by apply Hnil in Hflag as ->.
    + apply symbolNames_loop_staged in Hrun as (new & -> & -> & Hall). simpl.
      eapply Forall_impl; [exact Hall |].
      intros op (k & added & Hin & Hop). exists k, added.
      split; [by apply elem_of_map_to_list | done].
  - intros batch changed Hrun. split.
    + intros ->. unfold flushSymbols. rewrite Hrun. split; [| done].
      apply symbols_loop_staged in Hrun as (new & -> & Hflag & _).
      symmetry in Hflag. by apply Hnil in Hflag as ->.
    + apply symbols_loop_staged in Hrun as (new & -> & -> & Hall). simpl.
      eapply Forall_impl; [exact Hall |].
      intros op (loc & added & merged & Hin & Hop). exists loc, added, merged.
      split; [by apply elem_of_map_to_list | done].
  - intros batch changed Hrun. split.
    + intros ->. unfold flushDependencies. rewrite Hrun. split; [| done].
      apply dependencies_loop_staged in Hrun as (new & -> & Hflag & _).
      symmetry in Hflag. by apply Hnil in Hflag as ->.
    + apply dependencies_loop_staged in Hrun as (new & -> & -> & Hall). simpl.
      eapply Forall_impl; [exact Hall |].
      intros op (k & added & Hin & Hop). exists k, added.
      split; [by apply elem_of_map_to_list | done].
  - intros Hnew.
    destruct (flush_nothing_new opens _ _ _ _ _ Hnew) as (Hn & Hs & Hd & Hi).
    unfold flush. destruct db as [tsyms tnames tdeps tinfos]. simpl in *.
    repeat match goal with
           | |- context [bool_decide (?m = ∅)] => destruct (bool_decide (m = ∅))
           | |- context [opens ?t] => destruct (opens t)
           end; simpl; rewrite ?Hn, ?Hs, ?Hd, ?Hi; reflexivity.
Qed.

Lemma flush_of_known_data_modifies_nothing_witness :
  (flush (λ _, true) (mSymbolNames resubmitted) (mSymbols resubmitted)
         (mDependencies resubmitted) (mInformations resubmitted) store_foo).1
  = store_foo.
Proof.
  apply (flush_of_known_data_modifies_nothing (λ _, true)).
  unfold nothing_new, readValue. simpl. split; [| split; [| split]].
  - intros k added [<- <-]%lookup_singleton_Some.
    by rewrite lookup_singleton_eq.
  - intros loc added [<- <-]%lookup_singleton_Some.
    rewrite lookup_singleton_eq.
    assert (info_included info_foo info_foo) as Hinc by (by split; [| split]).
    exact (f_equal snd (unite_included info_foo info_foo Hinc)).
  - intros k added [<- <-]%lookup_singleton_Some.
    by rewrite lookup_singleton_eq.
  - intros k args [<- <-]%lookup_singleton_Some.
    by rewrite lookup_singleton_eq.
Defined.

Lemma run_step_waiting (opens : Database → bool) (acc : IndexerSyncer) (db : Store) :
  mStopped acc = false →
  (run_step opens acc db = Waiting acc db
   ↔ mSymbols acc = ∅ ∧ mSymbolNames acc = ∅).
Proof.
  intros Hrunning. unfold run_step. rewrite Hrunning.
  destruct (decide (mSymbols acc = ∅)) as [Hs | Hs];
    destruct (decide (mSymbolNames acc = ∅)) as [Hn | Hn];
    rewrite ?(bool_decide_eq_true_2 _ Hs), ?(bool_decide_eq_true_2 _ Hn),
            ?(bool_decide_eq_false_2 _ Hs), ?(bool_decide_eq_false_2 _ Hn);
    simpl; [done | | |];
    (split; [| tauto]);
    by destruct (flush opens (mSymbolNames acc) (mSymbols acc)
                       (mDependencies acc) (mInformations acc) db) as [? []].
Qed.

Lemma run_step_flushing (opens : Database → bool) (acc : IndexerSyncer) (db : Store) :
  mStopped acc = false →
  mSymbols acc ≠ ∅ ∨ mSymbolNames acc ≠ ∅ →
  run_step opens acc db
  = (if (flush opens (mSymbolNames acc) (mSymbols acc)
               (mDependencies acc) (mInformations acc) db).2
     then Flushed else Returned)
      (swapped_out acc)
      (flush opens (mSymbolNames acc) (mSymbols acc)
             (mDependencies acc) (mInformations acc) db).1.
Proof.
  intros Hrunning Hdata. unfold run_step. rewrite Hrunning.
  assert (bool_decide (mSymbols acc = ∅) && bool_decide (mSymbolNames acc = ∅)
          = false) as ->.
  { destruct Hdata as [Hs | Hn].
    - by rewrite (bool_decide_eq_false_2 _ Hs).
    - rewrite (bool_decide_eq_false_2 _ Hn). apply andb_false_r. }
  by destruct (flush opens (mSymbolNames acc) (mSymbols acc)
                     (mDependencies acc) (mInformations acc) db) as [? []].
Qed.

(** C4 (as the code has it). A running flusher waits exactly when the
    symbol and the symbol-name buffers are both empty, whatever the
    dependency and file-information buffers hold; when one of those two is
    non-empty it swaps out all four buffers and flushes them. *)
Theorem run_step_waits_on_two_buffers
    (opens : Database → bool) (acc : IndexerSyncer) (db : Store) :
  mStopped acc = false →
  (run_step opens acc db = Waiting acc db
   ↔ mSymbols acc = ∅ ∧ mSymbolNames acc = ∅)
  ∧ (mSymbols acc ≠ ∅ ∨ mSymbolNames acc ≠ ∅ →
     let out := flush opens (mSymbolNames acc) (mSymbols acc)
                      (mDependencies acc) (mInformations acc) db in
     run_step opens acc db
     = (if out.2 then Flushed else Returned) (swapped_out acc) out.1).
Proof.
  intros Hrunning. split.
  - by apply run_step_waiting.
  - intros Hdata. by apply run_step_flushing.
Qed.

Lemma run_step_waits_on_two_buffers_witness :
  run_step (λ _, true) pending_foo empty_store
  = Flushed (swapped_out pending_foo)
            (mkStore ∅ {["foo" := {[loc_foo]}]} ∅ ∅).
Proof.
  destruct (run_step_waits_on_two_buffers (λ _, true) pending_foo empty_store)
    as [_ Hflush]; [reflexivity |].
  rewrite Hflush.
  - vm_compute. reflexivity.
  - right. apply map_non_empty_singleton.
Defined.

(** C4 (as stated) fails: with data in the dependency buffer only, the
    flusher waits although every table can be opened. *)
Lemma run_step_waits_with_pending_dependencies :
  addDependencies fresh {["/src/a.h" := {["/src/a.cpp"]}]} = only_dependencies
  ∧ mStopped only_dependencies = false
  ∧ mDependencies only_dependencies ≠ ∅
  ∧ run_step (λ _, true) only_dependencies empty_store
    = Waiting only_dependencies empty_store.
Proof.
  split; [reflexivity |].
  split; [reflexivity |]. split; [| vm_compute; reflexivity].
  apply map_non_empty_singleton.
Qed.

(** C2 (as the code has it). When a table whose buffer holds data cannot
    be opened, run() returns: the flusher thread ends and the four buffers
    have already been swapped out of the accumulator. With [t] the first
    such table in the order of the pass, every table before [t] whose
    buffer held data has been flushed and keeps its writes, and [t] and
    the tables after it are as they were: what was buffered for them is
    neither stored nor pending. In particular no table that failed to
    open is modified. *)
Theorem run_step_open_failure_ends_flusher
    (opens : Database → bool) (acc : IndexerSyncer) (db : Store) (t : Database) :
  mStopped acc = false →
  mSymbols acc ≠ ∅ ∨ mSymbolNames acc ≠ ∅ →
  buffer_empty acc t = false →
  opens t = false →
  (∀ u, stage u < stage t → buffer_empty acc u = true ∨ opens u = true) →
  ∃ db', run_step opens acc db = Returned (swapped_out acc) db'
    ∧ (∀ u, buffer_empty (swapped_out acc) u = true)
    ∧ symbolNames db'
      = (if bool_decide (stage SymbolName < stage t)
            && negb (buffer_empty acc SymbolName)
         then flushSymbolNames (mSymbolNames acc) (symbolNames db)
         else symbolNames db)
    ∧ symbols db'
      = (if bool_decide (stage Symbol < stage t)
            && negb (buffer_empty acc Symbol)
         then flushSymbols (mSymbols acc) (symbols db)
         else symbols db)
    ∧ dependencies db'
      = (if bool_decide (stage Dependency < stage t)
            && negb (buffer_empty acc Dependency)
         then flushDependencies (mDependencies acc) (dependencies db)
         else dependencies db)
    ∧ fileInformation db' = fileInformation db
    ∧ (∀ u, opens u = false →
         match u with
         | SymbolName => symbolNames db' = symbolNames db
         | Symbol => symbols db' = symbols db
         | Dependency => dependencies db' = dependencies db
         | FileInformation => fileInformation db' = fileInformation db
         end).
Proof.
  intros Hrunning Hdata Hbuf Hopen Hfirst.
  rewrite (run_step_flushing opens acc db Hrunning Hdata). clear Hdata.
  assert (Hempty : ∀ u, buffer_empty (swapped_out acc) u = true)
    by (intros []; simpl; by apply bool_decide_eq_true_2).
  pose proof (Hfirst SymbolName) as H1.
  pose proof (Hfirst Symbol) as H2.
  pose proof (Hfirst Dependency) as H3.
  clear Hfirst. unfold flush.
  destruct t; simpl in Hbuf, H1, H2, H3;
    destruct (bool_decide (mSymbolNames acc = ∅)) eqn:En;
    destruct (bool_decide (mSymbols acc = ∅)) eqn:Es;
    destruct (bool_decide (mDependencies acc = ∅)) eqn:Ed;
    destruct (bool_decide (mInformations acc = ∅)) eqn:Ei;
    try discriminate Hbuf;
    destruct (opens SymbolName) eqn:On;
    destruct (opens Symbol) eqn:Os;
    destruct (opens Dependency) eqn:Od;
    destruct (opens FileInformation) eqn:Oi;
    try discriminate Hopen;
    try (exfalso; destruct H1 as [H1|H1]; [lia | discriminate H1 ..]; fail);
    try (exfalso; destruct H2 as [H2|H2]; [lia | discriminate H2 ..]; fail);
    try (exfalso; destruct H3 as [H3|H3]; [lia | discriminate H3 ..]; fail);
    simpl; (eexists; split; [reflexivity |]; split; [exact Hempty |]);
    simpl; rewrite ?En, ?Es, ?Ed, ?Ei; simpl;
    (split_and!; try reflexivity); intros [] Hu; try reflexivity; congruence.
Qed.

Lemma run_step_open_failure_ends_flusher_witness :
  ∃ db', run_step (λ u, match u with SymbolName => true | _ => false end)
           resubmitted empty_store
         = Returned (swapped_out resubmitted) db'
    ∧ symbolNames db' = {["foo" := {[loc_foo]}]}
    ∧ symbols db' = ∅
    ∧ dependencies db' = ∅
    ∧ fileInformation db' = ∅.
Proof.
  destruct (run_step_open_failure_ends_flusher
              (λ u, match u with SymbolName => true | _ => false end)
              resubmitted empty_store Symbol)
    as (db' & Hstep & _ & Hnames & Hsyms & Hdeps & Hinfos & _).
  - reflexivity.
  - right. apply map_non_empty_singleton.
  - apply bool_decide_eq_false_2, map_non_empty_singleton.
  - reflexivity.
  - intros [] Hu; simpl in Hu; [lia | by right | lia | lia].
  - exists db'. split; [exact Hstep |].
    rewrite Hnames, Hsyms, Hdeps, Hinfos.
    repeat split; vm_compute; reflexivity.
Defined.

(** C2 (as stated) fails: the name buffered before the failed open is, once
    run() has returned, neither in the accumulator nor in the store. *)
Lemma run_step_open_failure_loses_buffer :
  addSymbolNames fresh {["foo" := {[loc_foo]}]} = pending_foo
  ∧ mSymbolNames pending_foo !! "foo" = Some {[loc_foo]}
  ∧ ∃ acc' db',
      run_step (λ _, false) pending_foo empty_store = Returned acc' db'
      ∧ mSymbolNames acc' !! "foo" = None
      ∧ symbolNames db' !! "foo" = None.
Proof.
  split; [reflexivity |]. split; [apply lookup_singleton_eq |].
  exists (swapped_out pending_foo), empty_store.
  split; [vm_compute; reflexivity |]. split; apply lookup_empty.
Qed.

End SyncerFacts.

(** ** Parse job *)

Module ParseJobFacts.
Import Coordinator ParseJob.

Lemma indexOf_from_absent (x : string) (l : list string) :
  ∀ i, x ∉ l → indexOf_from x l i = (-1)%Z.
Proof.
  induction l as [|a l IH]; intros i Hnotin; [done |].
  apply not_elem_of_cons in Hnotin as [Hne Hnotin]. simpl.
  rewrite decide_False by done. by apply IH.
Qed.

Lemma indexOf_from_first (x : string) (pre post : list string) :
  ∀ i, x ∉ pre →
       indexOf_from x (pre ++ x :: post) i = (i + Z.of_nat (length pre))%Z.
Proof.
  induction pre as [|a pre IH]; intros i Hnotin; simpl.
  - rewrite decide_True by done. lia.
  - apply not_elem_of_cons in Hnotin as [Hne Hnotin].
    rewrite decide_False by done. rewrite IH by done. lia.
Qed.

(** Removing at [indexOf] and at the index before it takes out a flag and
    the value that follows it. *)
Lemma remove_flag_and_value (h : string) (pre post : list string) :
  h ∉ pre → h ≠ "-include-pch" →
  let args := pre ++ "-include-pch" :: h :: post in
  (indexOf h args > 0)%Z
  ∧ removeAt (indexOf h args - 1) (removeAt (indexOf h args) args) = pre ++ post.
Proof.
  intros Hpre Hflag args.
  assert (indexOf h args = Z.of_nat (length pre) + 1)%Z as Hidx.
  { unfold indexOf, args.
    change (pre ++ "-include-pch" :: h :: post)
      with (pre ++ ["-include-pch"] ++ h :: post).
    rewrite app_assoc, indexOf_from_first.
    - rewrite length_app. simpl. lia.
    - rewrite elem_of_app, list_elem_of_singleton. intros [? | ?]; done. }
  rewrite Hidx. split; [lia |].
  assert (removeAt (Z.of_nat (length pre) + 1) args = pre ++ "-include-pch" :: post)
    as ->.
  { unfold removeAt, args.
    rewrite decide_True by (rewrite length_app; simpl; lia).
    replace (Z.to_nat (Z.of_nat (length pre) + 1))
      with (length (pre ++ ["-include-pch"]))
      by (rewrite length_app; simpl; lia).
    change (pre ++ "-include-pch" :: h :: post)
      with (pre ++ ["-include-pch"] ++ h :: post).
    by rewrite app_assoc, delete_middle, <- app_assoc. }
  unfold removeAt.
  rewrite decide_True by (rewrite length_app; simpl; lia).
  replace (Z.to_nat (Z.of_nat (length pre) + 1 - 1)) with (length pre) by lia.
  by rewrite delete_middle.
Qed.

(** A pass that does not ask to wait has seen no header that is being
    indexed and is not marked as failed. *)
Lemma pch_pass_no_wait (err idx : gset string) (headers : list string) :
  ∀ args args',
    pch_pass err idx headers args = Ok (args', false) →
    ∀ h, h ∈ headers → h ∈ err ∨ h ∉ idx.
Proof.
  induction headers as [|h0 headers IH]; intros args args' Hpass h Hin.
  - by apply elem_of_nil in Hin.
  - simpl in Hpass. apply elem_of_cons in Hin.
    destruct (decide (h0 ∈ err)) as [Herr | Hnoerr].
    + destruct (decide (indexOf h0 args > 0)%Z); [| done].
      destruct Hin as [-> | Hin]; [by left | by eapply IH].
    + destruct (decide (h0 ∈ idx)) as [Hidx | Hnoidx]; [done |].
      destruct Hin as [-> | Hin]; [by right | by eapply IH].
Qed.

Lemma pch_loop_exit (snaps : list IndexerImpl) (headers : list string) :
  ∀ args args',
    pch_loop snaps headers args = Ok (Parses args') →
    ∃ before s after, snaps = before ++ s :: after
      ∧ ∀ h, h ∈ headers → h ∈ pchHeaderError s ∨ h ∉ indexing s.
Proof.
  induction snaps as [|s later IH]; intros args args' Hloop; [done |].
  simpl in Hloop.
  destruct (pch_pass (pchHeaderError s) (indexing s) headers args)
    as [[args1 wait]| | |] eqn:Hpass; try done.
  simpl in Hloop. destruct wait.
  - apply IH in Hloop as (before & s' & after & -> & Hs').
    by exists (s :: before), s', after.
  - exists [], s, later. split; [done |]. by eapply pch_pass_no_wait.
Qed.

Lemma pch_pass_waits (err idx : gset string) (headers : list string) :
  ∀ args h,
    h ∈ headers → h ∉ err → h ∈ idx →
    (∃ args', pch_pass err idx headers args = Ok (args', true))
    ∨ pch_pass err idx headers args = AssertFail.
Proof.
  induction headers as [|h0 headers IH]; intros args h Hin Hnoerr Hidx.
  - by apply elem_of_nil in Hin.
  - simpl. apply elem_of_cons in Hin.
    destruct (decide (h0 ∈ err)) as [Herr0 | Hnoerr0].
    + destruct (decide (indexOf h0 args > 0)%Z); [| by right].
      destruct Hin as [-> | Hin]; [done | by eapply IH].
    + destruct (decide (h0 ∈ idx)) as [Hidx0 | Hnoidx0]; [left; by eexists |].
      destruct Hin as [-> | Hin]; [done | by eapply IH].
Qed.

(** A pass that does not ask to wait has made the removals for every
    failed header. *)
Lemma pch_pass_exit (err idx : gset string) (headers : list string) :
  ∀ args args',
    pch_pass err idx headers args = Ok (args', false) →
    args' = drop_failed err headers args.
Proof.
  induction headers as [|h0 headers IH]; intros args args' Hpass; simpl in Hpass.
  - by injection Hpass as <-.
  - unfold drop_failed. cbn [foldl]. fold (drop_failed err headers).
    destruct (decide (h0 ∈ err)).
    + destruct (decide (indexOf h0 args > 0)%Z); [| done]. by apply IH.
    + destruct (decide (h0 ∈ idx)); [done |]. by apply IH.
Qed.

(** A pass over headers that are all marked as failed or not being
    indexed goes through when its assertions hold. *)
Lemma pch_pass_through (err idx : gset string) (headers : list string) :
  ∀ args,
    (∀ h, h ∈ headers → h ∈ err ∨ h ∉ idx) →
    asserts_hold err headers args = true →
    pch_pass err idx headers args = Ok (drop_failed err headers args, false).
Proof.
  induction headers as [|h0 headers IH]; intros args Hall Hassert; [done |].
  simpl in Hassert. simpl.
  unfold drop_failed. cbn [foldl]. fold (drop_failed err headers).
  assert (Hrest : ∀ h, h ∈ headers → h ∈ err ∨ h ∉ idx)
    by (intros h Hh; apply Hall; by right).
  destruct (decide (h0 ∈ err)) as [Herr|Hnoerr].
  - apply andb_true_iff in Hassert as [Hidx Hassert].
    apply bool_decide_eq_true in Hidx.
    rewrite decide_True by done. by apply IH.
  - destruct (Hall h0) as [?|Hnoidx]; [left | done |].
    rewrite decide_False by done. by apply IH.
Qed.

(** A pass stops at the first header that is being indexed and not marked
    as failed, after the removals for the failed headers before it. *)
Lemma pch_pass_blocks (err idx : gset string) (pre : list string) :
  ∀ (h : string) (post args : list string),
    (∀ x, x ∈ pre → x ∈ err ∨ x ∉ idx) →
    h ∉ err → h ∈ idx →
    asserts_hold err pre args = true →
    pch_pass err idx (pre ++ h :: post) args = Ok (drop_failed err pre args, true).
Proof.
  induction pre as [|x pre IH]; intros h post args Hall Hnoerr Hidx Hassert.
  - simpl. rewrite decide_False by done. by rewrite decide_True.
  - simpl in Hassert. simpl.
    unfold drop_failed. cbn [foldl]. fold (drop_failed err pre).
    assert (Hrest : ∀ y, y ∈ pre → y ∈ err ∨ y ∉ idx)
      by (intros y Hy; apply Hall; by right).
    destruct (decide (x ∈ err)) as [Hx|Hx].
    + apply andb_true_iff in Hassert as [Hpos Hassert].
      apply bool_decide_eq_true in Hpos.
      rewrite decide_True by done. by apply IH.
    + destruct (Hall x) as [?|Hxidx]; [left | done |].
      rewrite decide_False by done. by apply IH.
Qed.

(** A pass that asks to wait has met a header that is being indexed and
    is not marked as failed. *)
Lemma pch_pass_waited (err idx : gset string) (headers : list string) :
  ∀ args args',
    pch_pass err idx headers args = Ok (args', true) →
    ∃ h, h ∈ headers ∧ (h ∉ err) ∧ h ∈ idx.
Proof.
  induction headers as [|h0 headers IH]; intros args args' Hpass;
    simpl in Hpass; [done |].
  destruct (decide (h0 ∈ err)) as [Herr|Hnoerr].
  - destruct (decide (indexOf h0 args > 0)%Z); [| done].
    destruct (IH _ _ Hpass) as (h & Hin & Hh). exists h. split; [by right | done].
  - destruct (decide (h0 ∈ idx)) as [Hidx|Hnoidx].
    + exists h0. split; [left | done].
    + destruct (IH _ _ Hpass) as (h & Hin & Hh). exists h. split; [by right | done].
Qed.

(** The loop ends at the first observed state whose pass does not ask to
    wait; every state observed before it made the job wait. *)
Lemma pch_loop_observed (snaps : list IndexerImpl) (headers : list string) :
  ∀ args args',
    pch_loop snaps headers args = Ok (Parses args') →
    ∃ before s after argsk,
      snaps = before ++ s :: after
      ∧ pch_loop before headers args = Ok (Blocked argsk)
      ∧ (∀ s', s' ∈ before →
               ∃ h, h ∈ headers ∧ (h ∉ pchHeaderError s') ∧ h ∈ indexing s')
      ∧ pch_pass (pchHeaderError s) (indexing s) headers argsk = Ok (args', false).
Proof.
  induction snaps as [|s later IH]; intros args args' Hloop; [done |].
  simpl in Hloop.
  destruct (pch_pass (pchHeaderError s) (indexing s) headers args)
    as [[args1 wait]| | |] eqn:Hpass; try done.
  simpl in Hloop. destruct wait.
  - apply IH in Hloop as (before & s' & after & argsk & -> & Hblocked & Hwaited & Hexit).
    exists (s :: before), s', after, argsk. split; [done |]. split.
    + simpl. by rewrite Hpass.
    + split; [| done]. intros s0 Hs0.
      apply elem_of_cons in Hs0 as [->|Hs0]; [| by apply Hwaited].
      by eapply pch_pass_waited.
  - injection Hloop as <-. exists [], s, later, args.
    split; [done |]. split; [done |]. split; [| done].
    intros s' Hs'. by apply elem_of_nil in Hs'.
Qed.

(** C7 (as the code has it). The job leaves the PCH loop at the first
    state it observes, under the mutex, in which every header named by
    -include-pch is marked in pchHeaderError or absent from indexing;
    every state it observed before held a header that was being indexed
    and not marked as failed, and made it wait. It then parses with the
    arguments left by the removals: for each header marked as failed, in
    the order of the headers, the entry at indexOf(header) and the entry
    before it, which are the header and its flag when the header first
    occurs right after the flag. A header marked as failed does not hold
    the job back even while it is being indexed. What a pass does when
    the assertion idx > 0 fails is not part of the statement. *)
Theorem pch_gate_passes_when_failed_or_idle
    (snaps : list IndexerImpl) (mArgs defaultArgs : list string) :
  (∀ args', pch_gate snaps mArgs defaultArgs = Ok (Parses args') →
     (extractPchFiles (mArgs ++ defaultArgs) = [] ∧ args' = mArgs ++ defaultArgs)
     ∨ ∃ before s after argsk,
         snaps = before ++ s :: after
         ∧ pch_loop before (extractPchFiles (mArgs ++ defaultArgs))
                    (mArgs ++ defaultArgs) = Ok (Blocked argsk)
         ∧ (∀ s', s' ∈ before →
                  ∃ h, h ∈ extractPchFiles (mArgs ++ defaultArgs)
                       ∧ (h ∉ pchHeaderError s') ∧ h ∈ indexing s')
         ∧ (∀ h, h ∈ extractPchFiles (mArgs ++ defaultArgs) →
                 h ∈ pchHeaderError s ∨ h ∉ indexing s)
         ∧ args' = drop_failed (pchHeaderError s)
                     (extractPchFiles (mArgs ++ defaultArgs)) argsk)
  ∧ (∀ (err idx : gset string) (headers : list string) h args,
       h ∈ headers → h ∉ err → h ∈ idx →
       (∃ args1, pch_pass err idx headers args = Ok (args1, true))
       ∨ pch_pass err idx headers args = AssertFail)
  ∧ (∀ (err idx : gset string) (pre : list string) h post args,
       (∀ x, x ∈ pre → x ∈ err ∨ x ∉ idx) →
       h ∉ err → h ∈ idx →
       asserts_hold err pre args = true →
       pch_pass err idx (pre ++ h :: post) args
       = Ok (drop_failed err pre args, true))
  ∧ (∀ (err idx : gset string) (headers args : list string),
       (∀ h, h ∈ headers → h ∈ err ∨ h ∉ idx) →
       asserts_hold err headers args = true →
       pch_pass err idx headers args = Ok (drop_failed err headers args, false))
  ∧ (∀ h pre post, h ∉ pre → h ≠ "-include-pch" →
       (indexOf h (pre ++ "-include-pch" :: h :: post) > 0)%Z
       ∧ remove_pair h (pre ++ "-include-pch" :: h :: post) = pre ++ post).
Proof.
  split_and!.
  - unfold pch_gate. intros args' Hgate.
    destruct (extractPchFiles (mArgs ++ defaultArgs)) as [|h0 headers] eqn:Hheaders.
    + left. split; [done |]. by injection Hgate as <-.
    + right.
      apply pch_loop_observed in Hgate
        as (before & s & after & argsk & Hsplit & Hblocked & Hwaited & Hexit).
      exists before, s, after, argsk. split_and!; try done.
      * by eapply pch_pass_no_wait.
      * by apply pch_pass_exit in Hexit.
  - intros err idx headers h args Hin Hnoerr Hidx. by eapply pch_pass_waits.
  - intros err idx pre h post args. apply pch_pass_blocks.
  - intros err idx headers args. apply pch_pass_through.
  - intros h pre post Hpre Hflag. by apply remove_flag_and_value.
Qed.

Lemma pch_gate_passes_when_failed_or_idle_witness :
  pch_gate [snap_b_indexing; snap_b_done] ["-include-pch"; "b.h"; "b.cpp"] []
  = Ok (Parses ["-include-pch"; "b.h"; "b.cpp"])
  ∧ ∃ before s after argsk,
      [snap_b_indexing; snap_b_done] = before ++ s :: after
      ∧ pch_loop before (extractPchFiles (["-include-pch"; "b.h"; "b.cpp"] ++ []))
                 (["-include-pch"; "b.h"; "b.cpp"] ++ []) = Ok (Blocked argsk)
      ∧ (∀ s', s' ∈ before →
               ∃ h, h ∈ extractPchFiles (["-include-pch"; "b.h"; "b.cpp"] ++ [])
                    ∧ (h ∉ pchHeaderError s') ∧ h ∈ indexing s')
      ∧ (∀ h, h ∈ extractPchFiles (["-include-pch"; "b.h"; "b.cpp"] ++ []) →
              h ∈ pchHeaderError s ∨ h ∉ indexing s)
      ∧ ["-include-pch"; "b.h"; "b.cpp"]
        = drop_failed (pchHeaderError s)
            (extractPchFiles (["-include-pch"; "b.h"; "b.cpp"] ++ [])) argsk.
Proof.
  assert (pch_gate [snap_b_indexing; snap_b_done] ["-include-pch"; "b.h"; "b.cpp"] []
          = Ok (Parses ["-include-pch"; "b.h"; "b.cpp"])) as Hgate
    by (vm_compute; reflexivity).
  split; [exact Hgate |].
  destruct (pch_gate_passes_when_failed_or_idle
              [snap_b_indexing; snap_b_done] ["-include-pch"; "b.h"; "b.cpp"] [])
    as [Hexit _].
  destruct (Hexit _ Hgate) as [[Hnone _] | Hsome]; [| exact Hsome].
  vm_compute in Hnone. discriminate.
Defined.

(** C7 (as stated) fails: a.h is being indexed, yet the job that names it
    begins parsing, without the flag and the header. *)
Lemma pch_gate_parses_while_header_indexing :
  exec (init "/tmp/") a_failed = Ok snap_a_failed
  ∧ "a.h" ∈ extractPchFiles (["-include-pch"; "a.h"; "a.cpp"] ++ [])
  ∧ "a.h" ∈ indexing snap_a_failed
  ∧ pch_gate [snap_a_failed] ["-include-pch"; "a.h"; "a.cpp"] []
    = Ok (Parses ["a.cpp"]).
Proof.
  split; [vm_compute; reflexivity |]. split; [| split].
  - simpl. apply list_elem_of_singleton. reflexivity.
  - apply (bool_decide_unpack _). vm_compute. exact I.
  - vm_compute. reflexivity.
Qed.

(** C10 (what the code does). The job names a.h and b.h; a.h is marked as
    failed and b.h is being indexed. The first pass removes the pair of
    a.h and waits; the pass after the wake-up finds a.h marked again, no
    longer finds it in the arguments (indexOf gives -1) and the assertion
    idx > 0 fails. *)
Theorem pch_gate_second_pass_breaks_assertion :
  exec (init "/tmp/") b_indexing = Ok snap_b_indexing
  ∧ exec (init "/tmp/") b_done = Ok snap_b_done
  ∧ pch_gate [snap_b_indexing] two_pch_args []
    = Ok (Blocked ["-include-pch"; "b.h"; "-c"])
  ∧ indexOf "a.h" ["-include-pch"; "b.h"; "-c"] = (-1)%Z
  ∧ pch_gate [snap_b_indexing; snap_b_done] two_pch_args [] = AssertFail.
Proof.
  repeat split; vm_compute; reflexivity.
Qed.

Lemma substring_whole (a : string) : substring 0 (String.length a) a = a.
Proof. induction a as [|c a IH]; simpl; [done | by rewrite IH]. Qed.

(** The strncmp test over the length of its first argument is a prefix
    test. *)
Lemma strncmp_eq_prefix (a b : string) :
  strncmp_eq a b (String.length a) = String.prefix a b.
Proof.
  unfold strncmp_eq. rewrite substring_whole.
  destruct (String.prefix a b) eqn:Hp.
  - apply String.prefix_correct in Hp. by apply bool_decide_eq_true_2.
  - apply bool_decide_eq_false_2. intros Heq. symmetry in Heq.
    apply String.prefix_correct in Heq. congruence.
Qed.

Lemma outside_usr_prefix (cstr : string) :
  outside_usr cstr
  = negb (String.prefix "/usr/" cstr) || String.prefix "/usr/home/" cstr.
Proof.
  unfold outside_usr.
  by rewrite <- (strncmp_eq_prefix "/usr/"), <- (strncmp_eq_prefix "/usr/home/").
Qed.

Lemma prefix_app (needle : string) :
  ∀ hay, String.prefix needle hay = true ↔ ∃ post, hay = needle +:+ post.
Proof.
  induction needle as [|c needle IH]; intros [|d hay]; simpl.
  - split; [intros _; by exists EmptyString | done].
  - split; [intros _; by exists (String d hay) | done].
  - split; [done | by intros [post Hpost]].
  - destruct (ascii_dec c d) as [-> | Hne].
    + rewrite IH. split; intros [post Hpost]; exists post; [by rewrite Hpost |].
      by injection Hpost.
    + split; [done |]. intros [post Hpost]. injection Hpost as -> _. done.
Qed.

(** [contains] is the substring test. *)
Lemma contains_spec (hay needle : string) :
  contains hay needle = true ↔ ∃ pre post, hay = pre +:+ needle +:+ post.
Proof.
  induction hay as [|c hay IH].
  - cbn [contains]. rewrite orb_false_r, prefix_app. split.
    + intros [post Hpost]. by exists EmptyString, post.
    + intros ([|d pre] & post & Hpost); [by exists post | done].
  - cbn [contains]. rewrite orb_true_iff, IH, prefix_app. split.
    + intros [[post Hpost] | (pre & post & Hpost)].
      * by exists EmptyString, post.
      * exists (String c pre), post. simpl. by rewrite Hpost.
    + intros ([|d pre] & post & Hpost).
      * left. by exists post.
      * right. simpl in Hpost. injection Hpost as -> Hpost. by exists pre, post.
Qed.

Lemma existsb_none {A} (f : A → bool) (l : list A) :
  (∀ x, x ∈ l → f x = false) → existsb f l = false.
Proof.
  induction l as [|a l IH]; intros Hall; [done |]. simpl.
  rewrite (Hall a) by left. simpl. apply IH. intros x Hx. apply Hall. by right.
Qed.

Lemma add_edge_lookup (k v : string) (deps : gmap string (gset string)) :
  add_edge k v deps !! k = Some ({[v]} ∪ default ∅ (deps !! k)).
Proof. unfold add_edge. apply lookup_insert_eq. Qed.

Lemma add_edge_lookup_ne (k q v : string) (deps : gmap string (gset string)) :
  q ≠ k → add_edge k v deps !! q = deps !! q.
Proof. intros Hne. unfold add_edge. by apply lookup_insert_ne. Qed.

Section FoldEdges.

Variable canonicalized : string → string.
Variable p : string.

Lemma fold_edges_lookup (stack : list string) :
  ∀ deps : gmap string (gset string),
    default ∅ (foldl (λ d frame, add_edge p (canonicalized frame) d) deps stack !! p)
    = list_to_set (canonicalized <$> stack) ∪ default ∅ (deps !! p).
Proof.
  induction stack as [|frame stack IH]; intros deps; simpl.
  - by rewrite union_empty_l_L.
  - rewrite IH, add_edge_lookup. simpl.
    rewrite (assoc_L (∪)). f_equal. apply union_comm_L.
Qed.

Lemma fold_edges_lookup_ne (q : string) (stack : list string) :
  q ≠ p →
  ∀ deps : gmap string (gset string),
    foldl (λ d frame, add_edge p (canonicalized frame) d) deps stack !! q = deps !! q.
Proof.
  intros Hne. induction stack as [|frame stack IH]; intros deps; simpl; [done |].
  by rewrite IH, add_edge_lookup_ne.
Qed.

End FoldEdges.

(** C8. For an included file that passes the filter on /usr/ and matches
    no default argument, the visitor records the edge from the included
    file to every frame of the include stack, and the self-edge when the
    stack is empty; no other key of the dependency map changes. A
    translation unit that includes nothing is visited once, with an empty
    stack, and its dependency map is the singleton from the file to
    itself. *)
Theorem inclusionVisitor_records_edges
    (canonicalized : string → string) (defaultArgs : list string)
    (job : JobData) (cstr : string) (include_stack : list string) :
  String.prefix "/usr/" cstr = false ∨ String.prefix "/usr/home/" cstr = true →
  (∀ arg, arg ∈ defaultArgs → contains arg (canonicalized cstr) = false) →
  let p := canonicalized cstr in
  let job' := inclusionVisitor canonicalized defaultArgs job cstr include_stack in
  (∀ frame, frame ∈ include_stack →
     canonicalized frame ∈ default ∅ (mDependencies job' !! p))
  ∧ (include_stack = [] → p ∈ default ∅ (mDependencies job' !! p))
  ∧ (include_stack = [] → mDependencies job !! p = None →
     mDependencies job' !! p = Some {[p]})
  ∧ (∀ q, q ≠ p → mDependencies job' !! q = mDependencies job !! q)
  ∧ mDependencies
      (getInclusions canonicalized defaultArgs
         {| mIsPch := mIsPch job; mDependencies := ∅; mPchDependencies := ∅ |}
         [(cstr, [])])
    = {[p := {[p]}]}.
Proof.
  intros Hfilter Hargs p job'.
  assert (outside_usr cstr = true) as Hout.
  { rewrite outside_usr_prefix. destruct Hfilter as [-> | ->]; [done |].
    apply orb_true_r. }
  assert (existsb (λ arg, contains arg p) defaultArgs = false) as Hnone
    by (by apply existsb_none).
  unfold job', getInclusions, inclusionVisitor. simpl.
  rewrite Hout. fold p. rewrite Hnone. simpl.
  split; [| split; [| split; [| split]]].
  - intros frame Hin.
    destruct (decide (length include_stack = 0)) as [Hlen | Hlen].
    + destruct include_stack; [by apply elem_of_nil in Hin | done].
    + rewrite fold_edges_lookup. apply elem_of_union_l, elem_of_list_to_set.
      by apply list_elem_of_fmap_2.
  - intros ->. simpl. rewrite add_edge_lookup. simpl.
    by apply elem_of_union_l, elem_of_singleton_2.
  - intros -> Hfresh. simpl. rewrite add_edge_lookup, Hfresh. simpl.
    by rewrite union_empty_r_L.
  - intros q Hne.
    destruct (decide (length include_stack = 0)).
    + by rewrite add_edge_lookup_ne, fold_edges_lookup_ne.
    + by rewrite fold_edges_lookup_ne.
  - unfold add_edge. rewrite lookup_empty. simpl.
    by rewrite union_empty_r_L, insert_empty.
Qed.

Lemma inclusionVisitor_records_edges_witness :
  "/src/b.h" ∈ default ∅
      (mDependencies
         (inclusionVisitor (λ f, f) ["-I/opt/include"]
            {| mIsPch := false; mDependencies := ∅; mPchDependencies := ∅ |}
            "/src/a.h" ["/src/a.cpp"; "/src/b.h"]) !! "/src/a.h")
  ∧ mDependencies
      (getInclusions (λ f, f) ["-I/opt/include"]
         {| mIsPch := false; mDependencies := ∅; mPchDependencies := ∅ |}
         [("/src/a.h", [])])
    = {["/src/a.h" := {["/src/a.h"]}]}.
Proof.
  destruct (inclusionVisitor_records_edges (λ f, f) ["-I/opt/include"]
              {| mIsPch := false; mDependencies := ∅; mPchDependencies := ∅ |}
              "/src/a.h" ["/src/a.cpp"; "/src/b.h"])
    as (Hframes & _ & _ & _ & Hsingle).
  - left. reflexivity.
  - intros arg Harg. apply list_elem_of_singleton in Harg as ->. reflexivity.
  - split.
    + apply Hframes. right. left.
    + exact Hsingle.
Defined.

End ParseJobFacts.

(** ** Store facade *)

Module LevelDBFacts.
Import LevelDB.

Lemma Write_cons {V} (tbl : gmap string V) op batch :
  Write tbl (op :: batch) = Write (apply_op tbl op) batch.
Proof. reflexivity. Qed.

Lemma apply_op_lookup {V} (tbl : gmap string V) op :
  apply_op tbl op !! op_key op = effect (Some op) (tbl !! op_key op).
Proof.
  destruct op as [k v | k]; simpl; [apply lookup_insert_eq | apply lookup_delete_eq].
Qed.

Lemma apply_op_lookup_ne {V} (tbl : gmap string V) op k :
  op_key op ≠ k → apply_op tbl op !! k = tbl !! k.
Proof.
  destruct op as [k' v | k']; simpl; intros Hne;
    [by apply lookup_insert_ne | by apply lookup_delete_ne].
Qed.

Lemma omap_cons_step {A B} (g : A → option B) (x : A) (l : list A) :
  omap g (x :: l) = match g x with
                    | Some y => y :: omap g l
                    | None => omap g l
                    end.
Proof. reflexivity. Qed.

Section OwnKeys.

Context {V : Type}.

(** A sweep stages, for each entry, at most one operation, on the key of
    that entry. *)
Variable f : string → V → option (BatchOp V).
Hypothesis f_own_key : ∀ k v op, f k v = Some op → op_key op = k.

Lemma Write_own_keys (l : list (string * V)) :
  NoDup l.*1 →
  ∀ (tbl : gmap string V) (k : string),
    (∀ v, (k, v) ∈ l →
       Write tbl (omap (λ e, f e.1 e.2) l) !! k = effect (f k v) (tbl !! k))
    ∧ (k ∉ l.*1 → Write tbl (omap (λ e, f e.1 e.2) l) !! k = tbl !! k).
Proof.
  induction l as [|[k0 v0] l IH]; intros Hnodup tbl k.
  - split; [intros v Hin; by apply elem_of_nil in Hin | done].
  - rewrite fmap_cons in Hnodup. apply NoDup_cons in Hnodup as [Hfresh Hnodup].
    specialize (IH Hnodup). rewrite omap_cons_step. simpl fst; simpl snd.
    split.
    + intros v Hin. apply elem_of_cons in Hin as [Heq | Hin].
      * injection Heq as -> ->.
        destruct (f k0 v0) as [op|] eqn:Hop.
        -- rewrite Write_cons. destruct (IH (apply_op tbl op) k0) as [_ Hout].
           rewrite (Hout Hfresh), <- (f_own_key _ _ _ Hop). apply apply_op_lookup.
        -- destruct (IH tbl k0) as [_ Hout]. by rewrite (Hout Hfresh).
      * assert (k ≠ k0) as Hne.
        { intros ->. apply Hfresh. apply list_elem_of_fmap.
          by exists (k0, v). }
        destruct (f k0 v0) as [op|] eqn:Hop.
        -- rewrite Write_cons. destruct (IH (apply_op tbl op) k) as [Hin' _].
           rewrite (Hin' v Hin), apply_op_lookup_ne; [done |].
           by rewrite (f_own_key _ _ _ Hop).
        -- destruct (IH tbl k) as [Hin' _]. by rewrite (Hin' v Hin).
    + intros Hnotin. rewrite fmap_cons in Hnotin.
      apply not_elem_of_cons in Hnotin as [Hne Hnotin]. simpl in Hne.
      destruct (f k0 v0) as [op|] eqn:Hop.
      * rewrite Write_cons. destruct (IH (apply_op tbl op) k) as [_ Hout].
        rewrite (Hout Hnotin), apply_op_lookup_ne; [done |].
        by rewrite (f_own_key _ _ _ Hop).
      * destruct (IH tbl k) as [_ Hout]. by rewrite (Hout Hnotin).
Qed.

(** Writing the batch of a sweep over the table itself. *)
Lemma Write_sweep (tbl : gmap string V) (k : string) :
  Write tbl (omap (λ e, f e.1 e.2) (map_to_list tbl)) !! k
  = match tbl !! k with
    | Some v => effect (f k v) (Some v)
    | None => None
    end.
Proof.
  destruct (Write_own_keys (map_to_list tbl) (NoDup_fst_map_to_list tbl) tbl k)
    as [Hin Hnotin].
  destruct (tbl !! k) as [v|] eqn:Hk.
  - rewrite (Hin v); [done | by apply elem_of_map_to_list].
  - rewrite Hnotin; [done |].
    intros ([k' v] & -> & Hin')%list_elem_of_fmap.
    apply elem_of_map_to_list in Hin'. simpl in Hk. congruence.
Qed.

End OwnKeys.

End LevelDBFacts.

(** ** Dirty job *)

Module DirtyFacts.
Import RTags Rdm LevelDB Dirty LevelDBFacts.

Lemma dirty_result_clean (info : CursorInfo) (D : gset string) :
  info_clean D (Rdm.dirty info D).1.
Proof.
  unfold Rdm.dirty, info_clean. simpl. split.
  - intros t Ht. destruct (target info) as [t0|]; [| done].
    destruct (decide (path t0 ∈ D)); [done |]. by injection Ht as <-.
  - intros l Hl. by apply elem_of_filter in Hl as [? _].
Qed.

Lemma dirty_unchanged (info : CursorInfo) (D : gset string) :
  (Rdm.dirty info D).2 = false → (Rdm.dirty info D).1 = info.
Proof.
  unfold Rdm.dirty. simpl. intros Hsame.
  apply bool_decide_eq_false_1 in Hsame. by apply dec_stable in Hsame.
Qed.

Lemma dirty_changed (info : CursorInfo) (D : gset string) :
  (Rdm.dirty info D).2 = true ↔ (Rdm.dirty info D).1 ≠ info.
Proof. unfold Rdm.dirty. simpl. apply bool_decide_eq_true. Qed.

Lemma symbol_op_own_key (D : gset string) k v op :
  symbol_op D k v = Some op → op_key op = k.
Proof.
  unfold symbol_op. destruct (decide (key_path k ∈ D)); [by intros [= <-] |].
  destruct (Rdm.dirty v D) as [ci changed]. destruct changed; [| done].
  destruct (bool_decide (target ci = None) && bool_decide (references ci = ∅));
    by intros [= <-].
Qed.

Lemma name_op_own_key (D : gset string) k v op :
  name_op D k v = Some op → op_key op = k.
Proof.
  unfold name_op. repeat case_decide; [done | |]; by intros [= <-].
Qed.

Lemma sweep_symbols_step (D : gset string) k value rest batch writeBatch :
  symbols_loop D ((k, value) :: rest) batch writeBatch =
    if decide (lastIndexOf ","%char k = -1)%Z then AssertFail
    else match symbol_op D k value with
         | Some op => symbols_loop D rest (batch ++ [op]) true
         | None => symbols_loop D rest batch writeBatch
         end.
Proof.
  unfold symbol_op, key_path. simpl.
  destruct (decide (lastIndexOf ","%char k = -1)%Z); [done |].
  destruct (decide (substring 0 (Z.to_nat (lastIndexOf ","%char k)) k ∈ D)); [done |].
  destruct (bool_decide _); [| done].
  by destruct (bool_decide _ && bool_decide _).
Qed.

(** With well-formed keys the Symbol loop stages [symbol_op] of each
    entry, and sets [writeBatch] exactly when it stages something. *)
Lemma sweep_symbols_ops (D : gset string) entries :
  ∀ batch writeBatch,
    Forall (λ e, lastIndexOf ","%char e.1 ≠ (-1)%Z) entries →
    symbols_loop D entries batch writeBatch
    = Ok (batch ++ omap (λ e, symbol_op D e.1 e.2) entries,
          writeBatch || bool_decide (omap (λ e, symbol_op D e.1 e.2) entries ≠ [])).
Proof.
  induction entries as [|[k value] rest IH]; intros batch writeBatch Hall.
  - simpl. by rewrite app_nil_r, orb_false_r.
  - apply Forall_cons in Hall as [Hcomma Hall]. simpl in Hcomma.
    rewrite sweep_symbols_step, omap_cons_step. simpl fst; simpl snd.
    rewrite decide_False by done.
    destruct (symbol_op D k value) as [op|].
    + rewrite IH by done. rewrite <- app_assoc. simpl.
      by rewrite orb_true_r.
    + by rewrite IH.
Qed.

Lemma Write_if_nonempty {V} (tbl : gmap string V) (batch : list (BatchOp V)) :
  (if bool_decide (batch ≠ []) then Write tbl batch else tbl) = Write tbl batch.
Proof. destruct batch; [done |]. by rewrite bool_decide_eq_true_2. Qed.

Lemma sweepSymbols_lookup (D : gset string) (tbl : gmap string CursorInfo) :
  keys_wellformed tbl →
  ∃ tbl', sweepSymbols D tbl = Ok tbl'
    ∧ ∀ k, tbl' !! k = match tbl !! k with
                       | Some v => effect (symbol_op D k v) (Some v)
                       | None => None
                       end.
Proof.
  intros Hwf. unfold sweepSymbols.
  rewrite sweep_symbols_ops.
  - simpl. eexists. split; [reflexivity |]. intros k.
    rewrite Write_if_nonempty.
    apply (Write_sweep (symbol_op D) (symbol_op_own_key D)).
  - apply Forall_forall. intros [k v] Hin. simpl. apply Hwf.
    apply elem_of_map_to_list in Hin. by eexists.
Qed.

(** The inner loop removes from [locations] the dirty members of [todo],
    and reports a change exactly when it removed one. *)
Lemma erase_dirty_spec (D : gset string) (todo : list Location) :
  ∀ (locations : gset Location) (changed : bool),
    (∀ l, l ∈ (erase_dirty D todo locations changed).1
          ↔ l ∈ locations ∧ ¬ (l ∈ todo ∧ path l ∈ D))
    ∧ (erase_dirty D todo locations changed).2
      = changed || bool_decide (Exists (λ l, path l ∈ D) todo).
Proof.
  induction todo as [|i todo IH]; intros locations changed; cbn [erase_dirty].
  - split.
    + intros l. split; [intros Hl | tauto].
      split; [done |]. intros [Hin _]. by apply elem_of_nil in Hin.
    + rewrite bool_decide_eq_false_2; [by rewrite orb_false_r |].
      intros Hex. by apply Exists_nil in Hex.
  - destruct (decide (path i ∈ D)) as [Hdirty | Hclean].
    + destruct (IH (locations ∖ {[i]}) true) as [Hmem Hflag]. split.
      * intros l. rewrite Hmem, elem_of_difference, elem_of_singleton, elem_of_cons.
        split.
        -- intros [[Hl Hne] Hrest]. split; [done |].
           intros [[-> | Hin] Hd]; [done | by apply Hrest].
        -- intros [Hl Hrest]. split; [split; [done |] |].
           ++ intros ->. apply Hrest. split; [by left | done].
           ++ intros [Hin Hd]. apply Hrest. split; [by right | done].
      * rewrite Hflag. simpl. rewrite bool_decide_eq_true_2; [by rewrite orb_true_r |].
        apply Exists_cons. by left.
    + destruct (IH locations changed) as [Hmem Hflag]. split.
      * intros l. rewrite Hmem, elem_of_cons. split.
        -- intros [Hl Hrest]. split; [done |].
           intros [[-> | Hin] Hd]; [done | by apply Hrest].
        -- intros [Hl Hrest]. split; [done |].
           intros [Hin Hd]. apply Hrest. split; [by right | done].
      * rewrite Hflag. f_equal. apply bool_decide_ext.
        rewrite Exists_cons. split; [by right | by intros [? | ?]].
Qed.

Lemma erase_dirty_elements (D : gset string) (value : gset Location) :
  erase_dirty D (elements value) value false
  = (filter (λ l, path l ∉ D) value,
     bool_decide (filter (λ l, path l ∉ D) value ≠ value)).
Proof.
  destruct (erase_dirty_spec D (elements value) value false) as [Hmem Hflag].
  destruct (erase_dirty D (elements value) value false) as [r changed].
  simpl in Hmem, Hflag.
  assert (r = filter (λ l, path l ∉ D) value) as ->.
  { apply set_eq. intros l. rewrite Hmem, elem_of_filter, elem_of_elements.
    split.
    - intros [Hl Hrest]. split; [| done]. intros Hd. by apply Hrest.
    - intros [Hclean Hl]. split; [done |]. by intros [_ Hd]. }
  f_equal. rewrite Hflag. simpl. apply bool_decide_ext. split.
  - intros (l & Hin & Hd)%Exists_exists Heq. apply elem_of_elements in Hin.
    rewrite <- Heq in Hin. by apply elem_of_filter in Hin as [Hclean _].
  - intros Hne. apply dec_stable. intros Hnone. apply Hne.
    apply set_eq. intros l. rewrite elem_of_filter. split; [by intros [_ ?] |].
    intros Hl. split; [| done]. intros Hd. apply Hnone.
    apply Exists_exists. exists l. split; [by apply elem_of_elements | done].
Qed.

Lemma sweep_names_step (D : gset string) k value rest batch writeBatch :
  symbolNames_loop D ((k, value) :: rest) batch writeBatch =
    match name_op D k value with
    | Some op => symbolNames_loop D rest (batch ++ [op]) true
    | None => symbolNames_loop D rest batch writeBatch
    end.
Proof.
  unfold name_op. simpl. rewrite erase_dirty_elements.
  destruct (decide (filter (λ l, path l ∉ D) value = value)) as [Heq | Hne].
  - by rewrite bool_decide_eq_false_2 by auto.
  - rewrite bool_decide_eq_true_2 by done.
    destruct (decide (filter (λ l, path l ∉ D) value = ∅)) as [Hempty | Hsome].
    + by rewrite bool_decide_eq_true_2.
    + by rewrite bool_decide_eq_false_2.
Qed.

Lemma sweep_names_ops (D : gset string) entries :
  ∀ batch writeBatch,
    symbolNames_loop D entries batch writeBatch
    = (batch ++ omap (λ e, name_op D e.1 e.2) entries,
       writeBatch || bool_decide (omap (λ e, name_op D e.1 e.2) entries ≠ [])).
Proof.
  induction entries as [|[k value] rest IH]; intros batch writeBatch.
  - simpl. by rewrite app_nil_r, orb_false_r.
  - rewrite sweep_names_step, omap_cons_step. simpl fst; simpl snd.
    destruct (name_op D k value) as [op|].
    + rewrite IH. rewrite <- app_assoc. simpl. by rewrite orb_true_r.
    + by rewrite IH.
Qed.

Lemma sweepSymbolNames_lookup (D : gset string)
    (tbl : gmap string (gset Location)) (k : string) :
  sweepSymbolNames D tbl !! k
  = match tbl !! k with
    | Some v => effect (name_op D k v) (Some v)
    | None => None
    end.
Proof.
  unfold sweepSymbolNames. rewrite sweep_names_ops. simpl.
  rewrite Write_if_nonempty.
  apply (Write_sweep (name_op D) (name_op_own_key D)).
Qed.

(** C5. When both tables can be opened and every Symbol key has a comma,
    the sweep returns, and afterwards: no Symbol key has its path in the
    dirty set; every surviving CursorInfo is the cleaned form of the one
    stored before and has neither a target nor a reference in a dirty
    path; no SymbolName value holds a Location in a dirty path; a
    CursorInfo that the cleaning empties, and a non-empty location set all
    of whose members are dirty, are deleted. The other two tables are not
    touched. *)
Theorem dirty_sweep_removes_dirty_paths
    (opens : Database → bool) (D : gset string) (db : Store) :
  opens Symbol = true →
  opens SymbolName = true →
  keys_wellformed (symbols db) →
  ∃ db', dirty opens D db = Ok db'
    ∧ (∀ k info', symbols db' !! k = Some info' →
         (key_path k ∉ D) ∧ info_clean D info'
         ∧ ∃ info, symbols db !! k = Some info ∧ info' = (Rdm.dirty info D).1)
    ∧ (∀ k locs', symbolNames db' !! k = Some locs' →
         (∀ l, l ∈ locs' → path l ∉ D)
         ∧ ∃ locs, symbolNames db !! k = Some locs
                   ∧ locs' = filter (λ l, path l ∉ D) locs)
    ∧ (∀ k info, symbols db !! k = Some info →
         (Rdm.dirty info D).1 ≠ info →
         target (Rdm.dirty info D).1 = None →
         references (Rdm.dirty info D).1 = ∅ →
         symbols db' !! k = None)
    ∧ (∀ k locs, symbolNames db !! k = Some locs →
         locs ≠ ∅ → (∀ l, l ∈ locs → path l ∈ D) →
         symbolNames db' !! k = None)
    ∧ dependencies db' = dependencies db
    ∧ fileInformation db' = fileInformation db.
Proof.
  intros Hsym Hname Hwf. unfold dirty. rewrite Hsym, Hname.
  destruct (sweepSymbols_lookup D (symbols db) Hwf) as (syms' & -> & Hsyms).
  cbn [mbind result_bind rbind]. eexists. split; [reflexivity |].
  cbn [symbols symbolNames dependencies fileInformation].
  split; [| split; [| split; [| split; [| done]]]].
  - intros k info' Hk. rewrite Hsyms in Hk.
    destruct (symbols db !! k) as [info|] eqn:Hold; [| done].
    unfold symbol_op in Hk.
    destruct (decide (key_path k ∈ D)) as [Hd | Hclean]; [done |].
    split; [done |].
    pose proof (dirty_result_clean info D) as Hres.
    pose proof (dirty_unchanged info D) as Hsame.
    destruct (Rdm.dirty info D) as [ci changed] eqn:Hdirty.
    cbn [fst snd] in Hres, Hsame.
    destruct changed.
    + destruct (bool_decide (target ci = None) && bool_decide (references ci = ∅));
        [done |].
      cbn [effect] in Hk. injection Hk as <-. split; [done |].
      exists info. by rewrite Hdirty.
    + cbn [effect] in Hk. injection Hk as <-. specialize (Hsame eq_refl). subst ci.
      split; [done |]. exists info. by rewrite Hdirty.
  - intros k locs' Hk. rewrite sweepSymbolNames_lookup in Hk.
    destruct (symbolNames db !! k) as [locs|] eqn:Hold; [| done].
    unfold name_op in Hk.
    destruct (decide (filter (λ l, path l ∉ D) locs = locs)) as [Heq | Hne].
    + simpl in Hk. injection Hk as <-. split.
      * intros l Hl. rewrite <- Heq in Hl. by apply elem_of_filter in Hl as [? _].
      * by exists locs.
    + destruct (decide (filter (λ l, path l ∉ D) locs = ∅)); [done |].
      simpl in Hk. injection Hk as <-. split.
      * intros l Hl. by apply elem_of_filter in Hl as [? _].
      * by exists locs.
  - intros k info Hold Hchanged Htarget Hrefs. rewrite Hsyms, Hold.
    unfold symbol_op. destruct (decide (key_path k ∈ D)); [done |].
    apply dirty_changed in Hchanged.
    destruct (Rdm.dirty info D) as [ci changed]. simpl in *. subst changed.
    by rewrite (bool_decide_eq_true_2 _ Htarget), (bool_decide_eq_true_2 _ Hrefs).
  - intros k locs Hold Hsome Hall. rewrite sweepSymbolNames_lookup, Hold.
    unfold name_op.
    assert (filter (λ l, path l ∉ D) locs = ∅) as Hempty.
    { apply set_eq. intros l. rewrite elem_of_filter. split; [| by intros ?%elem_of_empty].
      intros [Hclean Hl]. destruct Hclean. by apply Hall. }
    rewrite Hempty. rewrite decide_False by done. by rewrite decide_True.
Qed.

Lemma dirty_sweep_removes_dirty_paths_witness :
  ∃ db', dirty (λ _, true) a_changed indexed_store = Ok db'
    ∧ symbols db' !! key loc_def = None
    ∧ symbolNames db' !! "foo" = None.
Proof.
  destruct (dirty_sweep_removes_dirty_paths (λ _, true) a_changed indexed_store)
    as (db' & Hrun & Hsyms & _ & _ & Hnames & _).
  - reflexivity.
  - reflexivity.
  - intros k [info Hk]. unfold indexed_store in Hk. simpl in Hk.
    apply lookup_insert_Some in Hk as [[<- _] | [_ Hk]]; [by vm_compute |].
    apply lookup_singleton_Some in Hk as [<- _]. by vm_compute.
  - exists db'. split; [exact Hrun |]. split.
    + destruct (symbols db' !! key loc_def) as [info|] eqn:Hk; [| done].
      destruct (Hsyms _ _ Hk) as [Hclean _]. destruct Hclean.
      vm_compute. reflexivity.
    + apply (Hnames "foo" {[loc_def]}).
      * unfold indexed_store. simpl. apply lookup_insert_eq.
      * apply non_empty_singleton_L.
      * intros l ->%elem_of_singleton. vm_compute. reflexivity.
Defined.

End DirtyFacts.

(** ** Watch registry *)

Module WatcherFacts.
Import Watcher.

(** A changed file with a dependency entry is handled as intended: the
    dependent unit is scheduled and the watch is re-armed in place. *)
Lemma onDirectoryChanged_known_file :
  ∃ job,
    onDirectoryChanged all_exist modified_at_2 base_name
      deps_of_b true info_of_b watch_b_only "/d/"
    = Ok ([("/d/", [("b.h", 2%Z)])], Some job, [])
    ∧ mDirty job = {["/d/b.h"; "/d/b.cpp"]}
    ∧ mToIndex job = {["/d/b.cpp" := ["-c"]]}.
Proof.
  eexists. split; [vm_compute; reflexivity |].
  split; vm_compute; reflexivity.
Qed.

(** An event for a directory that is not watched is logged and changes
    nothing (scenario S6). *)
Lemma onDirectoryChanged_unwatched :
  onDirectoryChanged all_exist modified_at_2 base_name
    deps_of_b true info_of_b watch_b_only "/tmp/unused/"
  = Ok (watch_b_only, None, [NotWatched "/tmp/unused/"]).
Proof. vm_compute. reflexivity. Qed.

(** The miss branch (lines 947-952), on a watch table that holds a file
    without a dependency entry; commitDependencies registers a watch only
    for a key of the dependency table, so such a table is given here, not
    produced by a run. Directory /d/ watches a.h and b.h, both
    changed on disk; b.h has a dependency entry, a.h has none. After the
    miss on a.h the handler advances [it], the iterator of the directory
    hash, not the iterator of the pairs. With /d/ the only directory, [it]
    is then end(): whichever of the two files comes first, the next
    it.value() is undefined, so b.h is not processed normally. With a
    second directory /e/ after /d/, the watch of a.h is re-armed in the
    set of /e/, and a DirtyJob whose dirty set holds a.h is started. *)
Theorem onDirectoryChanged_miss_advances_directory_iterator :
  onDirectoryChanged all_exist modified_at_2 base_name
    deps_of_b true info_of_b watch_a_then_b "/d/" = Undefined
  ∧ onDirectoryChanged all_exist modified_at_2 base_name
      deps_of_b true info_of_b watch_b_then_a "/d/" = Undefined
  ∧ ∃ job,
      onDirectoryChanged all_exist modified_at_2 base_name
        deps_of_b true info_of_b watch_two_directories "/d/"
      = Ok ([("/d/", []); ("/e/", [("x.h", 2%Z); ("a.h", 2%Z)])],
            Some job, [NotInDependencies "/d/a.h"])
      ∧ mDirty job = {["/d/a.h"]}
      ∧ mToIndex job = ∅ ∧ mToIndexPch job = ∅.
Proof.
  split; [vm_compute; reflexivity |]. split; [vm_compute; reflexivity |].
  eexists. split; [vm_compute; reflexivity |].
  repeat split; vm_compute; reflexivity.
Qed.

End WatcherFacts.

(** ** The keys the flusher writes are the keys the sweep expects *)

Module KeyFacts.
Import RTags Rdm LevelDB.

Lemma no_comma_app (a b : string) :
  no_comma (a +:+ b) = no_comma a && no_comma b.
Proof.
  induction a as [|c a IH]; simpl; [done |]. by rewrite IH, andb_assoc.
Qed.

Lemma no_comma_zeros (n : nat) : no_comma (zeros n) = true.
Proof. induction n as [|n IH]; simpl; [done | exact IH]. Qed.

Lemma no_comma_digits (u : Decimal.uint) :
  no_comma (NilEmpty.string_of_uint u) = true.
Proof. induction u as [|u IH|u IH|u IH|u IH|u IH|u IH|u IH|u IH|u IH|u IH]; simpl; done. Qed.

Lemma no_comma_decimal (u : Decimal.uint) :
  no_comma (NilZero.string_of_uint u) = true.
Proof.
  unfold NilZero.string_of_uint. destruct u; try apply no_comma_digits. done.
Qed.

Lemma lastIndexOf_from_app (a b : string) :
  ∀ i found,
    Dirty.lastIndexOf_from ","%char (a +:+ b) i found
    = Dirty.lastIndexOf_from ","%char b (i + Z.of_nat (String.length a))%Z
        (Dirty.lastIndexOf_from ","%char a i found).
Proof.
  induction a as [|c a IH]; intros i found; simpl.
  - f_equal. lia.
  - rewrite IH. f_equal. lia.
Qed.

Lemma lastIndexOf_from_no_comma (s : string) :
  ∀ i found, no_comma s = true → Dirty.lastIndexOf_from ","%char s i found = found.
Proof.
  induction s as [|c s IH]; intros i found Hfree; simpl in *; [done |].
  apply andb_true_iff in Hfree as [Hc Hs].
  apply negb_true_iff, bool_decide_eq_false in Hc.
  rewrite decide_False by done. by apply IH.
Qed.

Lemma substring_prefix (a b : string) :
  substring 0 (String.length a) (a +:+ b) = a.
Proof. induction a as [|c a IH]; simpl; [by destruct b | by rewrite IH]. Qed.

(** The last comma of a Symbol key is the one that ends its path. *)
Lemma lastIndexOf_key (l : Location) :
  Dirty.lastIndexOf ","%char (key l) = Z.of_nat (String.length (path l)).
Proof.
  unfold Dirty.lastIndexOf, key. rewrite lastIndexOf_from_app.
  change ("," +:+ ?t) with (String ","%char t). simpl.
  rewrite lastIndexOf_from_no_comma; [lia |].
  by rewrite no_comma_app, no_comma_zeros, no_comma_decimal.
Qed.

Lemma key_path_key (l : Location) : Dirty.key_path (key l) = path l.
Proof.
  unfold Dirty.key_path. rewrite lastIndexOf_key, Nat2Z.id.
  unfold key. apply substring_prefix.
Qed.

Lemma Write_is_Some {V} (batch : list (BatchOp V)) :
  ∀ (tbl : gmap string V) (k : string),
    is_Some (Write tbl batch !! k) →
    is_Some (tbl !! k) ∨ ∃ v, Put k v ∈ batch.
Proof.
  induction batch as [|op batch IH]; intros tbl k Hk; [by left |].
  apply IH in Hk as [Hk | [v Hv]].
  - destruct op as [k' v' | k']; simpl in Hk.
    + destruct (decide (k' = k)) as [-> | Hne].
      * right. exists v'. by left.
      * left. by rewrite lookup_insert_ne in Hk.
    + left. destruct (decide (k' = k)) as [-> | Hne].
      * rewrite lookup_delete_eq in Hk. by destruct Hk.
      * by rewrite lookup_delete_ne in Hk.
  - right. exists v. by right.
Qed.

(** Flushing symbols keeps every Symbol key well-formed for the sweep. *)
Lemma flushSymbols_keys_wellformed (buf : gmap Location CursorInfo)
    (tbl : gmap string CursorInfo) :
  Dirty.keys_wellformed tbl →
  Dirty.keys_wellformed (Syncer.flushSymbols buf tbl).
Proof.
  intros Hwf k Hk. unfold Syncer.flushSymbols in Hk.
  destruct (Syncer.symbols_loop tbl (map_to_list buf) [] false)
    as [batch changed] eqn:Hloop.
  destruct changed; [| by apply Hwf].
  apply Write_is_Some in Hk as [Hk | [v Hv]]; [by apply Hwf |].
  apply SyncerFacts.symbols_loop_staged in Hloop as (new & -> & _ & Hall).
  simpl in Hv. rewrite Forall_forall in Hall.
  destruct (Hall _ Hv) as (loc & added & merged & _ & Hop & _).
  injection Hop as -> _. rewrite lastIndexOf_key. lia.
Qed.

End KeyFacts.

(** ** Accumulator: merging what the producers add *)

Module AccumulatorFacts.
Import RTags Rdm LevelDB Syncer.

Section UniteSets.

Context {K A : Type} `{Countable K} `{Countable A}.

Lemma unite_entries_lookup (l : list (K * gset A)) :
  NoDup l.*1 →
  ∀ (buffer : gmap K (gset A)) (k : K),
    (∀ v, (k, v) ∈ l →
       foldl (λ m e, <[e.1 := default ∅ (m !! e.1) ∪ e.2]> m) buffer l !! k
       = Some (default ∅ (buffer !! k) ∪ v))
    ∧ (k ∉ l.*1 →
       foldl (λ m e, <[e.1 := default ∅ (m !! e.1) ∪ e.2]> m) buffer l !! k
       = buffer !! k).
Proof.
  induction l as [|[k0 v0] l IH]; intros Hnodup buffer k.
  - split; [intros v Hin; by apply elem_of_nil in Hin | done].
  - rewrite fmap_cons in Hnodup. apply NoDup_cons in Hnodup as [Hfresh Hnodup].
    specialize (IH Hnodup). cbn [foldl fst snd]. split.
    + intros v Hin. apply elem_of_cons in Hin as [Heq | Hin].
      * injection Heq as -> ->.
        destruct (IH (<[k0 := default ∅ (buffer !! k0) ∪ v0]> buffer) k0) as [_ Hout].
        rewrite (Hout Hfresh). apply lookup_insert_eq.
      * assert (k ≠ k0) as Hne.
        { intros ->. apply Hfresh. apply list_elem_of_fmap. by exists (k0, v). }
        destruct (IH (<[k0 := default ∅ (buffer !! k0) ∪ v0]> buffer) k) as [Hin' _].
        rewrite (Hin' v Hin). by rewrite lookup_insert_ne.
    + intros Hnotin. rewrite fmap_cons in Hnotin.
      apply not_elem_of_cons in Hnotin as [Hne Hnotin]. simpl in Hne.
      destruct (IH (<[k0 := default ∅ (buffer !! k0) ∪ v0]> buffer) k) as [_ Hout].
      rewrite (Hout Hnotin). by rewrite lookup_insert_ne.
Qed.

(** The merging loop is the key-wise union of the two hashes. *)
Lemma unite_sets_union_with (buffer added : gmap K (gset A)) :
  unite_sets buffer added = union_with (λ a b, Some (a ∪ b)) buffer added.
Proof.
  apply map_eq. intros k. rewrite lookup_union_with. unfold unite_sets.
  destruct (unite_entries_lookup (map_to_list added)
              (NoDup_fst_map_to_list added) buffer k) as [Hin Hout].
  destruct (added !! k) as [v|] eqn:Hk.
  - rewrite (Hin v) by (by apply elem_of_map_to_list).
    destruct (buffer !! k); simpl; [done | by rewrite union_empty_l_L].
  - rewrite Hout.
    + by destruct (buffer !! k).
    + intros ([k' v] & -> & Hin')%list_elem_of_fmap.
      apply elem_of_map_to_list in Hin'. simpl in Hk. congruence.
Qed.

Lemma union_with_empty_buffer (added : gmap K (gset A)) :
  union_with (λ a b, Some (a ∪ b)) (∅ : gmap K (gset A)) added = added.
Proof.
  apply map_eq. intros k. rewrite lookup_union_with, lookup_empty.
  by destruct (added !! k).
Qed.

Lemma union_with_sets_comm (m1 m2 : gmap K (gset A)) :
  union_with (λ a b, Some (a ∪ b)) m1 m2 = union_with (λ a b, Some (a ∪ b)) m2 m1.
Proof.
  apply map_eq. intros k. rewrite !lookup_union_with.
  destruct (m1 !! k), (m2 !! k); simpl; [| done | done | done].
  f_equal. apply union_comm_L.
Qed.

Lemma union_with_sets_assoc (m1 m2 m3 : gmap K (gset A)) :
  union_with (λ a b, Some (a ∪ b)) (union_with (λ a b, Some (a ∪ b)) m1 m2) m3
  = union_with (λ a b, Some (a ∪ b)) m1 (union_with (λ a b, Some (a ∪ b)) m2 m3).
Proof.
  apply map_eq. intros k. rewrite !lookup_union_with.
  destruct (m1 !! k), (m2 !! k), (m3 !! k); simpl; try done.
  f_equal. symmetry. apply (assoc_L (∪)).
Qed.

End UniteSets.

Lemma addSymbolNames_buffer (acc : IndexerSyncer)
    (locations : gmap string (gset Location)) :
  mSymbolNames (addSymbolNames acc locations)
  = union_with (λ a b, Some (a ∪ b)) (mSymbolNames acc) locations.
Proof.
  unfold addSymbolNames. cbn [mSymbolNames]. case_bool_decide as Hempty.
  - by rewrite Hempty, union_with_empty_buffer.
  - apply unite_sets_union_with.
Qed.

Lemma addDependencies_buffer (acc : IndexerSyncer)
    (dependencies : gmap string (gset string)) :
  mDependencies (addDependencies acc dependencies)
  = union_with (λ a b, Some (a ∪ b)) (mDependencies acc) dependencies.
Proof.
  unfold addDependencies. cbn [mDependencies]. case_bool_decide as Hempty.
  - by rewrite Hempty, union_with_empty_buffer.
  - apply unite_sets_union_with.
Qed.

(** X1. addSymbolNames and addDependencies merge by set union, key by key:
    a key of either side is a key afterwards, and its set is the union of
    what the buffer held and what was added (the copy taken when the buffer
    is empty is the same merge); nothing else in the accumulator changes. *)
Theorem add_merges_by_union (acc : IndexerSyncer)
    (locations : gmap string (gset Location))
    (dependencies : gmap string (gset string)) :
  (∀ k, mSymbolNames (addSymbolNames acc locations) !! k
        = union_with (λ a b, Some (a ∪ b)) (mSymbolNames acc !! k) (locations !! k))
  ∧ (∀ k, mDependencies (addDependencies acc dependencies) !! k
          = union_with (λ a b, Some (a ∪ b)) (mDependencies acc !! k)
                       (dependencies !! k))
  ∧ mSymbols (addSymbolNames acc locations) = mSymbols acc
  ∧ mDependencies (addSymbolNames acc locations) = mDependencies acc
  ∧ mInformations (addSymbolNames acc locations) = mInformations acc
  ∧ mSymbols (addDependencies acc dependencies) = mSymbols acc
  ∧ mSymbolNames (addDependencies acc dependencies) = mSymbolNames acc
  ∧ mInformations (addDependencies acc dependencies) = mInformations acc.
Proof.
  split; [| split; [| done]].
  - intros k. by rewrite addSymbolNames_buffer, lookup_union_with.
  - intros k. by rewrite addDependencies_buffer, lookup_union_with.
Qed.

Lemma accumulator_eq (a b : IndexerSyncer) :
  mStopped a = mStopped b → mSymbols a = mSymbols b →
  mSymbolNames a = mSymbolNames b → mDependencies a = mDependencies b →
  mInformations a = mInformations b → a = b.
Proof. destruct a, b. simpl. by intros -> -> -> -> ->. Qed.

(** X2. The order in which two producers add their symbol names, or their
    dependencies, does not matter, and a names delivery commutes with a
    dependency delivery. *)
Theorem add_order_irrelevant (acc : IndexerSyncer)
    (names1 names2 : gmap string (gset Location))
    (deps1 deps2 : gmap string (gset string)) :
  addSymbolNames (addSymbolNames acc names1) names2
  = addSymbolNames (addSymbolNames acc names2) names1
  ∧ addDependencies (addDependencies acc deps1) deps2
    = addDependencies (addDependencies acc deps2) deps1
  ∧ addDependencies (addSymbolNames acc names1) deps1
    = addSymbolNames (addDependencies acc deps1) names1.
Proof.
  split; [| split].
  - apply accumulator_eq; try done.
    rewrite !addSymbolNames_buffer, !union_with_sets_assoc.
    f_equal. apply union_with_sets_comm.
  - apply accumulator_eq; try done.
    rewrite !addDependencies_buffer, !union_with_sets_assoc.
    f_equal. apply union_with_sets_comm.
  - by apply accumulator_eq.
Qed.

End AccumulatorFacts.

(** ** Flusher: what a pass leaves in the store *)

Module FlushFacts.
Import RTags Rdm LevelDB Syncer SyncerOps LevelDBFacts.

Lemma merge_op_own_key {A} `{Countable A} (tbl : gmap string (gset A)) k v op :
  merge_op tbl k v = Some op → op_key op = k.
Proof. unfold merge_op. case_decide; [by intros [= <-] | done]. Qed.

Lemma flush_names_step (tbl : gmap string (gset Location)) k added rest batch changed :
  symbolNames_loop tbl ((k, added) :: rest) batch changed
  = match merge_op tbl k added with
    | Some op => symbolNames_loop tbl rest (batch ++ [op]) true
    | None => symbolNames_loop tbl rest batch changed
    end.
Proof.
  unfold merge_op. cbn [symbolNames_loop].
  assert (size (readValue ∅ tbl k) ≤ size (readValue ∅ tbl k ∪ added)) as Hle
    by (apply subseteq_size, union_subseteq_l).
  destruct (decide (size (readValue ∅ tbl k ∪ added) ≠ size (readValue ∅ tbl k)));
    [rewrite decide_True by lia | rewrite decide_False by lia]; done.
Qed.

Lemma flush_deps_step (tbl : gmap string (gset string)) k added rest batch changed :
  dependencies_loop tbl ((k, added) :: rest) batch changed
  = match merge_op tbl k added with
    | Some op => dependencies_loop tbl rest (batch ++ [op]) true
    | None => dependencies_loop tbl rest batch changed
    end.
Proof.
  unfold merge_op. cbn [dependencies_loop].
  by destruct (decide (size (readValue ∅ tbl k) < size (readValue ∅ tbl k ∪ added))).
Qed.

Lemma flush_names_ops (tbl : gmap string (gset Location)) entries :
  ∀ batch changed,
    symbolNames_loop tbl entries batch changed
    = (batch ++ omap (λ e, merge_op tbl e.1 e.2) entries,
       changed || bool_decide (omap (λ e, merge_op tbl e.1 e.2) entries ≠ [])).
Proof.
  induction entries as [|[k added] rest IH]; intros batch changed.
  - simpl. by rewrite app_nil_r, orb_false_r.
  - rewrite flush_names_step, omap_cons_step. cbn [fst snd].
    destruct (merge_op tbl k added) as [op|].
    + rewrite IH, <- app_assoc. simpl. by rewrite orb_true_r.
    + by rewrite IH.
Qed.

Lemma flush_deps_ops (tbl : gmap string (gset string)) entries :
  ∀ batch changed,
    dependencies_loop tbl entries batch changed
    = (batch ++ omap (λ e, merge_op tbl e.1 e.2) entries,
       changed || bool_decide (omap (λ e, merge_op tbl e.1 e.2) entries ≠ [])).
Proof.
  induction entries as [|[k added] rest IH]; intros batch changed.
  - simpl. by rewrite app_nil_r, orb_false_r.
  - rewrite flush_deps_step, omap_cons_step. cbn [fst snd].
    destruct (merge_op tbl k added) as [op|].
    + rewrite IH, <- app_assoc. simpl. by rewrite orb_true_r.
    + by rewrite IH.
Qed.

Lemma Write_when_nonempty {V} (tbl : gmap string V) (batch : list (BatchOp V)) :
  (if bool_decide (batch ≠ []) then Write tbl batch else tbl) = Write tbl batch.
Proof. destruct batch; [done |]. by rewrite bool_decide_eq_true_2. Qed.

Lemma flushSymbolNames_Write (buf tbl : gmap string (gset Location)) :
  flushSymbolNames buf tbl
  = Write tbl (omap (λ e, merge_op tbl e.1 e.2) (map_to_list buf)).
Proof.
  unfold flushSymbolNames. rewrite flush_names_ops. simpl.
  apply Write_when_nonempty.
Qed.

Lemma flushDependencies_Write (buf tbl : gmap string (gset string)) :
  flushDependencies buf tbl
  = Write tbl (omap (λ e, merge_op tbl e.1 e.2) (map_to_list buf)).
Proof.
  unfold flushDependencies. rewrite flush_deps_ops. simpl.
  apply Write_when_nonempty.
Qed.

Section MergeLookup.

Context {A : Type} `{Countable A}.

(** Writing the staged merges of a buffer: a buffered key holds the union
    afterwards if that is larger and is left alone otherwise. *)
Lemma Write_merge_lookup (buf tbl : gmap string (gset A)) (k : string) :
  Write tbl (omap (λ e, merge_op tbl e.1 e.2) (map_to_list buf)) !! k
  = match buf !! k with
    | Some added => effect (merge_op tbl k added) (tbl !! k)
    | None => tbl !! k
    end.
Proof.
  destruct (Write_own_keys (merge_op tbl) (merge_op_own_key tbl)
              (map_to_list buf) (NoDup_fst_map_to_list buf) tbl k) as [Hin Hout].
  destruct (buf !! k) as [added|] eqn:Hk.
  - apply Hin. by apply elem_of_map_to_list.
  - apply Hout. intros ([k' v] & -> & Hin')%list_elem_of_fmap.
    apply elem_of_map_to_list in Hin'. simpl in Hk. congruence.
Qed.

Lemma merge_effect_read (tbl : gmap string (gset A)) (k : string) (added : gset A) :
  default ∅ (effect (merge_op tbl k added) (tbl !! k))
  = readValue ∅ tbl k ∪ added.
Proof.
  unfold merge_op.
  destruct (decide (size (readValue ∅ tbl k) < size (readValue ∅ tbl k ∪ added)))
    as [Hgrew | Hsame]; [done |].
  cbn [effect]. fold (readValue ∅ tbl k).
  apply set_subseteq_size_eq; [apply union_subseteq_l |].
  assert (size (readValue ∅ tbl k) ≤ size (readValue ∅ tbl k ∪ added))
    by (apply subseteq_size, union_subseteq_l).
  lia.
Qed.

Lemma merge_effect_keeps (tbl : gmap string (gset A)) (k : string) (added : gset A) :
  is_Some (tbl !! k) → is_Some (effect (merge_op tbl k added) (tbl !! k)).
Proof. unfold merge_op. case_decide; [by eexists | done]. Qed.

End MergeLookup.

Lemma flushSymbolNames_read (names tbl : gmap string (gset Location)) (k : string) :
  readValue ∅ (flushSymbolNames names tbl) k
  = readValue ∅ tbl k ∪ default ∅ (names !! k).
Proof.
  rewrite flushSymbolNames_Write. unfold readValue at 1. rewrite Write_merge_lookup.
  destruct (names !! k) as [added|]; simpl.
  - apply merge_effect_read.
  - by rewrite union_empty_r_L.
Qed.

Lemma flushDependencies_read (deps tbl : gmap string (gset string)) (k : string) :
  readValue ∅ (flushDependencies deps tbl) k
  = readValue ∅ tbl k ∪ default ∅ (deps !! k).
Proof.
  rewrite flushDependencies_Write. unfold readValue at 1. rewrite Write_merge_lookup.
  destruct (deps !! k) as [added|]; simpl.
  - apply merge_effect_read.
  - by rewrite union_empty_r_L.
Qed.

(** X3. After the SymbolName or the Dependency stage of a flush, the set
    read under every key is the union of the set stored before and the set
    buffered for it: the size test of the loops misses no addition. Keys
    that are not buffered are untouched and no stored key disappears. *)
Theorem flush_stores_the_union
    (names tbl_names : gmap string (gset Location))
    (deps tbl_deps : gmap string (gset string)) (k : string) :
  readValue ∅ (flushSymbolNames names tbl_names) k
  = readValue ∅ tbl_names k ∪ default ∅ (names !! k)
  ∧ readValue ∅ (flushDependencies deps tbl_deps) k
    = readValue ∅ tbl_deps k ∪ default ∅ (deps !! k)
  ∧ (names !! k = None → flushSymbolNames names tbl_names !! k = tbl_names !! k)
  ∧ (deps !! k = None → flushDependencies deps tbl_deps !! k = tbl_deps !! k)
  ∧ (is_Some (tbl_names !! k) → is_Some (flushSymbolNames names tbl_names !! k))
  ∧ (is_Some (tbl_deps !! k) → is_Some (flushDependencies deps tbl_deps !! k)).
Proof.
  split; [apply flushSymbolNames_read |]. split; [apply flushDependencies_read |].
  rewrite flushSymbolNames_Write, flushDependencies_Write, !Write_merge_lookup.
  split; [| split; [| split]].
  - by intros ->.
  - by intros ->.
  - intros Hk. destruct (names !! k); [by apply merge_effect_keeps | done].
  - intros Hk. destruct (deps !! k); [by apply merge_effect_keeps | done].
Qed.

Lemma omap_all_Some {X Y} (g : X → Y) (l : list X) :
  omap (λ x, Some (g x)) l = map g l.
Proof. induction l as [|x l IH]; [done |]. rewrite omap_cons_step. by rewrite IH. Qed.

Lemma flushInformations_union (infos tbl : gmap string (list string)) :
  flushInformations infos tbl = infos ∪ tbl.
Proof.
  unfold flushInformations. rewrite SyncerFacts.informations_loop_app. simpl.
  apply map_eq. intros k.
  rewrite <- (omap_all_Some (λ e : string * list string, Put e.1 e.2)).
  destruct (Write_own_keys (λ k v, Some (Put k v))
              (λ k v op (Hop : Some (Put k v) = Some op),
                 match Hop in _ = o return
                   match o with Some op' => op_key op' = k | None => True end
                 with eq_refl => eq_refl end)
              (map_to_list infos) (NoDup_fst_map_to_list infos) tbl k)
    as [Hin Hout].
  rewrite lookup_union.
  destruct (infos !! k) as [args|] eqn:Hk.
  - rewrite (Hin args) by (by apply elem_of_map_to_list).
    by destruct (tbl !! k).
  - rewrite Hout.
    + by destruct (tbl !! k).
    + intros ([k' v] & -> & Hin')%list_elem_of_fmap.
      apply elem_of_map_to_list in Hin'. simpl in Hk. congruence.
Qed.

(** X4. The FileInformation stage writes every buffered argument list
    without reading the table: a buffered unit reads back exactly the
    arguments buffered for it, whatever was stored, and every other unit
    keeps what it had. Together with addFileInformation, the arguments of
    the last call for a unit are the ones stored. *)
Theorem flushInformations_overrides
    (acc : IndexerSyncer) (tbl : gmap string (list string))
    (input : string) (args : list string) (k : string) :
  (∀ stored, mInformations acc !! k = Some stored →
     flushInformations (mInformations acc) tbl !! k = Some stored)
  ∧ (mInformations acc !! k = None →
     flushInformations (mInformations acc) tbl !! k = tbl !! k)
  ∧ flushInformations (mInformations (addFileInformation acc input args)) tbl
    !! input = Some args.
Proof.
  rewrite !flushInformations_union. split; [| split].
  - intros stored Hk. by apply lookup_union_Some_l.
  - intros Hk. by apply lookup_union_r.
  - apply lookup_union_Some_l. cbn [addFileInformation mInformations].
    apply lookup_insert_eq.
Qed.

Lemma flushSymbolNames_empty (tbl : gmap string (gset Location)) :
  flushSymbolNames ∅ tbl = tbl.
Proof. unfold flushSymbolNames. by rewrite map_to_list_empty. Qed.

Lemma flushDependencies_empty (tbl : gmap string (gset string)) :
  flushDependencies ∅ tbl = tbl.
Proof. unfold flushDependencies. by rewrite map_to_list_empty. Qed.

Lemma flushInformations_empty (tbl : gmap string (list string)) :
  flushInformations ∅ tbl = tbl.
Proof. unfold flushInformations. by rewrite map_to_list_empty. Qed.

Lemma flush_all_open (opens : Database → bool) names syms deps infos db :
  (∀ t, opens t = true) →
  flush opens names syms deps infos db
  = (mkStore (if bool_decide (syms = ∅) then symbols db
              else flushSymbols syms (symbols db))
             (flushSymbolNames names (symbolNames db))
             (flushDependencies deps (dependencies db))
             (flushInformations infos (fileInformation db)), true).
Proof.
  intros Hopen. unfold flush. rewrite !Hopen, !andb_false_r.
  destruct db as [tsyms tnames tdeps tinfos]. cbn [symbols symbolNames dependencies
    fileInformation].
  repeat case_bool_decide; subst;
    rewrite ?flushSymbolNames_empty, ?flushDependencies_empty,
            ?flushInformations_empty; reflexivity.
Qed.

(** X5. When every table opens, one pass of a running flusher that has
    symbols or symbol names to flush loses nothing: each name and each
    dependency key reads as the union of what was stored and what was
    buffered, each buffered argument list is stored, the accumulator is
    left empty, and the next pass waits. *)
Theorem run_step_stores_everything
    (opens : Database → bool) (acc : IndexerSyncer) (db : Store) :
  mStopped acc = false →
  mSymbols acc ≠ ∅ ∨ mSymbolNames acc ≠ ∅ →
  (∀ t, opens t = true) →
  ∃ db', run_step opens acc db = Flushed (swapped_out acc) db'
    ∧ (∀ k, readValue ∅ (symbolNames db') k
            = readValue ∅ (symbolNames db) k ∪ default ∅ (mSymbolNames acc !! k))
    ∧ (∀ k, readValue ∅ (dependencies db') k
            = readValue ∅ (dependencies db) k ∪ default ∅ (mDependencies acc !! k))
    ∧ fileInformation db' = mInformations acc ∪ fileInformation db
    ∧ run_step opens (swapped_out acc) db' = Waiting (swapped_out acc) db'.
Proof.
  intros Hrunning Hdata Hopen.
  rewrite (SyncerFacts.run_step_flushing opens acc db Hrunning Hdata).
  rewrite (flush_all_open opens _ _ _ _ _ Hopen). cbn [fst snd].
  eexists. split; [reflexivity |].
  cbn [symbolNames dependencies fileInformation].
  split; [intros k; apply flushSymbolNames_read |].
  split; [intros k; apply flushDependencies_read |].
  split; [apply flushInformations_union |].
  apply SyncerFacts.run_step_waiting; [exact Hrunning | done].
Qed.

Lemma run_step_stores_everything_witness :
  ∃ db', run_step (λ _, true) pending_foo store_foo
         = Flushed (swapped_out pending_foo) db'
    ∧ readValue ∅ (symbolNames db') "foo" = {[loc_foo]}.
Proof.
  destruct (run_step_stores_everything (λ _, true) pending_foo store_foo)
    as (db' & Hstep & Hnames & _).
  - reflexivity.
  - right. apply map_non_empty_singleton.
  - reflexivity.
  - exists db'. split; [exact Hstep |]. rewrite Hnames.
    unfold readValue, store_foo, pending_foo. cbn [symbolNames mSymbolNames].
    rewrite !lookup_singleton_eq. simpl. apply union_idemp_L.
Defined.

End FlushFacts.

(** ** Coordinator: what holds in every reachable state *)

Module CoordinatorInvFacts.
Import Coordinator CoordinatorRuns.

Lemma alloc_id_free (fuel : nat) :
  ∀ last js id last',
    alloc_id fuel last js = Ok (id, last') →
    js !! id = None ∧ (last ≤ id)%Z ∧ last' = (id + 1)%Z.
Proof.
  induction fuel as [|fuel IH]; intros last js id last' Hrun; [done |].
  simpl in Hrun. unfold int_succ in Hrun.
  destruct (decide (last < INT_MAX)%Z); [| done]. simpl in Hrun.
  destruct (js !! last) eqn:Hlast.
  - apply IH in Hrun as (? & ? & ?). split; [done |]. split; [lia | done].
  - injection Hrun as <- <-. split; [done |]. split; [lia | done].
Qed.

Lemma alloc_id_first (fuel : nat) (last : Z) (js : gmap Z IndexerJob) :
  js !! last = None → (last < INT_MAX)%Z →
  alloc_id (S fuel) last js = Ok (last, (last + 1)%Z).
Proof.
  intros Hfree Hmax. simpl. unfold int_succ. rewrite decide_True by done.
  simpl. by rewrite Hfree.
Qed.

(** The shape of a successful index of a new input. *)
Lemma index_Ok (st : IndexerImpl) input arguments id st' evs :
  index st input arguments = Ok (id, st', evs) →
  (input ∈ indexing st ∧ id = (-1)%Z ∧ st' = st ∧ evs = [])
  ∨ ((input ∉ indexing st) ∧ jobs st !! id = None ∧ (lastJobId st ≤ id)%Z
     ∧ st' = {| jobCounter := jobCounter st;
                indexing := {[input]} ∪ indexing st;
                pchHeaderError := pchHeaderError st;
                path := path st;
                lastJobId := (id + 1)%Z;
                jobs := <[id := mkJob id (path st) input arguments]> (jobs st);
                timerRunning := true;
                defaultArgs := defaultArgs st |}
     ∧ evs = [Connect id] ++ (if timerRunning st then [] else [TimerStart])
             ++ [PoolStart (mkJob id (path st) input arguments)]).
Proof.
  unfold index. destruct (decide (input ∈ indexing st)) as [Hin | Hnotin].
  - intros [= <- <- <-]. by left.
  - destruct (alloc_id (S (size (jobs st))) (lastJobId st) (jobs st))
      as [[id0 last']| | |] eqn:Halloc; try done.
    apply alloc_id_free in Halloc as (Hfree & Hle & ->).
    simpl. intros [= <- <- <-]. right. done.
Qed.

(** The shape of a successful onJobDone. *)
Lemma onJobDone_Ok (st : IndexerImpl) id input st' evs :
  onJobDone st id input = Ok (st', evs) →
  jobs st' = delete id (jobs st)
  ∧ indexing st' = indexing st ∖ {[input]}
  ∧ lastJobId st' = lastJobId st
  ∧ jobCounter st' = (jobCounter st + 1)%Z
  ∧ pchHeaderError st' = pchHeaderError st
  ∧ (timerRunning st' = if bool_decide (delete id (jobs st) = ∅) then false
                        else timerRunning st).
Proof.
  unfold onJobDone, int_succ.
  destruct (decide (jobCounter st < INT_MAX)%Z); [| done]. simpl.
  destruct (bool_decide (delete id (jobs st) = ∅)) eqn:Hempty; simpl.
  - destruct (timerRunning st); [| done]. by intros [= <- <-].
  - destruct (bool_decide ((jobCounter st + 1)%Z = SYNCINTERVAL));
      by intros [= <- <-].
Qed.

Lemma inv_init (p : string) : Inv (init p).
Proof.
  split; simpl.
  - intros k job Hk. by rewrite lookup_empty in Hk.
  - intros input. split; [by intros ?%elem_of_empty |].
    intros (k & job & Hk & _). by rewrite lookup_empty in Hk.
  - intros k1 k2 j1 j2 Hk. by rewrite lookup_empty in Hk.
  - split; [done | by intros []].
  - done.
Qed.

Lemma inv_index (st : IndexerImpl) input arguments id st' evs :
  Inv st → index st input arguments = Ok (id, st', evs) → Inv st'.
Proof.
  intros [Hids Hidx Huniq Htimer Hlast] Hrun.
  apply index_Ok in Hrun as [(_ & _ & -> & _) | (Hnew & Hfree & Hle & -> & _)];
    [done |].
  split; simpl.
  - intros k job Hk. apply lookup_insert_Some in Hk as [[<- <-] | [Hne Hk]].
    + split; [lia | done].
    + destruct (Hids k job Hk) as [? ?]. split; [lia | done].
  - intros input'. rewrite elem_of_union, elem_of_singleton, Hidx. split.
    + intros [-> | (k & job & Hk & Hin)].
      * exists id, (mkJob id (path st) input arguments).
        split; [apply lookup_insert_eq | done].
      * exists k, job. split; [| done]. rewrite lookup_insert_ne; [done |].
        intros <-. congruence.
    + intros (k & job & Hk & Hin).
      apply lookup_insert_Some in Hk as [[<- <-] | [Hne Hk]]; [by left |].
      right. by exists k, job.
  - intros k1 k2 j1 j2 Hk1 Hk2 Hsame.
    apply lookup_insert_Some in Hk1 as [[<- <-] | [Hne1 Hk1]];
      apply lookup_insert_Some in Hk2 as [[<- <-] | [Hne2 Hk2]]; [done | | |].
    + destruct Hnew. apply Hidx. exists k2, j2. by split.
    + destruct Hnew. apply Hidx. exists k1, j1. by split.
    + by eapply Huniq.
  - split; [intros _; apply insert_non_empty | done].
  - lia.
Qed.

Lemma inv_done (st : IndexerImpl) id job st' evs :
  Inv st → jobs st !! id = Some job →
  onJobDone st id (mIn job) = Ok (st', evs) → Inv st'.
Proof.
  intros [Hids Hidx Huniq Htimer Hlast] Hjob Hrun.
  apply onJobDone_Ok in Hrun as (Hjobs & Hindexing & Hlast' & _ & _ & Htimer').
  split; rewrite ?Hjobs, ?Hindexing, ?Hlast'.
  - intros k job' Hk. apply lookup_delete_Some in Hk as [Hne Hk]. by apply Hids.
  - intros input. rewrite elem_of_difference, elem_of_singleton, Hidx. split.
    + intros [(k & job' & Hk & Hin) Hne]. exists k, job'. split; [| done].
      rewrite lookup_delete_ne; [done |]. intros <-. congruence.
    + intros (k & job' & Hk & Hin). apply lookup_delete_Some in Hk as [Hne Hk].
      split; [by exists k, job' |].
      intros ->. apply Hne. by eapply Huniq.
  - intros k1 k2 j1 j2 Hk1 Hk2.
    apply lookup_delete_Some in Hk1 as [_ Hk1].
    apply lookup_delete_Some in Hk2 as [_ Hk2]. by eapply Huniq.
  - rewrite Htimer'. case_bool_decide as Hempty.
    + split; [done | by intros []].
    + split; [done |]. intros _. apply Htimer. intros Hnone.
      rewrite Hnone in Hjob. by rewrite lookup_empty in Hjob.
  - done.
Qed.

Lemma reachable_inv (st : IndexerImpl) : Reachable st → Inv st.
Proof.
  induction 1 as [p | st input arguments id st' evs _ IH Hrun | st args _ IH
                  | st input pchError _ IH | st id job st' evs _ IH Hjob Hrun].
  - apply inv_init.
  - by eapply inv_index.
  - by destruct IH.
  - by destruct IH.
  - by eapply inv_done.
Qed.

(** X6. In every reachable state the ids of the registered jobs lie below
    lastJobId, so the do-while of index never repeats: a new input gets
    exactly the current lastJobId, and ids are handed out in the order of
    admission. *)
Theorem index_returns_lastJobId
    (st : IndexerImpl) (input : string) (arguments : list string) :
  Reachable st →
  input ∉ indexing st →
  (lastJobId st < INT_MAX)%Z →
  ∃ st' evs, index st input arguments = Ok (lastJobId st, st', evs)
             ∧ lastJobId st' = (lastJobId st + 1)%Z
             ∧ jobs st' !! lastJobId st
               = Some (mkJob (lastJobId st) (path st) input arguments).
Proof.
  intros Hreach Hnew Hmax. apply reachable_inv in Hreach as [Hids _ _ _ _].
  assert (jobs st !! lastJobId st = None) as Hfree.
  { destruct (jobs st !! lastJobId st) as [job|] eqn:Hk; [| done].
    destruct (Hids _ _ Hk) as [? _]. lia. }
  unfold index. rewrite decide_False by done.
  rewrite (alloc_id_first _ _ _ Hfree Hmax). simpl.
  do 2 eexists. split; [reflexivity |]. simpl. split; [done |].
  apply lookup_insert_eq.
Qed.

Lemma run_checked_reachable (calls : list Call) :
  ∀ st st', Reachable st → run_checked st calls = Some st' → Reachable st'.
Proof.
  induction calls as [|call calls IH]; intros st st' Hreach Hrun.
  - by injection Hrun as <-.
  - destruct call as [input arguments | input pchError | id input]; simpl in Hrun.
    + destruct (index st input arguments) as [[[id st1] evs]| | |] eqn:Hindex;
        try done.
      eapply IH; [| exact Hrun]. by eapply reach_index.
    + eapply IH; [| exact Hrun]. by apply reach_pch.
    + destruct (jobs st !! id) as [job|] eqn:Hjob; [| done].
      destruct (decide (mIn job = input)) as [<- | ?]; [| done].
      destruct (onJobDone st id (mIn job)) as [[st1 evs]| | |] eqn:Hdone; try done.
      eapply IH; [| exact Hrun]. by eapply reach_done.
Qed.

Lemma reachable_idle_after_one : Reachable idle_after_one.
Proof.
  apply (run_checked_reachable one_done (init "/tmp/")); [apply reach_init |].
  vm_compute. reflexivity.
Qed.

Lemma reachable_busy_after_nine : Reachable busy_after_nine.
Proof.
  apply (run_checked_reachable nine_done (init "/tmp/")); [apply reach_init |].
  vm_compute. reflexivity.
Qed.

Lemma index_returns_lastJobId_witness :
  ∃ st' evs, index idle_after_one "b.cpp" [] = Ok (1%Z, st', evs)
             ∧ lastJobId st' = 2%Z.
Proof.
  destruct (index_returns_lastJobId idle_after_one "b.cpp" [])
    as (st' & evs & Hrun & Hlast & _).
  - exact reachable_idle_after_one.
  - vm_compute. intros [=].
  - vm_compute. reflexivity.
  - exists st', evs. split; [exact Hrun | exact Hlast].
Defined.

(** X7. In every reachable state the indexing set is exactly the set of
    inputs of the registered jobs, every job is registered under its own
    id, no two registered jobs have the same input, and the wall timer is
    marked running exactly when some job is registered. *)
Theorem indexing_matches_registered_jobs (st : IndexerImpl) :
  Reachable st →
  (∀ input, input ∈ indexing st
            ↔ ∃ id job, jobs st !! id = Some job ∧ mIn job = input)
  ∧ (∀ id job, jobs st !! id = Some job → mId job = id)
  ∧ (∀ id1 id2 job1 job2,
       jobs st !! id1 = Some job1 → jobs st !! id2 = Some job2 →
       mIn job1 = mIn job2 → id1 = id2)
  ∧ (timerRunning st = true ↔ jobs st ≠ ∅).
Proof.
  intros [Hids Hidx Huniq Htimer _]%reachable_inv.
  split; [exact Hidx |]. split; [| split; [exact Huniq | exact Htimer]].
  intros id job Hjob. by destruct (Hids _ _ Hjob) as [_ ?].
Qed.

Lemma indexing_matches_registered_jobs_witness :
  "f9.cpp" ∈ indexing busy_after_nine
  ∧ mId (mkJob 9 "/tmp/" "f9.cpp" []) = 9%Z
  ∧ timerRunning busy_after_nine = true.
Proof.
  destruct (indexing_matches_registered_jobs busy_after_nine
              reachable_busy_after_nine) as (Hidx & Hid & _ & Htimer).
  assert (Hjob : jobs busy_after_nine !! 9%Z = Some (mkJob 9 "/tmp/" "f9.cpp" []))
    by (vm_compute; reflexivity).
  split; [| split].
  - apply Hidx. by exists 9%Z, (mkJob 9 "/tmp/" "f9.cpp" []).
  - by apply Hid.
  - apply Htimer. intros Hempty. rewrite Hempty in Hjob. by rewrite lookup_empty in Hjob.
Defined.

(** With the timer marked running and room in the counter, onJobDone
    goes through. *)
Lemma onJobDone_runs (st : IndexerImpl) (id : Z) (input : string) :
  timerRunning st = true →
  (jobCounter st < INT_MAX)%Z →
  ∃ st' evs, onJobDone st id input = Ok (st', evs)
             ∧ IndexingDone id ∈ evs
             ∧ (input ∈ indexing st → WakeAll ∈ evs).
Proof.
  intros Hrunning Hmax. unfold onJobDone, int_succ.
  rewrite (decide_True _ _ Hmax). simpl. rewrite Hrunning.
  assert (∀ woken : list Event, IndexingDone id ∈ woken ++ [IndexingDone id])
    as Hdone by (intros woken; apply elem_of_app; right; left).
  assert (∀ rest : list Event,
            input ∈ indexing st →
            WakeAll ∈ (if decide (input ∈ indexing st) then [WakeAll] else [])
                      ++ rest) as Hwake.
  { intros rest Hin. rewrite (decide_True _ _ Hin). left. }
  destruct (bool_decide (delete id (jobs st) = ∅)); simpl;
    [| destruct (bool_decide ((jobCounter st + 1)%Z = SYNCINTERVAL))];
    do 2 eexists; (split; [reflexivity |]); split; try apply Hwake; try apply Hdone.
  apply elem_of_app. right. right. right. left.
Qed.

(** X8. In every reachable state the completion of a registered job goes
    through as long as the job counter does not overflow: the assertion on
    the timer holds, the waiters on the PCH gate are woken, the input
    leaves the indexing set and the id leaves the job table. *)
Theorem onJobDone_of_registered_job
    (st : IndexerImpl) (id : Z) (job : IndexerJob) :
  Reachable st →
  jobs st !! id = Some job →
  (jobCounter st < INT_MAX)%Z →
  ∃ st' evs, onJobDone st id (mIn job) = Ok (st', evs)
             ∧ WakeAll ∈ evs
             ∧ IndexingDone id ∈ evs
             ∧ (mIn job ∉ indexing st')
             ∧ jobs st' !! id = None
             ∧ (timerRunning st' = true ↔ jobs st' ≠ ∅).
Proof.
  intros Hreach Hjob Hmax.
  pose proof (reachable_inv _ Hreach) as [Hids Hidx Huniq Htimer _].
  assert (timerRunning st = true) as Hrunning.
  { apply Htimer. intros Hempty. rewrite Hempty in Hjob.
    by rewrite lookup_empty in Hjob. }
  assert (mIn job ∈ indexing st) as Hin by (apply Hidx; by exists id, job).
  destruct (onJobDone_runs st id (mIn job) Hrunning Hmax)
    as (st' & evs & Hrun & Hdone & Hwake).
  exists st', evs. split; [done |].
  pose proof (reach_done _ _ _ _ _ Hreach Hjob Hrun) as Hreach'.
  apply reachable_inv in Hreach' as [_ _ _ Htimer' _].
  pose proof (onJobDone_Ok _ _ _ _ _ Hrun) as (Hjobs & Hindexing & _).
  split; [by apply Hwake |]. split; [done |]. split.
  - rewrite Hindexing. intros [_ Hne]%elem_of_difference.
    apply Hne. by apply elem_of_singleton.
  - split; [rewrite Hjobs; apply lookup_delete_eq | exact Htimer'].
Qed.

Lemma onJobDone_of_registered_job_witness :
  ∃ st' evs, onJobDone busy_after_nine 9 "f9.cpp" = Ok (st', evs)
             ∧ WakeAll ∈ evs ∧ jobs st' !! 9%Z = None.
Proof.
  destruct (onJobDone_of_registered_job busy_after_nine 9
              (mkJob 9 "/tmp/" "f9.cpp" []))
    as (st' & evs & Hrun & Hwake & _ & _ & Hgone & _).
  - exact reachable_busy_after_nine.
  - vm_compute. reflexivity.
  - vm_compute. reflexivity.
  - exists st', evs. done.
Defined.

(** X9. Submitting a new input and then completing that job brings the
    indexing set and the job table back to what they were; only the
    counters have moved on: the id is not handed out again. *)
Theorem index_then_done_restores
    (st st1 : IndexerImpl) (input : string) (arguments : list string)
    (id : Z) (evs1 : list Event) :
  input ∉ indexing st →
  index st input arguments = Ok (id, st1, evs1) →
  (jobCounter st < INT_MAX)%Z →
  ∃ st2 evs2, onJobDone st1 id input = Ok (st2, evs2)
              ∧ indexing st2 = indexing st
              ∧ jobs st2 = jobs st
              ∧ pchHeaderError st2 = pchHeaderError st
              ∧ lastJobId st2 = (id + 1)%Z
              ∧ (lastJobId st < lastJobId st2)%Z
              ∧ jobCounter st2 = (jobCounter st + 1)%Z.
Proof.
  intros Hnew Hrun Hmax.
  apply index_Ok in Hrun as [(Hin & _) | (_ & Hfree & Hle & -> & _)]; [done |].
  match goal with |- ∃ st2 evs2, onJobDone ?s ?i ?inp = _ ∧ _ =>
    destruct (onJobDone_runs s i inp) as (st2 & evs2 & Hdone & _); [done | done |]
  end.
  exists st2, evs2. split; [done |].
  apply onJobDone_Ok in Hdone as (Hjobs & Hindexing & Hlast & Hcount & Herr & _).
  simpl in *. rewrite Hjobs, Hindexing, Hlast, Hcount, Herr.
  split; [| split; [| split; [done | split; [done | split; [lia | done]]]]].
  - apply set_eq. intros x.
    rewrite elem_of_difference, elem_of_union, elem_of_singleton.
    split; [intros [[-> | ?] ?]; done |]. intros Hx. split; [by right |].
    by intros ->.
  - by rewrite delete_insert_eq, delete_id.
Qed.

Lemma index_then_done_restores_witness :
  ∃ st2 evs2, onJobDone
                {| jobCounter := 1; indexing := {["b.cpp"]}; pchHeaderError := ∅;
                   path := "/tmp/"; lastJobId := 2;
                   jobs := {[1%Z := mkJob 1 "/tmp/" "b.cpp" []]};
                   timerRunning := true; defaultArgs := [] |} 1 "b.cpp"
              = Ok (st2, evs2)
              ∧ jobs st2 = ∅.
Proof.
  destruct (index_then_done_restores idle_after_one
              {| jobCounter := 1; indexing := {["b.cpp"]}; pchHeaderError := ∅;
                 path := "/tmp/"; lastJobId := 2;
                 jobs := {[1%Z := mkJob 1 "/tmp/" "b.cpp" []]};
                 timerRunning := true; defaultArgs := [] |}
              "b.cpp" [] 1 [Connect 1; TimerStart;
                            PoolStart (mkJob 1 "/tmp/" "b.cpp" [])])
    as (st2 & evs2 & Hdone & _ & Hjobs & _).
  - vm_compute. intros [=].
  - vm_compute. reflexivity.
  - vm_compute. reflexivity.
  - exists st2, evs2. split; [exact Hdone | exact Hjobs].
Defined.

End CoordinatorInvFacts.

(** ** Directory events: detection of PCH units and quiet events *)

Module WatcherMoreFacts.
Import Watcher WatcherMore.

Lemma isPch_from_false_spec (args : list string) :
  isPch_from false args = true
  ↔ ∃ pre a post, args = pre ++ "-x" :: a :: post ∧ ("-x" ∉ pre)
                  ∧ (a = "c++-header" ∨ a = "c-header").
Proof.
  induction args as [|arg rest IH]; simpl.
  - split; [done |]. intros (pre & a & post & Heq & _). by destruct pre.
  - destruct (decide (arg = "-x")) as [-> | Hne].
    + destruct rest as [|a post]; simpl.
      * split; [done |]. intros ([|b pre] & a & post & Heq & Hpre & _).
        -- done.
        -- injection Heq as <- _. destruct Hpre. left.
      * rewrite orb_true_iff, !bool_decide_eq_true. split.
        -- intros Ha. exists [], a, post.
           split; [done |]. split; [apply not_elem_of_nil | done].
        -- intros ([|b pre] & a' & post' & Heq & Hpre & Ha).
           ++ by injection Heq as <- _.
           ++ injection Heq as <- _. destruct Hpre. left.
    + rewrite IH. split.
      * intros (pre & a & post & -> & Hpre & Ha). exists (arg :: pre), a, post.
        split; [done |]. split; [| done].
        apply not_elem_of_cons. by split.
      * intros ([|b pre] & a & post & Heq & Hpre & Ha).
        -- simpl in Heq. injection Heq as Harg _. by destruct Hne.
        -- injection Heq as <- ->. exists pre, a, post.
           split; [done |]. split; [| done].
           by apply not_elem_of_cons in Hpre as [_ ?].
Qed.

(** X10. isPch looks at the argument after the first -x only: it answers
    true exactly when that argument is c++-header or c-header. A later -x
    is never consulted, and a trailing -x without a value gives false. *)
Theorem isPch_first_x_decides (args : list string) :
  isPch args = true
  ↔ ∃ pre a post, args = pre ++ "-x" :: a :: post ∧ ("-x" ∉ pre)
                  ∧ (a = "c++-header" ∨ a = "c-header").
Proof. apply isPch_from_false_spec. Qed.

Lemma find_from_first (p : string) (pre post : list (string * list (string * Z)))
    (pairs : list (string * Z)) :
  ∀ i, p ∉ pre.*1 → find_from p (pre ++ (p, pairs) :: post) i = Some (i + length pre).
Proof.
  induction pre as [|entry pre IH]; intros i Hpre; simpl.
  - rewrite decide_True by done. f_equal. lia.
  - rewrite fmap_cons in Hpre. apply not_elem_of_cons in Hpre as [Hne Hpre].
    rewrite decide_False by done. rewrite IH by done. f_equal. lia.
Qed.

Section Quiet.

Variable file_exists : string → bool.
Variable lastModified : string → Z.
Variable fileName : string → string.

Lemma scan_unchanged deps db p home (todo : list (string * Z)) (s : Scan) :
  Forall (unchanged file_exists lastModified p) todo →
  scan file_exists lastModified deps db p home todo s = Ok s.
Proof.
  induction todo as [|wp todo IH]; intros Hall; [done |].
  apply Forall_cons in Hall as [[Hex Hmt] Hall]. simpl.
  rewrite Hex, (bool_decide_eq_true_2 _ Hmt). simpl. by apply IH.
Qed.

(** X11. An event for a watched directory none of whose files changed
    leaves the watch registry as it was and logs nothing, but still hands
    a DirtyJob to the thread pool: one with an empty dirty set and nothing
    to re-index. *)
Theorem onDirectoryChanged_nothing_changed
    (deps : gmap string (gset string)) (db : gmap string (list string))
    (pre post : list (string * list (string * Z)))
    (p : string) (pairs : list (string * Z)) :
  endsWith "/"%char p = true →
  p ∉ pre.*1 →
  Forall (unchanged file_exists lastModified p) pairs →
  onDirectoryChanged file_exists lastModified fileName deps true db
    (pre ++ (p, pairs) :: post) p
  = Ok (pre ++ (p, pairs) :: post, Some (mkDirtyJob ∅ ∅ ∅), []).
Proof.
  intros Hslash Hpre Hall. unfold onDirectoryChanged.
  rewrite Hslash, find_from_first by done.
  unfold value_at. simpl.
  rewrite (list_lookup_middle pre post (p, pairs) (length pre) eq_refl). simpl.
  by rewrite scan_unchanged.
Qed.

End Quiet.

Lemma onDirectoryChanged_nothing_changed_witness :
  onDirectoryChanged all_exist modified_at_2 base_name deps_of_b true info_of_b
    ([] ++ ("/e/", [("x.h", 2%Z)]) :: []) "/e/"
  = Ok ([] ++ ("/e/", [("x.h", 2%Z)]) :: [], Some (mkDirtyJob ∅ ∅ ∅), []).
Proof.
  apply (onDirectoryChanged_nothing_changed all_exist modified_at_2 base_name).
  - reflexivity.
  - intros Hin. by apply elem_of_nil in Hin.
  - apply Forall_cons. split; [by split | apply Forall_nil_2].
Defined.

End WatcherMoreFacts.

(** ** Parse job: more on the PCH gate *)

Module GateFacts.
Import Coordinator ParseJob.

Lemma extractPchFiles_from_elem (args : list string) :
  ∀ (nextIsPch : bool) (h : string),
    h ∈ extractPchFiles_from nextIsPch args → h ∈ args ∧ h ≠ EmptyString.
Proof.
  induction args as [|arg rest IH]; intros nextIsPch h Hin; simpl in Hin.
  - by apply elem_of_nil in Hin.
  - destruct (decide (arg = EmptyString)) as [-> | Hne].
    + apply IH in Hin as [? ?]. split; [by right | done].
    + destruct nextIsPch.
      * apply elem_of_cons in Hin as [-> | Hin]; [split; [left | done] |].
        apply IH in Hin as [? ?]. split; [by right | done].
      * destruct (decide (arg = "-include-pch"));
          apply IH in Hin as [? ?]; (split; [by right | done]).
Qed.

Lemma indexOf_from_found (h : string) (l : list string) :
  ∀ i, h ∈ l →
       (i ≤ indexOf_from h l i < i + Z.of_nat (length l))%Z
       ∧ l !! Z.to_nat (indexOf_from h l i - i) = Some h.
Proof.
  induction l as [|a l IH]; intros i Hin; [by apply elem_of_nil in Hin |].
  simpl. destruct (decide (a = h)) as [-> | Hne].
  - split; [lia |]. by rewrite Z.sub_diag.
  - apply elem_of_cons in Hin as [-> | Hin]; [done |].
    destruct (IH (i + 1)%Z Hin) as [Hrange Hlook]. split; [lia |].
    replace (Z.to_nat (indexOf_from h l (i + 1) - i))
      with (S (Z.to_nat (indexOf_from h l (i + 1) - (i + 1)))) by lia.
    done.
Qed.

(** X12. Every header extractPchFiles returns is a non-empty argument of
    the list it was extracted from, so on the unmodified argument list
    indexOf finds it: the index is in range and holds the header. The
    index is positive, as the assertion of the gate asks, exactly when the
    header is not also the first argument. *)
Theorem extracted_header_is_found (args : list string) (h : string) :
  h ∈ extractPchFiles args →
  h ≠ EmptyString
  ∧ (0 ≤ indexOf h args < Z.of_nat (length args))%Z
  ∧ args !! Z.to_nat (indexOf h args) = Some h
  ∧ ((indexOf h args > 0)%Z ↔ head args ≠ Some h).
Proof.
  intros Hin. apply extractPchFiles_from_elem in Hin as [Hin Hne].
  split; [done |]. unfold indexOf.
  destruct (indexOf_from_found h args 0 Hin) as [Hrange Hlook].
  split; [lia |]. split; [by rewrite Z.sub_0_r in Hlook |].
  destruct args as [|a rest]; [by apply elem_of_nil in Hin |].
  simpl. destruct (decide (a = h)) as [->|Hah].
  - split; [lia | done].
  - split; [intros _ [=]; done |]. intros _.
    apply elem_of_cons in Hin as [->|Hin]; [done |].
    destruct (indexOf_from_found h rest (0 + 1) Hin) as [Hr _]. lia.
Qed.

Lemma extracted_header_is_found_witness :
  (0 ≤ indexOf "b.h" two_pch_args < 5)%Z
  ∧ two_pch_args !! Z.to_nat (indexOf "b.h" two_pch_args) = Some "b.h"
  ∧ (indexOf "b.h" two_pch_args > 0)%Z.
Proof.
  destruct (extracted_header_is_found two_pch_args "b.h")
    as (_ & Hrange & Hlook & Hpos).
  - unfold two_pch_args, extractPchFiles. simpl. right. left.
  - split; [exact Hrange |]. split; [exact Hlook |]. apply Hpos. discriminate.
Defined.

Lemma pch_pass_no_failed (err idx : gset string) (headers : list string) :
  ∀ args,
    (∀ h, h ∈ headers → h ∉ err) →
    pch_pass err idx headers args
    = Ok (args, bool_decide (Exists (λ h, h ∈ idx) headers)).
Proof.
  induction headers as [|h0 headers IH]; intros args Hnone; cbn [pch_pass].
  - rewrite bool_decide_eq_false_2; [done |]. intros Hex. by apply Exists_nil in Hex.
  - rewrite decide_False by (apply Hnone; left).
    destruct (decide (h0 ∈ idx)) as [Hin | Hnotin].
    + rewrite bool_decide_eq_true_2; [done |]. apply Exists_cons. by left.
    + rewrite IH by (intros h Hh; apply Hnone; by right).
      do 2 f_equal. apply bool_decide_ext. rewrite Exists_cons.
      split; [by right | by intros [? | ?]].
Qed.

Lemma pch_loop_no_failed (snaps : list IndexerImpl) (headers args : list string) :
  (∀ s h, s ∈ snaps → h ∈ headers → h ∉ pchHeaderError s) →
  pch_loop snaps headers args
  = Ok (if bool_decide (Exists (λ s, Forall (λ h, h ∉ indexing s) headers) snaps)
        then Parses args else Blocked args).
Proof.
  induction snaps as [|s later IH]; intros Hnone; cbn [pch_loop].
  - rewrite bool_decide_eq_false_2; [done |]. intros Hex. by apply Exists_nil in Hex.
  - rewrite pch_pass_no_failed by (intros h Hh; apply (Hnone s h); [left | done]).
    cbn [mbind result_bind rbind].
    rewrite IH by (intros s' h Hs' Hh; apply (Hnone s' h); [by right | done]).
    destruct (decide (Exists (λ h, h ∈ indexing s) headers)) as [Hwait | Hfree].
    + rewrite (bool_decide_eq_true_2 _ Hwait). f_equal.
      apply Exists_exists in Hwait as (h & Hh & Hidx).
      rewrite (bool_decide_ext
                 (Exists (λ s0, Forall (λ h0, h0 ∉ indexing s0) headers) (s :: later))
                 (Exists (λ s0, Forall (λ h0, h0 ∉ indexing s0) headers) later));
        [done |].
      rewrite Exists_cons. split; [| by right].
      intros [Hall | ?]; [| done]. rewrite Forall_forall in Hall.
      by destruct (Hall h Hh).
    + rewrite (bool_decide_eq_false_2 _ Hfree).
      rewrite bool_decide_eq_true_2; [done |]. apply Exists_cons. left.
      apply Forall_forall. intros h Hh Hidx. apply Hfree.
      apply Exists_exists. by exists h.
Qed.

(** X13. When none of the headers a job names is marked in pchHeaderError
    at any time the job holds the mutex, the PCH gate never touches the
    arguments and no assertion is involved: the job parses with mArgs
    followed by the default arguments as soon as it finds none of the
    headers in indexing, and until then it waits with them unchanged. *)
Theorem pch_gate_keeps_args_without_failures
    (snaps : list IndexerImpl) (mArgs defaultArgs : list string) :
  (∀ s h, s ∈ snaps → h ∈ extractPchFiles (mArgs ++ defaultArgs) →
          h ∉ pchHeaderError s) →
  pch_gate snaps mArgs defaultArgs
  = Ok (if bool_decide
             (Exists (λ s, Forall (λ h, h ∉ indexing s)
                             (extractPchFiles (mArgs ++ defaultArgs))) snaps)
           || bool_decide (extractPchFiles (mArgs ++ defaultArgs) = [])
        then Parses (mArgs ++ defaultArgs)
        else Blocked (mArgs ++ defaultArgs)).
Proof.
  intros Hnone. unfold pch_gate.
  destruct (extractPchFiles (mArgs ++ defaultArgs)) as [|h0 headers] eqn:Hheaders.
  - by rewrite orb_true_r.
  - rewrite pch_loop_no_failed by done. by rewrite orb_false_r.
Qed.

Lemma pch_gate_keeps_args_without_failures_witness :
  pch_gate [init "/tmp/"] ["-include-pch"; "b.h"; "b.cpp"] []
  = Ok (Parses ["-include-pch"; "b.h"; "b.cpp"]).
Proof.
  rewrite (pch_gate_keeps_args_without_failures
             [init "/tmp/"] ["-include-pch"; "b.h"; "b.cpp"] []).
  - rewrite bool_decide_eq_true_2; [reflexivity |].
    apply Exists_cons. left. apply Forall_forall. intros h _.
    apply not_elem_of_empty.
  - intros s h Hs _. apply list_elem_of_singleton in Hs as ->.
    apply not_elem_of_empty.
Defined.

End GateFacts.

(** ** The clang command line of a parse job *)

Module ArgRewriteFacts.
Import ParseJob Watcher JobBody.

Section RewriteLoop.

Variable hash : string → string.
Variable path : string.






(** Arguments without "-x" leave the flags and [mIsPch] as they are,
    provided no PCH header name is pending. *)
Lemma rewrite_fold_no_x (args : list string) :
  "-x" ∉ args →
  ∀ r : Rewrite,
    nextIsX r = false →
    isPchUnit (foldl (rewrite_step hash path) r args) = isPchUnit r
    ∧ nextIsX (foldl (rewrite_step hash path) r args) = false
    ∧ ("-include-pch" ∉ args → nextIsPch r = false →
       nextIsPch (foldl (rewrite_step hash path) r args) = false).
Proof.
  induction args as [|arg rest IH]; intros Hx r Hr; simpl; [done |].
  apply not_elem_of_cons in Hx as [Hne Hx].
  assert (Hstep : isPchUnit (rewrite_step hash path r arg) = isPchUnit r
                  ∧ nextIsX (rewrite_step hash path r arg) = false
                  ∧ (arg ≠ "-include-pch" → nextIsPch r = false →
                     nextIsPch (rewrite_step hash path r arg) = false)).
  { unfold rewrite_step.
    destruct (decide (arg = EmptyString)); [done |].
    destruct (nextIsPch r) eqn:Hp; simpl; [done |].
    rewrite Hr. repeat split.
    - destruct (decide (arg = "-include-pch")); [done |].
      destruct (decide (arg = "-x")); [congruence | done].
    - intros Hi _. by rewrite bool_decide_eq_false_2. }
  destruct Hstep as (H1 & H2 & H3).
  destruct (IH Hx _ H2) as (I1 & I2 & I3).
  repeat split; [congruence | done |].
  intros Hi Hp. apply not_elem_of_cons in Hi as [Hi1 Hi2]. auto.
Qed.

Lemma isPch_from_no_x (args : list string) :
  "-x" ∉ args → isPch_from false args = false.
Proof.
  induction args as [|arg rest IH]; intros Hx; simpl; [done |].
  apply not_elem_of_cons in Hx as [Hne Hx].
  destruct (decide (arg = "-x")); [congruence | auto].
Qed.

Lemma isPch_from_app_no_x (pre rest : list string) :
  "-x" ∉ pre → isPch_from false (pre ++ rest) = isPch_from false rest.
Proof.
  induction pre as [|arg pre IH]; intros Hx; simpl; [done |].
  apply not_elem_of_cons in Hx as [Hne Hx].
  destruct (decide (arg = "-x")); [congruence | auto].
Qed.

(** X15. The parse job and the directory-change handler each decide
    whether a command line builds a PCH. On a command line with a single
    "-x", followed by a language that is neither empty nor "-x" and not
    preceded by "-include-pch", both take the language that follows "-x":
    the job's [mIsPch] equals [isPch] of the arguments. *)
Theorem rewrite_args_agrees_with_isPch (pre post : list string) (lang : string) :
  "-x" ∉ pre → "-include-pch" ∉ pre →
  lang ≠ EmptyString → lang ≠ "-x" →
  "-x" ∉ post →
  isPchUnit (rewrite_args hash path (pre ++ "-x" :: lang :: post))
  = isPch (pre ++ "-x" :: lang :: post)
  ∧ isPch (pre ++ "-x" :: lang :: post)
    = bool_decide (lang = "c++-header") || bool_decide (lang = "c-header").
Proof.
  intros Hpre Hinc Hlang Hx Hpost.
  assert (Hw : isPch (pre ++ "-x" :: lang :: post)
               = bool_decide (lang = "c++-header") || bool_decide (lang = "c-header")).
  { unfold isPch. by rewrite isPch_from_app_no_x. }
  split; [| done]. rewrite Hw.
  unfold rewrite_args. rewrite foldl_app.
  destruct (rewrite_fold_no_x pre Hpre (mkRewrite [] [] false false false) eq_refl)
    as (H1 & H2 & H3).
  specialize (H3 Hinc eq_refl).
  set (r := foldl (rewrite_step hash path) (mkRewrite [] [] false false false) pre) in *.
  cbn [foldl].
  set (r1 := rewrite_step hash path r "-x").
  assert (Hr1 : nextIsX r1 = true ∧ nextIsPch r1 = false).
  { unfold r1, rewrite_step. simpl. by rewrite H3. }
  destruct Hr1 as [Hx1 Hp1].
  set (r2 := rewrite_step hash path r1 lang).
  assert (Hr2 : isPchUnit r2
                = bool_decide (lang = "c++-header") || bool_decide (lang = "c-header")
                ∧ nextIsX r2 = false).
  { unfold r2, rewrite_step.
    destruct (decide (lang = EmptyString)); [done |].
    rewrite Hp1, Hx1. simpl. split; [done |].
    destruct (decide (lang = "-include-pch")); [done |].
    destruct (decide (lang = "-x")); [congruence | done]. }
  destruct Hr2 as [Hu2 Hx2].
  destruct (rewrite_fold_no_x post Hpost r2 Hx2) as (P1 & _ & _).
  by rewrite P1.
Qed.

End RewriteLoop.

Lemma rewrite_args_agrees_with_isPch_witness :
  isPchUnit (rewrite_args (λ h, h) "/cache/"
               (["-I."] ++ "-x" :: "c++-header" :: ["-DPCH"]))
  = isPch (["-I."] ++ "-x" :: "c++-header" :: ["-DPCH"])
  ∧ isPch (["-I."] ++ "-x" :: "c++-header" :: ["-DPCH"])
    = bool_decide ("c++-header" = "c++-header")
      || bool_decide ("c++-header" = "c-header").
Proof.
  apply (rewrite_args_agrees_with_isPch (λ h, h) "/cache/" ["-I."] ["-DPCH"]
           "c++-header").
  - intros H. apply list_elem_of_singleton in H. discriminate.
  - intros H. apply list_elem_of_singleton in H. discriminate.
  - discriminate.
  - discriminate.
  - intros H. apply list_elem_of_singleton in H. discriminate.
Defined.

End ArgRewriteFacts.

(** ** Dependencies recorded by a parse job *)

Module JobDependencyFacts.
Import ParseJob JobBody ParseJobFacts.

(** X16. The PCH dependency table gives back what was stored for a header,
    the empty set included, and leaves the other headers alone; storing an
    empty set removes the entry, so a table without empty entries stays
    so. *)
Theorem pchDependencies_round_trip
    (pchDeps : gmap string (gset string)) (pchHeader : string) (deps : gset string) :
  pchDependencies (setPchDependencies pchDeps pchHeader deps) pchHeader = deps
  ∧ (∀ other, other ≠ pchHeader →
       setPchDependencies pchDeps pchHeader deps !! other = pchDeps !! other)
  ∧ (deps = ∅ → setPchDependencies pchDeps pchHeader deps !! pchHeader = None)
  ∧ ((∀ h s, pchDeps !! h = Some s → s ≠ ∅) →
     ∀ h s, setPchDependencies pchDeps pchHeader deps !! h = Some s → s ≠ ∅).
Proof.
  unfold pchDependencies, setPchDependencies.
  case_bool_decide as He; repeat split.
  - by rewrite lookup_delete_eq.
  - intros other Hne. by rewrite lookup_delete_ne.
  - intros _. by rewrite lookup_delete_eq.
  - intros Hinv h s. destruct (decide (h = pchHeader)) as [->|Hne].
    + by rewrite lookup_delete_eq.
    + rewrite lookup_delete_ne by done. apply Hinv.
  - by rewrite lookup_insert_eq.
  - intros other Hne. by rewrite lookup_insert_ne.
  - done.
  - intros Hinv h s. destruct (decide (h = pchHeader)) as [->|Hne].
    + rewrite lookup_insert_eq. by intros [= <-].
    + rewrite lookup_insert_ne by done. apply Hinv.
Qed.

Lemma add_edge_elem (k v q x : string) (deps : gmap string (gset string)) :
  x ∈ default ∅ (add_edge k v deps !! q)
  ↔ x ∈ default ∅ (deps !! q) ∨ (q = k ∧ x = v).
Proof.
  destruct (decide (q = k)) as [->|Hne].
  - rewrite add_edge_lookup. simpl. rewrite elem_of_union, elem_of_singleton.
    tauto.
  - rewrite add_edge_lookup_ne by done. tauto.
Qed.

Lemma attribute_inner_elem (input q x : string) (l : list string) :
  ∀ deps : gmap string (gset string),
    x ∈ default ∅ (foldl (λ d' dep, add_edge dep input d') deps l !! q)
    ↔ x ∈ default ∅ (deps !! q) ∨ (q ∈ l ∧ x = input).
Proof.
  induction l as [|dep l IH]; intros deps; simpl.
  - split; [auto |]. intros [H|[H _]]; [done |]. by apply elem_of_nil in H.
  - rewrite IH, add_edge_elem, elem_of_cons.
    split; [intros [[H|[-> ->]]|[H ->]] | intros [H|[[->|H] ->]]]; auto.
Qed.

(** X17. After the inclusions, the job adds its input as a dependent of
    every file one of its PCH headers depends on, and adds nothing else:
    a file is recorded under a key exactly if it was there before, or it
    is the input and the key is a dependency of one of the headers. *)
Theorem attributePch_adds_input
    (pchDeps : gmap string (gset string)) (pchHeaders : list string)
    (input : string) (deps : gmap string (gset string)) (dep x : string) :
  x ∈ default ∅ (attributePch pchDeps pchHeaders input deps !! dep)
  ↔ x ∈ default ∅ (deps !! dep)
    ∨ (x = input
       ∧ Exists (λ h, dep ∈ pchDependencies pchDeps h) pchHeaders).
Proof.
  unfold attributePch. revert deps.
  induction pchHeaders as [|h hs IH]; intros deps; simpl.
  - rewrite Exists_nil. tauto.
  - rewrite IH, attribute_inner_elem, Exists_cons, elem_of_elements. tauto.
Qed.

Section Inclusions.

Variable canonicalized : string → string.
Variable defaultArgs : list string.

Lemma fold_edges_elem (p q x : string) (stack : list string) :
  ∀ deps : gmap string (gset string),
    x ∈ default ∅
          (foldl (λ d frame, add_edge p (canonicalized frame) d) deps stack !! q)
    ↔ x ∈ default ∅ (deps !! q) ∨ (q = p ∧ x ∈ canonicalized <$> stack).
Proof.
  induction stack as [|frame stack IH]; intros deps; simpl.
  - split; [auto |]. intros [H|[_ H]]; [done |]. by apply elem_of_nil in H.
  - rewrite IH, add_edge_elem, elem_of_cons.
    split; [intros [[H|[-> ->]]|[-> H]] | intros [H|[-> [->|H]]]]; auto.
Qed.

Lemma inclusionVisitor_elem (job : JobData) (cstr : string)
    (stack : list string) (q x : string) :
  x ∈ default ∅
        (mDependencies (inclusionVisitor canonicalized defaultArgs job cstr stack)
         !! q)
  ↔ x ∈ default ∅ (mDependencies job !! q)
    ∨ (recorded canonicalized defaultArgs cstr ∧ q = canonicalized cstr
       ∧ (x ∈ canonicalized <$> stack ∨ (stack = [] ∧ x = q))).
Proof.
  unfold inclusionVisitor, recorded.
  destruct (outside_usr cstr); [| intuition discriminate].
  destruct (existsb _ defaultArgs); [intuition discriminate |].
  cbn [mDependencies].
  destruct (decide (length stack = 0)) as [Hl|Hl].
  - apply length_zero_iff_nil in Hl as ->. simpl.
    rewrite add_edge_elem. split.
    + intros [H|[-> ->]]; [auto |]. right. auto.
    + intros [H|(_ & -> & [H|[_ ->]])]; [auto | | auto].
      by apply elem_of_nil in H.
  - rewrite fold_edges_elem. split.
    + intros [H|[-> H]]; [auto |]. right. auto.
    + intros [H|(_ & -> & [H|[-> _]])]; [auto | auto | done].
Qed.

Lemma inclusionVisitor_pch (job : JobData) (cstr : string)
    (stack : list string) (x : string) :
  mIsPch (inclusionVisitor canonicalized defaultArgs job cstr stack) = mIsPch job
  ∧ (x ∈ mPchDependencies
           (inclusionVisitor canonicalized defaultArgs job cstr stack)
     ↔ x ∈ mPchDependencies job
       ∨ (mIsPch job = true ∧ recorded canonicalized defaultArgs cstr ∧ x = canonicalized cstr)).
Proof.
  unfold inclusionVisitor, recorded.
  destruct (outside_usr cstr); [| intuition discriminate].
  destruct (existsb _ defaultArgs); [intuition discriminate |].
  cbn [mIsPch mPchDependencies]. split; [done |].
  destruct (mIsPch job).
  - rewrite elem_of_union, elem_of_singleton. tauto.
  - intuition discriminate.
Qed.

(** X18. What a whole traversal of the inclusions leaves in the job: a
    file is a dependent of a key exactly if it was one before, or some
    recorded inclusion has the key as its canonical name and the file as
    a frame of its stack (or as itself, when the stack is empty). The PCH
    flag is not changed, and the PCH dependencies of a PCH job gain
    exactly the canonical names of the recorded inclusions. *)
Theorem getInclusions_edges (inclusions : list (string * list string)) :
  ∀ (job : JobData) (q x : string),
    (x ∈ default ∅
           (mDependencies (getInclusions canonicalized defaultArgs job inclusions)
            !! q)
     ↔ x ∈ default ∅ (mDependencies job !! q)
       ∨ Exists (λ inc, recorded canonicalized defaultArgs inc.1 ∧ q = canonicalized inc.1
                        ∧ (x ∈ canonicalized <$> inc.2 ∨ (inc.2 = [] ∧ x = q)))
                inclusions)
    ∧ mIsPch (getInclusions canonicalized defaultArgs job inclusions) = mIsPch job
    ∧ (x ∈ mPchDependencies
             (getInclusions canonicalized defaultArgs job inclusions)
       ↔ x ∈ mPchDependencies job
         ∨ (mIsPch job = true
            ∧ Exists (λ inc, recorded canonicalized defaultArgs inc.1 ∧ x = canonicalized inc.1)
                     inclusions)).
Proof.
  unfold getInclusions.
  induction inclusions as [|[cstr stack] rest IH]; intros job q x; simpl.
  - rewrite !Exists_nil. tauto.
  - destruct (IH (inclusionVisitor canonicalized defaultArgs job cstr stack) q x)
      as (I1 & I2 & I3).
    destruct (inclusionVisitor_pch job cstr stack x) as [P1 P2].
    rewrite I1, I2, I3, P1, P2, inclusionVisitor_elem, !Exists_cons. simpl.
    tauto.
Qed.

End Inclusions.

End JobDependencyFacts.

(** ** Qualified names of a symbol *)

Module NameFacts.
Import RTags JobBody.

Lemma append_empty_r (s : string) : s +:+ EmptyString = s.
Proof.
  induction s as [|a s IH]; [done |].
  change (String a (s +:+ EmptyString) = String a s). by rewrite IH.
Qed.

Lemma scope_prepend_nonempty (parent q : string) :
  (parent +:+ "::") +:+ q ≠ EmptyString.
Proof. by destruct parent. Qed.

Lemma insert_name_elem (k key : string) (location l : Location)
    (names : gmap string (gset Location)) :
  l ∈ default ∅ (insert_name k location names !! key)
  ↔ l ∈ default ∅ (names !! key) ∨ (key = k ∧ l = location).
Proof.
  unfold insert_name. destruct (decide (key = k)) as [->|Hne].
  - rewrite lookup_insert_eq. simpl. rewrite elem_of_union, elem_of_singleton.
    tauto.
  - rewrite lookup_insert_ne by done. tauto.
Qed.

Lemma prefix_cons_cases {A} (pre : list A) (p : A) (rest : list A) :
  pre `prefix_of` p :: rest
  ↔ pre = [] ∨ ∃ pre', pre = p :: pre' ∧ pre' `prefix_of` rest.
Proof.
  split.
  - destruct pre as [|a pre]; [auto |]. intros H. right.
    pose proof (prefix_cons_inv_1 _ _ _ _ H) as ->.
    apply prefix_cons_inv_2 in H. eauto.
  - intros [->|(pre' & -> & H)]; [apply prefix_nil | by apply prefix_cons].
Qed.

Section Loop.

Variable location : Location.

(** The iterations after the first: both names are already non-empty. *)
Lemma addNamePermutations_from_parents (parents : list string) :
  Forall (λ p, p ≠ EmptyString) parents →
  ∀ (qparam qnoparam : string) (names : gmap string (gset Location)),
    qparam ≠ EmptyString → qnoparam ≠ EmptyString →
    ∃ names',
      addNamePermutations_from parents location qparam qnoparam names = Ok names'
      ∧ ∀ key l,
          l ∈ default ∅ (names' !! key)
          ↔ l ∈ default ∅ (names !! key)
            ∨ (l = location
               ∧ ∃ p pre, p :: pre `prefix_of` parents
                          ∧ (key = qualified (p :: pre) qparam
                             ∨ key = qualified (p :: pre) qnoparam)).
Proof.
  induction 1 as [|p rest Hp Hrest IH]; intros qparam qnoparam names Hq Hn.
  - exists names. split; [done |]. intros key l. split; [auto |].
    intros [H|(_ & p & pre & H & _)]; [done |]. by apply prefix_nil_not in H.
  - cbn [addNamePermutations_from].
    rewrite (decide_False (P := p = EmptyString)) by done.
    rewrite (decide_False (P := qparam = EmptyString)) by done.
    set (qp1 := (p +:+ "::") +:+ qparam).
    set (qn1 := (p +:+ "::") +:+ qnoparam).
    assert (Hqp1 : qp1 ≠ EmptyString) by apply scope_prepend_nonempty.
    assert (Hqn1 : qn1 ≠ EmptyString) by apply scope_prepend_nonempty.
    rewrite (decide_False (P := qp1 = EmptyString)) by done.
    assert (Hkeys : ∀ key l (names1 : gmap string (gset Location)),
               (∀ l', l' ∈ default ∅ (names1 !! key)
                      ↔ l' ∈ default ∅ (names !! key)
                        ∨ (l' = location ∧ (key = qp1 ∨ key = qn1))) →
               (l ∈ default ∅ (names1 !! key)
                ∨ (l = location
                   ∧ ∃ p' pre, p' :: pre `prefix_of` rest
                               ∧ (key = qualified (p' :: pre) qp1
                                  ∨ key = qualified (p' :: pre) qn1)))
               ↔ l ∈ default ∅ (names !! key)
                 ∨ (l = location
                    ∧ ∃ p' pre, p' :: pre `prefix_of` p :: rest
                                ∧ (key = qualified (p' :: pre) qparam
                                   ∨ key = qualified (p' :: pre) qnoparam))).
    { intros key l names1 H1. rewrite H1. split.
      - intros [[H|[-> H]]|[-> (p' & pre & Hpre & H)]]; [auto | |].
        + right. split; [done |]. exists p, []. split; [| done].
          apply prefix_cons, prefix_nil.
        + right. split; [done |]. exists p, (p' :: pre). split; [| done].
          by apply prefix_cons.
      - intros [H|[-> (p' & pre & Hpre & H)]]; [auto |].
        apply prefix_cons_cases in Hpre as [Hpre|(pre' & [= -> ->] & Hpre)];
          [done |].
        destruct pre' as [|p'' pre''].
        + left. right. done.
        + right. split; [done |]. by exists p'', pre''. }
    destruct (decide (qp1 = qn1)) as [Heq|Hneq].
    + destruct (IH qp1 qn1 (insert_name qp1 location names) Hqp1 Hqn1)
        as (names' & Hrun & Hchar).
      exists names'. split; [done |]. intros key l.
      rewrite Hchar. apply Hkeys. intros l'. rewrite insert_name_elem.
      rewrite <- Heq. tauto.
    + rewrite (decide_False (P := qn1 = EmptyString)) by done.
      destruct (IH qp1 qn1
                  (insert_name qn1 location (insert_name qp1 location names))
                  Hqp1 Hqn1) as (names' & Hrun & Hchar).
      exists names'. split; [done |]. intros key l.
      rewrite Hchar. apply Hkeys. intros l'. rewrite !insert_name_elem. tauto.
Qed.

(** X19. For a cursor with a display name that does not start with a
    parenthesis and parents that all have names, the permutation loop
    succeeds and files the location under the name of the cursor
    qualified by each leading part of its chain of parents, with and
    without the parameter list; it files the location under no other
    name and files no other location. *)
Theorem addNamePermutations_keys
    (name : string) (parents : list string)
    (names : gmap string (gset Location)) :
  name ≠ EmptyString → strip_params name ≠ EmptyString →
  Forall (λ p, p ≠ EmptyString) parents →
  ∃ names',
    addNamePermutations (name :: parents) location names = Ok names'
    ∧ ∀ key l,
        l ∈ default ∅ (names' !! key)
        ↔ l ∈ default ∅ (names !! key)
          ∨ (l = location
             ∧ ∃ pre, pre `prefix_of` parents
                      ∧ (key = qualified pre name
                         ∨ key = qualified pre (strip_params name))).
Proof.
  intros Hname Hstrip Hparents.
  unfold addNamePermutations. cbn [addNamePermutations_from].
  rewrite (decide_False (P := name = EmptyString)) by done.
  rewrite (decide_True (P := EmptyString = EmptyString)) by done.
  rewrite append_empty_r.
  rewrite (decide_False (P := name = EmptyString)) by done.
  assert (Hkeys : ∀ key l (names1 : gmap string (gset Location)),
             (∀ l', l' ∈ default ∅ (names1 !! key)
                    ↔ l' ∈ default ∅ (names !! key)
                      ∨ (l' = location
                         ∧ (key = name ∨ key = strip_params name))) →
             (l ∈ default ∅ (names1 !! key)
              ∨ (l = location
                 ∧ ∃ p pre, p :: pre `prefix_of` parents
                            ∧ (key = qualified (p :: pre) name
                               ∨ key = qualified (p :: pre) (strip_params name))))
             ↔ l ∈ default ∅ (names !! key)
               ∨ (l = location
                  ∧ ∃ pre, pre `prefix_of` parents
                           ∧ (key = qualified pre name
                              ∨ key = qualified pre (strip_params name)))).
  { intros key l names1 H1. rewrite H1. split.
    - intros [[H|[-> H]]|[-> (p & pre & Hpre & H)]]; [auto | |].
      + right. split; [done |]. exists []. split; [apply prefix_nil | done].
      + right. split; [done |]. by exists (p :: pre).
    - intros [H|[-> (pre & Hpre & H)]]; [auto |].
      destruct pre as [|p pre].
      + left. right. done.
      + right. split; [done |]. by exists p, pre. }
  destruct (decide (name = strip_params name)) as [Heq|Hneq].
  - destruct (addNamePermutations_from_parents parents Hparents
                name (strip_params name) (insert_name name location names)
                Hname Hstrip) as (names' & Hrun & Hchar).
    exists names'. split; [done |]. intros key l.
    rewrite Hchar. apply Hkeys. intros l'. rewrite insert_name_elem.
    rewrite <- Heq. tauto.
  - rewrite (decide_False (P := strip_params name = EmptyString)) by done.
    destruct (addNamePermutations_from_parents parents Hparents
                name (strip_params name)
                (insert_name (strip_params name) location
                   (insert_name name location names))
                Hname Hstrip) as (names' & Hrun & Hchar).
    exists names'. split; [done |]. intros key l.
    rewrite Hchar. apply Hkeys. intros l'. rewrite !insert_name_elem. tauto.
Qed.

Lemma addNamePermutations_from_stops (chain more : list string) :
  ∀ (qparam qnoparam : string) (names : gmap string (gset Location)),
    addNamePermutations_from (chain ++ EmptyString :: more) location
      qparam qnoparam names
    = addNamePermutations_from chain location qparam qnoparam names.
Proof.
  induction chain as [|qname chain IH]; intros qparam qnoparam names.
  - done.
  - cbn [app addNamePermutations_from].
    destruct (decide (qname = EmptyString)); [done |].
    destruct (if decide (qparam = EmptyString)
              then (qname +:+ qparam, strip_params (qname +:+ qnoparam))
              else ((qname +:+ "::") +:+ qparam, (qname +:+ "::") +:+ qnoparam))
      as [qp1 qn1].
    destruct (decide (qp1 = EmptyString)); [done |].
    destruct (decide (qp1 = qn1)); [apply IH |].
    destruct (decide (qn1 = EmptyString)); [done | apply IH].
Qed.

(** X20. The permutation loop stops at the first cursor of the chain
    without a display name: what lies beyond it has no effect. A display
    name that starts with a parenthesis has an empty name without
    parameters, and the loop then stops on its second assertion. *)
Theorem addNamePermutations_edges (names : gmap string (gset Location)) :
  (∀ chain more,
     addNamePermutations (chain ++ EmptyString :: more) location names
     = addNamePermutations chain location names)
  ∧ (∀ name parents,
       name ≠ EmptyString → strip_params name = EmptyString →
       addNamePermutations (name :: parents) location names = AssertFail).
Proof.
  split.
  - intros chain more. apply addNamePermutations_from_stops.
  - intros name parents Hname Hstrip.
    unfold addNamePermutations. cbn [addNamePermutations_from].
    rewrite (decide_False (P := name = EmptyString)) by done.
    rewrite (decide_True (P := EmptyString = EmptyString)) by done.
    rewrite append_empty_r, Hstrip.
    rewrite (decide_False (P := name = EmptyString)) by done.
    rewrite (decide_False (P := name = EmptyString)) by done.
    by rewrite (decide_True (P := EmptyString = EmptyString)).
Qed.

End Loop.

Lemma addNamePermutations_keys_witness :
  ∃ names',
    addNamePermutations ("f(int)" :: ["C"; "ns"]) (mkLocation "/src/a.cpp" 10) ∅
    = Ok names'
    ∧ ∀ key l,
        l ∈ default ∅ (names' !! key)
        ↔ l ∈ default ∅ ((∅ : gmap string (gset Location)) !! key)
          ∨ (l = mkLocation "/src/a.cpp" 10
             ∧ ∃ pre, pre `prefix_of` ["C"; "ns"]
                      ∧ (key = qualified pre "f(int)"
                         ∨ key = qualified pre (strip_params "f(int)"))).
Proof.
  apply (addNamePermutations_keys (mkLocation "/src/a.cpp" 10)
           "f(int)" ["C"; "ns"] ∅).
  - discriminate.
  - intros H. vm_compute in H. discriminate.
  - repeat constructor; discriminate.
Defined.

End NameFacts.

(** ** References, pruning and file markers of a parse job *)

Module SymbolTableFacts.
Import RTags Rdm JobBody NameFacts.

Lemma info_grows_refl (ci : CursorInfo) : info_grows ci ci.
Proof. by repeat split. Qed.

Lemma info_grows_trans (a b c : CursorInfo) :
  info_grows a b → info_grows b c → info_grows a c.
Proof.
  intros (A1 & A2 & A3 & A4) (B1 & B2 & B3 & B4). repeat split.
  - by transitivity (references b).
  - congruence.
  - congruence.
  - auto.
Qed.

Lemma grows_refl (m : gmap Location CursorInfo) : grows m m.
Proof. intros l ci H. exists ci. split; [done | apply info_grows_refl]. Qed.

Lemma grows_trans (a b c : gmap Location CursorInfo) :
  grows a b → grows b c → grows a c.
Proof.
  intros Hab Hbc l ci H.
  destruct (Hab l ci H) as (ci1 & H1 & G1).
  destruct (Hbc l ci1 H1) as (ci2 & H2 & G2).
  exists ci2. split; [done |]. by apply info_grows_trans with ci1.
Qed.

Lemma grows_alter (f : CursorInfo → CursorInfo) (k : Location)
    (m : gmap Location CursorInfo) :
  (∀ ci, m !! k = Some ci → info_grows ci (f ci)) → grows m (alter f k m).
Proof.
  intros Hf l ci H. destruct (decide (l = k)) as [->|Hne].
  - exists (f ci). rewrite lookup_alter_eq, H. split; [done | by apply Hf].
  - exists ci. rewrite lookup_alter_ne by done. split; [done |].
    apply info_grows_refl.
Qed.

Lemma grows_insert_fresh (k : Location) (ci : CursorInfo)
    (m : gmap Location CursorInfo) :
  m !! k = None → grows m (<[k := ci]> m).
Proof.
  intros Hk l ci' H. exists ci'. split; [| apply info_grows_refl].
  rewrite lookup_insert_ne; [done |]. intros ->. congruence.
Qed.

Lemma info_grows_with_references (ci : CursorInfo) (refs : gset Location) :
  references ci ⊆ refs → info_grows ci (with_references ci refs).
Proof. intros H. by repeat split. Qed.

Lemma info_grows_with_target (ci : CursorInfo) (t : Location) :
  info_grows ci (with_target ci t).
Proof. repeat split; simpl; [done | by eexists]. Qed.

Lemma resolve_step_grows (m : gmap Location CursorInfo)
    (entry : Location * (Location * bool)) :
  grows m (resolve_step m entry).
Proof.
  destruct entry as [key [tgt member]]. unfold resolve_step. simpl.
  destruct (m !! tgt) as [ci|] eqn:Htgt; [| apply grows_refl].
  destruct member.
  - set (m0 := match m !! key with
               | Some _ => m
               | None => <[key := empty_info]> m
               end).
    assert (G0 : grows m m0).
    { unfold m0. destruct (m !! key) eqn:Hk;
        [apply grows_refl | by apply grows_insert_fresh]. }
    set (m1 := alter _ tgt m0).
    assert (G1 : grows m0 m1).
    { apply grows_alter. intros c _. apply info_grows_with_references.
      apply union_subseteq_l. }
    set (m2 := alter _ key m1).
    assert (G2 : grows m1 m2).
    { apply grows_alter. intros c Hc. apply info_grows_with_references.
      destruct (decide (key = tgt)) as [->|Hne].
      - by rewrite Hc.
      - unfold m1 in *.
        rewrite lookup_alter_ne in Hc by (intros E; by apply Hne).
        rewrite lookup_alter_eq, Hc.
        destruct (G0 tgt ci Htgt) as (c0 & -> & _). simpl.
        apply union_subseteq_r. }
    assert (G : grows m m2).
    { apply grows_trans with m0; [done |]. by apply grows_trans with m1. }
    destruct (target (default empty_info (m2 !! key))); [done |].
    apply grows_trans with m2; [done |].
    apply grows_alter. intros c _. apply info_grows_with_target.
  - apply grows_alter. intros c _. apply info_grows_with_references.
    apply union_subseteq_r.
Qed.

Lemma resolve_fold_grows (es : list (Location * (Location * bool))) :
  ∀ m, grows m (foldl resolve_step m es).
Proof.
  induction es as [|e es IH]; intros m; simpl; [apply grows_refl |].
  apply grows_trans with (resolve_step m e); [apply resolve_step_grows | apply IH].
Qed.

Lemma resolve_step_plain (m : gmap Location CursorInfo)
    (key tgt : Location) (ci : CursorInfo) :
  m !! tgt = Some ci →
  ∃ ci', resolve_step m (key, (tgt, false)) !! tgt = Some ci'
         ∧ key ∈ references ci'.
Proof.
  intros Htgt. unfold resolve_step. simpl. rewrite Htgt.
  rewrite lookup_alter_eq, Htgt. simpl. eexists. split; [done |].
  simpl. apply elem_of_union_l. by apply elem_of_singleton.
Qed.

Lemma resolve_step_member (m : gmap Location CursorInfo)
    (key tgt : Location) (ci : CursorInfo) :
  m !! tgt = Some ci →
  ∃ ci' other',
    resolve_step m (key, (tgt, true)) !! tgt = Some ci'
    ∧ resolve_step m (key, (tgt, true)) !! key = Some other'
    ∧ references ci'
      = references ci ∪ references (default empty_info (m !! key))
    ∧ references other' = references ci'
    ∧ (target (default empty_info (m !! key)) = None → target ci' = Some key).
Proof.
  intros Htgt. unfold resolve_step. simpl. rewrite Htgt.
  set (o := default empty_info (m !! key)).
  set (m0 := match m !! key with
             | Some _ => m
             | None => <[key := empty_info]> m
             end).
  assert (H0k : m0 !! key = Some o).
  { unfold m0, o. destruct (m !! key) eqn:Hk; [done |].
    by rewrite lookup_insert_eq. }
  rewrite H0k. simpl.
  set (f1 := λ c : CursorInfo,
               with_references c (references c ∪ references o)).
  set (m1 := alter f1 tgt m0).
  destruct (decide (key = tgt)) as [Heq|Hne].
  - subst tgt.
    assert (Ho : o = ci) by (unfold o; by rewrite Htgt).
    assert (H1 : m1 !! key = Some (f1 ci)).
    { unfold m1. by rewrite lookup_alter_eq, H0k, Ho. }
    rewrite H1. simpl.
    set (f2 := λ other : CursorInfo,
                 with_references other
                   (references ci ∪ references o)).
    set (m2 := alter f2 key m1).
    assert (H2 : m2 !! key = Some (f2 (f1 ci))).
    { unfold m2. by rewrite lookup_alter_eq, H1. }
    rewrite H2. simpl.
    destruct (target ci) eqn:Ht.
    + rewrite H2. exists (f2 (f1 ci)), (f2 (f1 ci)).
      repeat split; simpl. rewrite Ho, Ht. done.
    + rewrite lookup_alter_eq, H2. simpl.
      eexists _, _. repeat split; simpl; done.
  - assert (H0t : m0 !! tgt = Some ci).
    { unfold m0. destruct (m !! key) eqn:Hk; [done |].
      by rewrite lookup_insert_ne. }
    assert (H1t : m1 !! tgt = Some (f1 ci)).
    { unfold m1. by rewrite lookup_alter_eq, H0t. }
    assert (H1k : m1 !! key = Some o).
    { unfold m1. rewrite lookup_alter_ne; [done |]. intros E. by apply Hne. }
    rewrite H1t. simpl.
    set (f2 := λ other : CursorInfo,
                 with_references other
                   (references ci ∪ references o)).
    set (m2 := alter f2 key m1).
    assert (H2k : m2 !! key = Some (f2 o)).
    { unfold m2. by rewrite lookup_alter_eq, H1k. }
    assert (H2t : m2 !! tgt = Some (f1 ci)).
    { unfold m2. by rewrite lookup_alter_ne. }
    rewrite H2k. simpl.
    destruct (target o) eqn:Ht.
    + rewrite H2k, H2t. eexists _, _. repeat split; simpl; done.
    + rewrite lookup_alter_eq, H2t.
      rewrite lookup_alter_ne by (intros E; by apply Hne).
      rewrite H2k. simpl.
      eexists _, _. repeat split; simpl; done.
Qed.

(** X21. Resolving the references of a job only grows the symbol table:
    every symbol stays, with its kind and length, at least the references
    it had and a target if it had one. A plain reference to a known
    symbol ends among the references of that symbol. A member reference
    to a known symbol makes the referring location a symbol too, and each
    of the two ends with the references the other had. *)
Theorem resolveReferences_records
    (mReferences : gmap Location (Location * bool))
    (mSymbols : gmap Location CursorInfo) :
  grows mSymbols (resolveReferences mReferences mSymbols)
  ∧ (∀ key tgt, mReferences !! key = Some (tgt, false) →
       is_Some (mSymbols !! tgt) →
       ∃ ci', resolveReferences mReferences mSymbols !! tgt = Some ci'
              ∧ key ∈ references ci')
  ∧ (∀ key tgt ci, mReferences !! key = Some (tgt, true) →
       mSymbols !! tgt = Some ci →
       ∃ ci' other',
         resolveReferences mReferences mSymbols !! tgt = Some ci'
         ∧ resolveReferences mReferences mSymbols !! key = Some other'
         ∧ references ci ⊆ references other'
         ∧ references (default empty_info (mSymbols !! key)) ⊆ references ci').
Proof.
  unfold resolveReferences. split; [apply resolve_fold_grows |]. split.
  - intros key tgt Href [ci Htgt].
    apply elem_of_map_to_list in Href.
    apply list_elem_of_split in Href as (es1 & es2 & ->).
    rewrite foldl_app. cbn [foldl].
    destruct (resolve_fold_grows es1 mSymbols tgt ci Htgt) as (c1 & H1 & _).
    destruct (resolve_step_plain _ key tgt c1 H1) as (c2 & H2 & Hin).
    destruct (resolve_fold_grows es2 _ tgt c2 H2) as (c3 & H3 & G3 & _).
    exists c3. split; [done |]. by apply G3.
  - intros key tgt ci Href Htgt.
    apply elem_of_map_to_list in Href.
    apply list_elem_of_split in Href as (es1 & es2 & ->).
    rewrite foldl_app. cbn [foldl].
    set (m1 := foldl resolve_step mSymbols es1).
    destruct (resolve_fold_grows es1 mSymbols tgt ci Htgt) as (c1 & H1 & G1 & _).
    destruct (resolve_step_member m1 key tgt c1 H1)
      as (c2 & o2 & H2 & K2 & R2 & S2 & _).
    destruct (resolve_fold_grows es2 _ tgt c2 H2) as (c3 & H3 & G3 & _).
    destruct (resolve_fold_grows es2 _ key o2 K2) as (o3 & K3 & L3 & _).
    exists c3, o3. repeat split; [done | done | |].
    + transitivity (references c1); [done |].
      transitivity (references o2); [| done].
      rewrite S2, R2. apply union_subseteq_l.
    + transitivity (references c2); [| done]. rewrite R2.
      transitivity (references (default empty_info (m1 !! key)));
        [| apply union_subseteq_r].
      destruct (mSymbols !! key) as [o|] eqn:Hk; simpl; [| apply empty_subseteq].
      destruct (resolve_fold_grows es1 mSymbols key o Hk) as (o1 & Ho1 & Go1 & _).
      fold m1 in Ho1. by rewrite Ho1.
Qed.

Lemma prune_fold_lookup (es : list (Location * CursorInfo)) (l : Location)
    (info : CursorInfo) :
  ∀ m : gmap Location CursorInfo,
    foldl (λ m e, if bool_decide (target e.2 = None)
                     && bool_decide (references e.2 = ∅)
                  then delete e.1 m else m) m es !! l = Some info
    ↔ m !! l = Some info ∧ ∀ ci, (l, ci) ∈ es → ¬ prunable ci.
Proof.
  induction es as [|[k c] es IH]; intros m; simpl.
  - split; [| tauto]. intros H. split; [done |]. intros ci Hin.
    by apply elem_of_nil in Hin.
  - rewrite IH. unfold prunable.
    destruct (bool_decide (target c = None) && bool_decide (references c = ∅))
      eqn:Hp.
    + apply andb_true_iff in Hp as [Hp1 Hp2].
      apply bool_decide_eq_true in Hp1, Hp2.
      destruct (decide (l = k)) as [->|Hne].
      * rewrite lookup_delete_eq. split; [intros [H _]; done |].
        intros [_ H]. exfalso. apply (H c); [apply list_elem_of_here | done].
      * rewrite lookup_delete_ne by (intros E; by apply Hne).
        split; intros [H1 H2]; (split; [done |]); intros ci Hin.
        -- apply elem_of_cons in Hin as [[= -> ->]|Hin]; [done | auto].
        -- apply H2. by apply list_elem_of_further.
    + apply andb_false_iff in Hp.
      split; intros [H1 H2]; (split; [done |]); intros ci Hin.
      * apply elem_of_cons in Hin as [[= -> ->]|Hin]; [| auto].
        intros [T R]. destruct Hp as [Hp|Hp];
          apply bool_decide_eq_false in Hp; done.
      * apply H2. by apply list_elem_of_further.
Qed.

Lemma prune_lookup (m : gmap Location CursorInfo) (l : Location)
    (info : CursorInfo) :
  prune m !! l = Some info ↔ m !! l = Some info ∧ ¬ prunable info.
Proof.
  unfold prune. rewrite prune_fold_lookup. split; intros [H1 H2]; (split; [done |]).
  - apply H2. by apply elem_of_map_to_list.
  - intros ci Hin. apply elem_of_map_to_list in Hin. congruence.
Qed.

(** X22. The pruning loop drops exactly the symbols that have neither
    target nor references and changes no other. After the references
    were resolved, the symbol a plain reference points to is therefore
    kept, with that reference, and so is every symbol that had a target
    or a reference before. *)
Theorem prune_keeps_referenced
    (mReferences : gmap Location (Location * bool))
    (mSymbols : gmap Location CursorInfo) :
  (∀ l info, prune mSymbols !! l = Some info
             ↔ mSymbols !! l = Some info ∧ ¬ prunable info)
  ∧ (∀ key tgt, mReferences !! key = Some (tgt, false) →
       is_Some (mSymbols !! tgt) →
       ∃ info, prune (resolveReferences mReferences mSymbols) !! tgt = Some info
               ∧ key ∈ references info)
  ∧ (∀ l ci, mSymbols !! l = Some ci → ¬ prunable ci →
       ∃ info, prune (resolveReferences mReferences mSymbols) !! l = Some info
               ∧ info_grows ci info).
Proof.
  split; [apply prune_lookup |]. split.
  - intros key tgt Href [ci Htgt]. unfold resolveReferences.
    apply elem_of_map_to_list in Href.
    apply list_elem_of_split in Href as (es1 & es2 & Hes). rewrite Hes.
    rewrite foldl_app. cbn [foldl].
    destruct (resolve_fold_grows es1 mSymbols tgt ci Htgt) as (c1 & H1 & _).
    destruct (resolve_step_plain _ key tgt c1 H1) as (c2 & H2 & Hin).
    destruct (resolve_fold_grows es2 _ tgt c2 H2) as (c3 & H3 & G3 & _).
    exists c3. split; [| by apply G3].
    apply prune_lookup. split; [done |]. intros [_ Hempty].
    apply G3 in Hin. rewrite Hempty in Hin. by apply elem_of_empty in Hin.
  - intros l ci Hl Hkeep.
    destruct (resolve_fold_grows (map_to_list mReferences) mSymbols l ci Hl)
      as (c1 & H1 & G1).
    exists c1. split; [| done].
    apply prune_lookup. split; [done |]. intros [Ht Hr]. apply Hkeep.
    destruct G1 as (Gr & _ & _ & Gt). split.
    + destruct (target ci) eqn:E; [| done].
      destruct Gt as [t Ht']; [by eexists | congruence].
    + apply set_eq. intros x. split; [| intros Hx; by apply elem_of_empty in Hx].
      intros Hx. apply Gr in Hx. by rewrite Hr in Hx.
Qed.

Section MarkerLoop.

Variable fileName : string → string.

Lemma markers_fold_elem (paths : list string) (key : string) (l : Location) :
  ∀ names : gmap string (gset Location),
    l ∈ default ∅
          (foldl (λ m path,
                    insert_name (fileName path) (mkLocation path 1)
                      (insert_name path (mkLocation path 1) m))
                 names paths !! key)
    ↔ l ∈ default ∅ (names !! key)
      ∨ ∃ path, path ∈ paths ∧ l = mkLocation path 1
                ∧ (key = path ∨ key = fileName path).
Proof.
  induction paths as [|p paths IH]; intros names; simpl.
  - split; [auto |]. intros [H|(path & H & _)]; [done |].
    by apply elem_of_nil in H.
  - rewrite IH, !insert_name_elem. split.
    + intros [[[H|[-> ->]]|[-> ->]]|(path & Hin & Hl & Hk)].
      * auto.
      * right. exists p. split; [apply list_elem_of_here | auto].
      * right. exists p. split; [apply list_elem_of_here | auto].
      * right. exists path. split; [by apply list_elem_of_further | auto].
    + intros [H|(path & Hin & -> & Hk)]; [auto |].
      apply elem_of_cons in Hin as [->|Hin].
      * left. destruct Hk as [->| ->]; auto.
      * right. by exists path.
Qed.

(** X23. The loop over the files a job saw files a marker, the location at
    offset 1 of the file, under the path of each file and under its file
    name; it files nothing else and removes nothing. *)
Theorem addFileMarkers_marks (mPaths : gset string)
    (mSymbolNames : gmap string (gset Location)) (key : string) (l : Location) :
  l ∈ default ∅ (addFileMarkers fileName mPaths mSymbolNames !! key)
  ↔ l ∈ default ∅ (mSymbolNames !! key)
    ∨ ∃ path, path ∈ mPaths ∧ l = mkLocation path 1
              ∧ (key = path ∨ key = fileName path).
Proof.
  unfold addFileMarkers. rewrite markers_fold_elem.
  split; (intros [H|(path & Hin & H)]; [auto |]); right; exists path;
    (split; [| done]); by apply elem_of_elements.
Qed.

End MarkerLoop.

End SymbolTableFacts.

(** ** Committing the dependencies of a job *)

Module CommitFacts.
Import Commit.

Lemma merge_step_elem
    (acc : gmap string (gset string) * gmap string (gset string))
    (entry : string * gset string) (k x : string) :
  (x ∈ default ∅ ((merge_step acc entry).1 !! k)
   ↔ x ∈ default ∅ (acc.1 !! k) ∨ (k = entry.1 ∧ x ∈ entry.2))
  ∧ (x ∈ default ∅ ((merge_step acc entry).2 !! k)
     ↔ x ∈ default ∅ (acc.2 !! k)
       ∨ (k = entry.1 ∧ x ∈ entry.2 ∧ x ∉ default ∅ (acc.1 !! k)))
  ∧ (is_Some ((merge_step acc entry).2 !! k)
     ↔ is_Some (acc.2 !! k) ∨ k = entry.1).
Proof.
  destruct acc as [D N], entry as [k0 v0]. unfold merge_step. simpl.
  destruct (decide (k = k0)) as [->|Hne].
  - rewrite !lookup_insert_eq. simpl.
    rewrite !elem_of_union, elem_of_difference. repeat split.
    + tauto.
    + tauto.
    + tauto.
    + tauto.
    + intros _. by right.
    + intros _. by eexists.
  - rewrite !lookup_insert_ne by (intros E; by apply Hne). tauto.
Qed.

Lemma merge_fold_elem (es : list (string * gset string)) (k x : string) :
  ∀ acc : gmap string (gset string) * gmap string (gset string),
    (x ∈ default ∅ ((foldl merge_step acc es).1 !! k)
     ↔ x ∈ default ∅ (acc.1 !! k) ∨ ∃ v, (k, v) ∈ es ∧ x ∈ v)
    ∧ (x ∈ default ∅ ((foldl merge_step acc es).2 !! k)
       ↔ x ∈ default ∅ (acc.2 !! k)
         ∨ ∃ v, (k, v) ∈ es ∧ x ∈ v ∧ x ∉ default ∅ (acc.1 !! k))
    ∧ (is_Some ((foldl merge_step acc es).2 !! k)
       ↔ is_Some (acc.2 !! k) ∨ ∃ v, (k, v) ∈ es).
Proof.
  induction es as [|[k0 v0] es IH]; intros acc; simpl.
  - repeat split; try tauto.
    + intros [H|(v & H & _)]; [done | by apply elem_of_nil in H].
    + intros [H|(v & H & _)]; [done | by apply elem_of_nil in H].
    + intros [H|(v & H)]; [done | by apply elem_of_nil in H].
  - destruct (IH (merge_step acc (k0, v0))) as (I1 & I2 & I3).
    destruct (merge_step_elem acc (k0, v0) k x) as (S1 & S2 & S3).
    simpl in S1, S2, S3. repeat split.
    + intros H. apply I1 in H as [H|(v & Hin & Hx)].
      * apply S1 in H as [H|[-> H]]; [auto |].
        right. exists v0. split; [apply list_elem_of_here | done].
      * right. exists v. split; [by apply list_elem_of_further | done].
    + intros [H|(v & Hin & Hx)]; apply I1.
      * left. apply S1. auto.
      * apply elem_of_cons in Hin as [[= -> ->]|Hin].
        -- left. apply S1. auto.
        -- right. by exists v.
    + intros H. apply I2 in H as [H|(v & Hin & Hx & Hnot)].
      * apply S2 in H as [H|(-> & H & Hnot)]; [auto |].
        right. exists v0. split; [apply list_elem_of_here | done].
      * right. exists v. split; [by apply list_elem_of_further |].
        split; [done |]. intros Hold. apply Hnot, S1. auto.
    + intros [H|(v & Hin & Hx & Hnot)]; apply I2.
      * left. apply S2. auto.
      * apply elem_of_cons in Hin as [[= -> ->]|Hin].
        -- left. apply S2. auto.
        -- destruct (decide (x ∈ default ∅ ((merge_step acc (k0, v0)).1 !! k)))
             as [Hd|Hd].
           ++ left. apply S2. apply S1 in Hd as [Hd|[-> Hd]]; [done |].
              right. done.
           ++ right. by exists v.
    + intros H. apply I3 in H as [H|(v & Hin)].
      * apply S3 in H as [H| ->]; [auto |].
        right. exists v0. apply list_elem_of_here.
      * right. exists v. by apply list_elem_of_further.
    + intros [H|(v & Hin)]; apply I3.
      * left. apply S3. auto.
      * apply elem_of_cons in Hin as [[= -> ->]|Hin].
        -- left. apply S3. auto.
        -- right. by exists v.
Qed.

Lemma in_map_to_list_lookup (deps : gmap string (gset string)) (k : string)
    (P : gset string → Prop) :
  (∃ v, (k, v) ∈ map_to_list deps ∧ P v) ↔ ∃ v, deps !! k = Some v ∧ P v.
Proof.
  split; intros (v & H & HP); exists v; (split; [| done]);
    by apply elem_of_map_to_list.
Qed.

Lemma merge_dependencies_keys (deps0 deps : gmap string (gset string)) (k : string) :
  is_Some ((merge_dependencies deps0 deps).2 !! k) ↔ is_Some (deps !! k).
Proof.
  unfold merge_dependencies. case_bool_decide as He; [done |].
  destruct (merge_fold_elem (map_to_list deps) k k (deps0, ∅)) as (_ & _ & I3).
  simpl in I3. rewrite lookup_empty in I3. rewrite I3. split.
  - intros [[? H]|(v & H)]; [done |].
    apply elem_of_map_to_list in H. by eexists.
  - intros [v H]. right. exists v. by apply elem_of_map_to_list.
Qed.

Lemma merge_dependencies_known (deps0 deps : gmap string (gset string))
    (k x : string) :
  x ∈ default ∅ ((merge_dependencies deps0 deps).1 !! k)
  ↔ x ∈ default ∅ (deps0 !! k) ∨ x ∈ default ∅ (deps !! k).
Proof.
  unfold merge_dependencies. case_bool_decide as He.
  - subst deps0. simpl. rewrite lookup_empty. simpl.
    rewrite elem_of_empty. tauto.
  - destruct (merge_fold_elem (map_to_list deps) k x (deps0, ∅))
      as (I1 & _ & _).
    simpl in I1. rewrite I1.
    rewrite (in_map_to_list_lookup deps k (λ v, x ∈ v)). split.
    + intros [H|(v & -> & H)]; auto.
    + intros [H|H]; [auto |]. right.
      destruct (deps !! k) as [v|]; [by exists v | by apply elem_of_empty in H].
Qed.

Lemma merge_dependencies_new (deps0 deps : gmap string (gset string))
    (k x : string) :
  x ∈ default ∅ ((merge_dependencies deps0 deps).2 !! k)
  ↔ x ∈ default ∅ (deps !! k) ∧ x ∉ default ∅ (deps0 !! k).
Proof.
  unfold merge_dependencies. case_bool_decide as He.
  - subst deps0. simpl. rewrite lookup_empty. simpl.
    rewrite elem_of_empty. tauto.
  - destruct (merge_fold_elem (map_to_list deps) k x (deps0, ∅))
      as (_ & I2 & _).
    simpl in I2. rewrite lookup_empty in I2. simpl in I2. rewrite I2.
    rewrite (in_map_to_list_lookup deps k
               (λ v, x ∈ v ∧ x ∉ default ∅ (deps0 !! k))).
    rewrite elem_of_empty. split.
    + intros [[]|(v & -> & H)]. done.
    + intros [H Hnot]. right.
      destruct (deps !! k) as [v|]; [by exists v | by apply elem_of_empty in H].
Qed.

(** X24. Committing the dependencies of a job unites them, key by key,
    with the table of the coordinator; what is handed to the flusher
    holds, for each key of the job, exactly the dependents the table did
    not have, and it has every key of the job, also one that brings
    nothing new. *)
Theorem merge_dependencies_union
    (deps0 deps : gmap string (gset string)) (k x : string) :
  (x ∈ default ∅ ((merge_dependencies deps0 deps).1 !! k)
   ↔ x ∈ default ∅ (deps0 !! k) ∨ x ∈ default ∅ (deps !! k))
  ∧ (x ∈ default ∅ ((merge_dependencies deps0 deps).2 !! k)
     ↔ x ∈ default ∅ (deps !! k) ∧ x ∉ default ∅ (deps0 !! k))
  ∧ (is_Some ((merge_dependencies deps0 deps).2 !! k) ↔ is_Some (deps !! k)).
Proof.
  split_and!.
  - apply merge_dependencies_known.
  - apply merge_dependencies_new.
  - apply merge_dependencies_keys.
Qed.

Section WatchLoop.

Variable parentDir : string → string.
Variable fileName : string → string.
Variable lastModified : string → Z.

Lemma watch_step_elem (acc : gmap string (gset (string * Z)) * gset string)
    (path dir : string) (pair : string * Z) :
  (pair ∈ default ∅ ((watch_step parentDir fileName lastModified acc path).1 !! dir)
   ↔ pair ∈ default ∅ (acc.1 !! dir)
     ∨ (dir = parentDir path ∧ pair = (fileName path, lastModified path)))
  ∧ (is_Some ((watch_step parentDir fileName lastModified acc path).1 !! dir)
     ↔ is_Some (acc.1 !! dir) ∨ dir = parentDir path)
  ∧ (dir ∈ (watch_step parentDir fileName lastModified acc path).2
     ↔ dir ∈ acc.2 ∨ (dir = parentDir path ∧ acc.1 !! dir = None)).
Proof.
  destruct acc as [W P]. unfold watch_step. simpl.
  destruct (W !! parentDir path) as [pairs|] eqn:Hw; simpl.
  - destruct (decide (dir = parentDir path)) as [->|Hne].
    + rewrite lookup_insert_eq, Hw. simpl.
      rewrite elem_of_union, elem_of_singleton. split_and!.
      * intuition.
      * split; [intros _; by left | intros _; by eexists].
      * intuition discriminate.
    + rewrite lookup_insert_ne by (intros E; by apply Hne). tauto.
  - destruct (decide (dir = parentDir path)) as [->|Hne].
    + rewrite lookup_insert_eq, Hw. simpl.
      rewrite elem_of_union, !elem_of_singleton, elem_of_empty. split_and!.
      * intuition.
      * split; [intros _; by right | intros _; by eexists].
      * intuition.
    + rewrite lookup_insert_ne by (intros E; by apply Hne).
      rewrite elem_of_union, elem_of_singleton. tauto.
Qed.

Lemma watch_fold_elem (paths : list string) (dir : string) (pair : string * Z) :
  ∀ acc : gmap string (gset (string * Z)) * gset string,
    (pair ∈ default ∅
              ((foldl (watch_step parentDir fileName lastModified) acc paths).1
               !! dir)
     ↔ pair ∈ default ∅ (acc.1 !! dir)
       ∨ ∃ path, path ∈ paths ∧ dir = parentDir path
                 ∧ pair = (fileName path, lastModified path))
    ∧ (is_Some ((foldl (watch_step parentDir fileName lastModified) acc paths).1
                !! dir)
       ↔ is_Some (acc.1 !! dir) ∨ ∃ path, path ∈ paths ∧ dir = parentDir path)
    ∧ (dir ∈ (foldl (watch_step parentDir fileName lastModified) acc paths).2
       ↔ dir ∈ acc.2
         ∨ (acc.1 !! dir = None ∧ ∃ path, path ∈ paths ∧ dir = parentDir path)).
Proof.
  induction paths as [|p paths IH]; intros acc; simpl.
  - repeat split; try tauto.
    + intros [H|(path & H & _)]; [done | by apply elem_of_nil in H].
    + intros [H|(path & H & _)]; [done | by apply elem_of_nil in H].
    + intros [H|(_ & path & H & _)]; [done | by apply elem_of_nil in H].
  - destruct (IH (watch_step parentDir fileName lastModified acc p))
      as (I1 & I2 & I3).
    destruct (watch_step_elem acc p dir pair) as (S1 & S2 & S3).
    repeat split.
    + intros H. apply I1 in H as [H|(path & Hin & Hd & Hp)].
      * apply S1 in H as [H|[Hd Hp]]; [auto |].
        right. exists p. split; [apply list_elem_of_here | done].
      * right. exists path. split; [by apply list_elem_of_further | done].
    + intros [H|(path & Hin & Hd & Hp)]; apply I1.
      * left. apply S1. auto.
      * apply elem_of_cons in Hin as [->|Hin].
        -- left. apply S1. auto.
        -- right. by exists path.
    + intros H. apply I2 in H as [H|(path & Hin & Hd)].
      * apply S2 in H as [H|Hd]; [auto |].
        right. exists p. split; [apply list_elem_of_here | done].
      * right. exists path. split; [by apply list_elem_of_further | done].
    + intros [H|(path & Hin & Hd)]; apply I2.
      * left. apply S2. auto.
      * apply elem_of_cons in Hin as [->|Hin].
        -- left. apply S2. auto.
        -- right. by exists path.
    + intros H. apply I3 in H as [H|(Hnone & path & Hin & Hd)].
      * apply S3 in H as [H|[Hd Hnone]]; [auto |].
        right. split; [done |]. exists p. split; [apply list_elem_of_here | done].
      * right. split.
        -- destruct (acc.1 !! dir) eqn:E; [| done].
           assert (Hs : is_Some
                          ((watch_step parentDir fileName lastModified acc p).1
                           !! dir)) by (apply S2; left; by eexists).
           rewrite Hnone in Hs. by destruct Hs.
        -- exists path. split; [by apply list_elem_of_further | done].
    + intros [H|(Hnone & path & Hin & Hd)]; apply I3.
      * left. apply S3. auto.
      * apply elem_of_cons in Hin as [->|Hin].
        -- left. apply S3. auto.
        -- destruct (decide (dir = parentDir p)) as [Hp|Hp].
           ++ left. apply S3. auto.
           ++ right. split; [| by exists path].
              destruct ((watch_step parentDir fileName lastModified acc p).1
                        !! dir) eqn:E; [| done].
              assert (Hs : is_Some (acc.1 !! dir) ∨ dir = parentDir p)
                by (apply S2; by eexists).
              destruct Hs as [Hs|Hs]; [| done].
              rewrite Hnone in Hs. by destruct Hs.
Qed.

(** X25. After a commit, the watch table holds, under the parent
    directory of every file the job reported, the pair of the file's name
    and its modification time at the commit, beside the pairs it held;
    it gains nothing else. The directories handed to the file system
    watcher are exactly the parent directories that were not in the table
    before, and there is no call when there is none. A file that was
    watched before with an older modification time is afterwards watched
    with both. *)
Theorem commitDependencies_watches
    (st : ImplDeps) (deps : gmap string (gset string))
    (dir : string) (pair : string * Z) :
  (pair ∈ default ∅
            (watched (impl (commitDependencies parentDir fileName lastModified
                              st deps)) !! dir)
   ↔ pair ∈ default ∅ (watched st !! dir)
     ∨ ∃ path, is_Some (deps !! path) ∧ dir = parentDir path
               ∧ pair = (fileName path, lastModified path))
  ∧ (match addPaths (commitDependencies parentDir fileName lastModified st deps)
     with
     | None => ∀ path, is_Some (deps !! path) →
                       is_Some (watched st !! parentDir path)
     | Some dirs =>
         dirs ≠ ∅
         ∧ ∀ d, d ∈ dirs
                ↔ watched st !! d = None
                  ∧ ∃ path, is_Some (deps !! path) ∧ d = parentDir path
     end).
Proof.
  unfold commitDependencies, watch_new. simpl.
  set (new := (merge_dependencies (dependencies st) deps).2).
  assert (Hkeys : ∀ path, path ∈ (map_to_list new).*1 ↔ is_Some (deps !! path)).
  { intros path. rewrite list_elem_of_fmap. split.
    - intros ([k v] & -> & H). apply elem_of_map_to_list in H. simpl.
      apply (merge_dependencies_keys (dependencies st) deps k). by eexists.
    - intros H. apply (merge_dependencies_keys (dependencies st) deps path) in H
        as [v H]. exists (path, v). split; [done |]. by apply elem_of_map_to_list. }
  split.
  - destruct (watch_fold_elem (map_to_list new).*1 dir pair (watched st, ∅))
      as (I1 & _ & _). simpl in I1. rewrite I1.
    split; (intros [H|(path & Hin & H)]; [auto |]); right; exists path;
      (split; [by apply Hkeys | done]).
  - set (r := foldl (watch_step parentDir fileName lastModified)
                    (watched st, ∅) (map_to_list new).*1).
    assert (Hd : ∀ d, d ∈ r.2
                      ↔ watched st !! d = None
                        ∧ ∃ path, is_Some (deps !! path) ∧ d = parentDir path).
    { intros d.
      destruct (watch_fold_elem (map_to_list new).*1 d pair (watched st, ∅))
        as (_ & _ & I3). simpl in I3. fold r in I3. rewrite I3. split.
      - intros [H|(Hn & path & Hin & H)]; [by apply elem_of_empty in H |].
        split; [done |]. exists path. split; [by apply Hkeys | done].
      - intros (Hn & path & Hin & H). right. split; [done |].
        exists path. split; [by apply Hkeys | done]. }
    case_bool_decide as He.
    + intros path Hp.
      destruct (watched st !! parentDir path) eqn:E; [by eexists |].
      assert (Hin : parentDir path ∈ r.2) by (apply Hd; eauto).
      rewrite He in Hin. by apply elem_of_empty in Hin.
    + split; [done | apply Hd].
Qed.

End WatchLoop.

Lemma union_with_sets_lookup (buffer added : gmap string (gset string))
    (k x : string) :
  x ∈ default ∅ (union_with (λ a b, Some (a ∪ b)) buffer added !! k)
  ↔ x ∈ default ∅ (buffer !! k) ∨ x ∈ default ∅ (added !! k).
Proof.
  rewrite lookup_union_with.
  destruct (buffer !! k), (added !! k); simpl;
    rewrite ?elem_of_union, ?elem_of_empty; tauto.
Qed.

(** X28. The coordinator hands to the flusher only the dependents it did
    not know. This loses nothing: if every dependency the coordinator
    knows is in the flusher's buffer or in the Dependency table, then so
    it is after a commit and the delivery of the new dependencies, and
    after the next Dependency stage of a flush every dependency the
    coordinator knows is in the table. *)
Theorem commit_keeps_dependencies_accounted
    (known deps tbl : gmap string (gset string)) (acc : Syncer.IndexerSyncer) :
  accounted known (Syncer.mDependencies acc) tbl →
  accounted (merge_dependencies known deps).1
    (Syncer.mDependencies
       (Syncer.addDependencies acc (merge_dependencies known deps).2))
    tbl
  ∧ accounted (merge_dependencies known deps).1 ∅
      (Syncer.flushDependencies
         (Syncer.mDependencies
            (Syncer.addDependencies acc (merge_dependencies known deps).2))
         tbl).
Proof.
  intros Hacc.
  assert (Hfirst : accounted (merge_dependencies known deps).1
            (Syncer.mDependencies
               (Syncer.addDependencies acc (merge_dependencies known deps).2))
            tbl).
  { intros k x Hx. rewrite AccumulatorFacts.addDependencies_buffer.
    rewrite union_with_sets_lookup.
    apply merge_dependencies_known in Hx as [Hx|Hx].
    - destruct (Hacc k x Hx); auto.
    - destruct (decide (x ∈ default ∅ (known !! k))) as [Hk|Hk].
      + destruct (Hacc k x Hk); auto.
      + right. right. by apply merge_dependencies_new. }
  split; [done |].
  intros k x Hx. left.
  fold (Syncer.readValue ∅
          (Syncer.flushDependencies
             (Syncer.mDependencies
                (Syncer.addDependencies acc (merge_dependencies known deps).2))
             tbl) k).
  rewrite FlushFacts.flushDependencies_read. unfold Syncer.readValue.
  apply elem_of_union. by apply Hfirst.
Qed.

Lemma commit_keeps_dependencies_accounted_witness :
  accounted (merge_dependencies ∅ {["/src/a.h" := {["/src/a.cpp"]}]}).1
    (Syncer.mDependencies
       (Syncer.addDependencies Syncer.fresh
          (merge_dependencies ∅ {["/src/a.h" := {["/src/a.cpp"]}]}).2))
    ∅
  ∧ accounted (merge_dependencies ∅ {["/src/a.h" := {["/src/a.cpp"]}]}).1 ∅
      (Syncer.flushDependencies
         (Syncer.mDependencies
            (Syncer.addDependencies Syncer.fresh
               (merge_dependencies ∅ {["/src/a.h" := {["/src/a.cpp"]}]}).2))
         ∅).
Proof.
  apply (commit_keeps_dependencies_accounted ∅ {["/src/a.h" := {["/src/a.cpp"]}]}
           ∅ Syncer.fresh).
  intros k x Hx. rewrite lookup_empty in Hx. by apply elem_of_empty in Hx.
Defined.

End CommitFacts.

(** ** The directory-change handler on changed files *)

Module WatcherScanFacts.
Import Watcher WatcherMore WatcherMoreFacts.

Lemma value_at_middle (pre post : list (string * list (string * Z)))
    (d : string) (cur : list (string * Z)) :
  value_at (pre ++ (d, cur) :: post) (length pre) = Ok cur.
Proof.
  unfold value_at.
  by rewrite (list_lookup_middle pre post (d, cur) (length pre) eq_refl).
Qed.

Lemma set_value_at_middle (pre post : list (string * list (string * Z)))
    (d : string) (cur v : list (string * Z)) :
  set_value_at (pre ++ (d, cur) :: post) (length pre) v = pre ++ (d, v) :: post.
Proof.
  unfold set_value_at.
  rewrite (list_lookup_middle pre post (d, cur) (length pre) eq_refl). simpl.
  rewrite insert_app_r_alt by lia. by rewrite Nat.sub_diag.
Qed.

Section Tracked.

Variable file_exists : string → bool.
Variable lastModified : string → Z.
Variable fileName : string → string.
Variable deps : gmap string (gset string).
Variable db : gmap string (list string).
Variable p : string.
Variable pre post : list (string * list (string * Z)).

Lemma mark_dependent_spec (s : Scan) (path0 : string) :
  consistent db s →
  watched (mark_dependent file_exists db s path0) = watched s
  ∧ it (mark_dependent file_exists db s path0) = it s
  ∧ pending (mark_dependent file_exists db s path0) = pending s
  ∧ logged (mark_dependent file_exists db s path0) = logged s
  ∧ dirtyFiles (mark_dependent file_exists db s path0) = {[path0]} ∪ dirtyFiles s
  ∧ consistent db (mark_dependent file_exists db s path0)
  ∧ (∀ path args,
       toIndexPch (mark_dependent file_exists db s path0) !! path = Some args
       ↔ toIndexPch s !! path = Some args
         ∨ (path = path0 ∧ file_exists path = true ∧ db !! path = Some args
            ∧ isPch args = true))
  ∧ (∀ path args,
       toIndex (mark_dependent file_exists db s path0) !! path = Some args
       ↔ toIndex s !! path = Some args
         ∨ (path = path0 ∧ file_exists path = true ∧ db !! path = Some args
            ∧ isPch args = false)).
Proof.
  intros [Cp Ci]. unfold mark_dependent, consistent.
  destruct (file_exists path0) eqn:Ex.
  - destruct (db !! path0) as [args0|] eqn:Edb.
    + destruct (isPch args0) eqn:Epch; simpl; split_and!; try done.
      * intros path args. destruct (decide (path = path0)) as [->|Hne].
        -- rewrite lookup_insert_eq. by intros [= <-].
        -- rewrite lookup_insert_ne by (intros E; by apply Hne). apply Cp.
      * intros path args. destruct (decide (path = path0)) as [->|Hne].
        -- rewrite lookup_insert_eq. split.
           ++ intros [= <-]. right. done.
           ++ intros [H|(_ & _ & H & _)]; [apply Cp in H |]; congruence.
        -- rewrite lookup_insert_ne by (intros E; by apply Hne).
           split; [auto |]. intros [H|[H _]]; done.
      * intros path args. split; [auto |].
        intros [H|(-> & _ & H & Hp)]; [done |]. congruence.
      * intros path args. destruct (decide (path = path0)) as [->|Hne].
        -- rewrite lookup_insert_eq. by intros [= <-].
        -- rewrite lookup_insert_ne by (intros E; by apply Hne). apply Ci.
      * intros path args. split; [auto |].
        intros [H|(-> & _ & H & Hp)]; [done |]. congruence.
      * intros path args. destruct (decide (path = path0)) as [->|Hne].
        -- rewrite lookup_insert_eq. split.
           ++ intros [= <-]. right. done.
           ++ intros [H|(_ & _ & H & _)]; [apply Ci in H |]; congruence.
        -- rewrite lookup_insert_ne by (intros E; by apply Hne).
           split; [auto |]. intros [H|[H _]]; done.
    + simpl. split_and!; try done.
      * intros path args. split; [auto |].
        intros [H|(-> & _ & H & _)]; [done | congruence].
      * intros path args. split; [auto |].
        intros [H|(-> & _ & H & _)]; [done | congruence].
  - simpl. split_and!; try done.
    + intros path args. split; [auto |].
      intros [H|(-> & H & _)]; [done | congruence].
    + intros path args. split; [auto |].
      intros [H|(-> & H & _)]; [done | congruence].
Qed.

Lemma mark_fold_spec (ds : list string) :
  ∀ s : Scan,
    consistent db s →
    watched (foldl (mark_dependent file_exists db) s ds) = watched s
    ∧ it (foldl (mark_dependent file_exists db) s ds) = it s
    ∧ pending (foldl (mark_dependent file_exists db) s ds) = pending s
    ∧ logged (foldl (mark_dependent file_exists db) s ds) = logged s
    ∧ (∀ f, f ∈ dirtyFiles (foldl (mark_dependent file_exists db) s ds)
            ↔ f ∈ dirtyFiles s ∨ f ∈ ds)
    ∧ consistent db (foldl (mark_dependent file_exists db) s ds)
    ∧ (∀ path args,
         toIndexPch (foldl (mark_dependent file_exists db) s ds) !! path = Some args
         ↔ toIndexPch s !! path = Some args
           ∨ (path ∈ ds ∧ file_exists path = true ∧ db !! path = Some args
              ∧ isPch args = true))
    ∧ (∀ path args,
         toIndex (foldl (mark_dependent file_exists db) s ds) !! path = Some args
         ↔ toIndex s !! path = Some args
           ∨ (path ∈ ds ∧ file_exists path = true ∧ db !! path = Some args
              ∧ isPch args = false)).
Proof.
  induction ds as [|d ds IH]; intros s Hc; simpl.
  - split_and!; try done.
    + intros f. split; [auto |]. intros [H|H]; [done | by apply elem_of_nil in H].
    + intros path args. split; [auto |].
      intros [H|[H _]]; [done | by apply elem_of_nil in H].
    + intros path args. split; [auto |].
      intros [H|[H _]]; [done | by apply elem_of_nil in H].
  - destruct (mark_dependent_spec s d Hc)
      as (M1 & M2 & M3 & M4 & M5 & M6 & M7 & M8).
    destruct (IH _ M6) as (I1 & I2 & I3 & I4 & I5 & I6 & I7 & I8).
    split_and!; try congruence.
    + intros f. rewrite I5, M5, elem_of_union, elem_of_singleton, elem_of_cons.
      tauto.
    + intros path args. rewrite I7, M7, elem_of_cons. tauto.
    + intros path args. rewrite I8, M8, elem_of_cons. tauto.
Qed.

Lemma changed_file_cons (wp : string * Z) (rest : list (string * Z)) (f : string) :
  changed_file file_exists lastModified p (wp :: rest) f
  ↔ (changed file_exists lastModified p wp = true ∧ f = p +:+ wp.1)
    ∨ changed_file file_exists lastModified p rest f.
Proof.
  unfold changed_file. split.
  - intros (x & Hin & Hc & Hf). apply elem_of_cons in Hin as [->|Hin]; [auto |].
    right. by exists x.
  - intros [[Hc Hf]|(x & Hin & Hc & Hf)].
    + exists wp. split; [apply list_elem_of_here | done].
    + exists x. split; [by apply list_elem_of_further | done].
Qed.

Lemma dependent_of_changed_cons (wp : string * Z) (rest : list (string * Z))
    (path : string) :
  dependent_of_changed file_exists lastModified deps p (wp :: rest) path
  ↔ (changed file_exists lastModified p wp = true
     ∧ ∃ ds, deps !! (p +:+ wp.1) = Some ds ∧ path ∈ ds)
    ∨ dependent_of_changed file_exists lastModified deps p rest path.
Proof.
  unfold dependent_of_changed. split.
  - intros (file & ds & Hf & Hd & Hin). apply changed_file_cons in Hf as [[Hc ->]|Hf].
    + left. split; [done |]. by exists ds.
    + right. by exists file, ds.
  - intros [[Hc (ds & Hd & Hin)]|(file & ds & Hf & Hd & Hin)].
    + exists (p +:+ wp.1), ds. split; [| done]. apply changed_file_cons. auto.
    + exists file, ds. split; [| done]. apply changed_file_cons. auto.
Qed.

Lemma changed_file_nil (f : string) :
  ¬ changed_file file_exists lastModified p [] f.
Proof. intros (x & Hin & _). by apply elem_of_nil in Hin. Qed.

Lemma dependent_of_changed_nil (path : string) :
  ¬ dependent_of_changed file_exists lastModified deps p [] path.
Proof. intros (file & ds & Hf & _). by apply changed_file_nil in Hf. Qed.

(** The loop over the pairs when every changed file has dependents. *)
Lemma scan_tracked (todo : list (string * Z)) :
  ∀ (cur : list (string * Z)) (s : Scan),
    watched s = pre ++ (p, cur) :: post →
    it s = length pre →
    consistent db s →
    (∀ file, changed_file file_exists lastModified p todo file →
             ∃ ds, deps !! file = Some ds ∧ ds ≠ ∅) →
    ∃ s' cur',
      scan file_exists lastModified deps db p (length pre) todo s = Ok s'
      ∧ watched s' = pre ++ (p, cur') :: post
      ∧ it s' = length pre
      ∧ logged s' = logged s
      ∧ consistent db s'
      ∧ pending s'
        = pending s
          ++ ((λ wp, p +:+ wp.1)
              <$> filter (λ wp, changed file_exists lastModified p wp = true) todo)
      ∧ (∀ x, x ∈ cur'
              ↔ x ∈ cur
                ∧ ¬ (x ∈ todo ∧ changed file_exists lastModified p x = true))
      ∧ (∀ f, f ∈ dirtyFiles s'
              ↔ f ∈ dirtyFiles s
                ∨ changed_file file_exists lastModified p todo f
                ∨ dependent_of_changed file_exists lastModified deps p todo f)
      ∧ (∀ path args,
           toIndexPch s' !! path = Some args
           ↔ toIndexPch s !! path = Some args
             ∨ (dependent_of_changed file_exists lastModified deps p todo path
                ∧ file_exists path = true ∧ db !! path = Some args
                ∧ isPch args = true))
      ∧ (∀ path args,
           toIndex s' !! path = Some args
           ↔ toIndex s !! path = Some args
             ∨ (dependent_of_changed file_exists lastModified deps p todo path
                ∧ file_exists path = true ∧ db !! path = Some args
                ∧ isPch args = false)).
Proof.
  induction todo as [|wp todo IH]; intros cur s Hw Hit Hc Hdeps.
  - exists s, cur. simpl. split_and!; try done.
    + by rewrite app_nil_r.
    + intros x. split; [| tauto]. intros H. split; [done |].
      intros [H' _]. by apply elem_of_nil in H'.
    + intros f. split; [auto |].
      intros [H|[H|H]]; [done | by apply changed_file_nil in H
                        | by apply dependent_of_changed_nil in H].
    + intros path args. split; [auto |].
      intros [H|[H _]]; [done | by apply dependent_of_changed_nil in H].
    + intros path args. split; [auto |].
      intros [H|[H _]]; [done | by apply dependent_of_changed_nil in H].
  - assert (Hrest : ∀ file, changed_file file_exists lastModified p todo file →
                            ∃ ds, deps !! file = Some ds ∧ ds ≠ ∅).
    { intros file Hf. apply Hdeps, changed_file_cons. auto. }
    cbn [scan]. fold (changed file_exists lastModified p wp).
    destruct (changed file_exists lastModified p wp) eqn:Hch.
    + rewrite Hw, Hit, value_at_middle. simpl.
      rewrite (decide_True (P := length pre = length pre)) by done.
      rewrite set_value_at_middle.
      destruct (Hdeps (p +:+ wp.1)) as (ds & Hds & Hne).
      { apply changed_file_cons. auto. }
      rewrite Hds. rewrite (decide_False (P := ds = ∅)) by done.
      set (s1 := {| watched := pre ++ (p, filter (λ x, x ≠ wp) cur) :: post;
                    it := length pre; pending := pending s ++ [p +:+ wp.1];
                    dirtyFiles := {[p +:+ wp.1]} ∪ dirtyFiles s;
                    toIndex := toIndex s; toIndexPch := toIndexPch s;
                    logged := logged s |}).
      assert (Hc1 : consistent db s1) by done.
      destruct (mark_fold_spec (elements ds) s1 Hc1)
        as (F1 & F2 & F3 & F4 & F5 & F6 & F7 & F8).
      destruct (IH (filter (λ x, x ≠ wp) cur)
                   (foldl (mark_dependent file_exists db) s1 (elements ds)))
        as (s' & cur' & R & R1 & R2 & R3 & R4 & R5 & R6 & R7 & R8 & R9);
        [by rewrite F1 | by rewrite F2 | done | done |].
      exists s', cur'. split_and!; try done.
      * by rewrite R3, F4.
      * rewrite R5, F3. simpl. rewrite filter_cons_True by done.
        by rewrite <- app_assoc.
      * intros x. rewrite R6, list_elem_of_filter, elem_of_cons. split.
        -- intros [[Hx Hin] Hn]. split; [done |].
           intros [[->|Hin'] Hcx]; [done | apply Hn; auto].
        -- intros [Hin Hn]. split; [split; [| done] |].
           ++ intros ->. apply Hn. auto.
           ++ intros [Hin' Hcx]. apply Hn. auto.
      * intros f. rewrite R7, F5, changed_file_cons, dependent_of_changed_cons.
        simpl. rewrite elem_of_union, elem_of_singleton, elem_of_elements. split.
        -- intros [[[->|H]|H]|[H|H]]; try tauto.
           right. right. left. split; [done |]. by exists ds.
        -- intros [H|[[[_ ->]|H]|[[_ (ds' & Hd & Hin)]|H]]]; try tauto.
           left. right. congruence.
      * intros path args. rewrite R8, F7, dependent_of_changed_cons.
        rewrite elem_of_elements. simpl. split.
        -- intros [[H|(H1 & H2)]|H]; try tauto.
           right. split; [| done]. left. split; [done |]. by exists ds.
        -- intros [H|([[_ (ds' & Hd & Hin)]|H] & H2)]; try tauto.
           left. right. split; [congruence | done].
      * intros path args. rewrite R9, F8, dependent_of_changed_cons.
        rewrite elem_of_elements. simpl. split.
        -- intros [[H|(H1 & H2)]|H]; try tauto.
           right. split; [| done]. left. split; [done |]. by exists ds.
        -- intros [H|([[_ (ds' & Hd & Hin)]|H] & H2)]; try tauto.
           left. right. split; [congruence | done].
    + destruct (IH cur s Hw Hit Hc Hrest)
        as (s' & cur' & R & R1 & R2 & R3 & R4 & R5 & R6 & R7 & R8 & R9).
      exists s', cur'. split_and!; try done.
      * rewrite R5. by rewrite filter_cons_False by congruence.
      * intros x. rewrite R6, elem_of_cons. split.
        -- intros [Hin Hn]. split; [done |].
           intros [[->|Hin'] Hcx]; [congruence | apply Hn; auto].
        -- intros [Hin Hn]. split; [done |]. intros [Hin' Hcx]. apply Hn. auto.
      * intros f. rewrite R7, changed_file_cons, dependent_of_changed_cons.
        split; [tauto |].
        intros [H|[[[Hx _]|H]|[[Hx _]|H]]]; try tauto; congruence.
      * intros path args. rewrite R8, dependent_of_changed_cons.
        split; [tauto |].
        intros [H|([[Hx _]|H] & H2)]; try tauto; congruence.
      * intros path args. rewrite R9, dependent_of_changed_cons.
        split; [tauto |].
        intros [H|([[Hx _]|H] & H2)]; try tauto; congruence.
Qed.

Lemma rearm_tracked (paths : list string) :
  ∀ cur : list (string * Z),
    ∃ cur',
      rearm lastModified fileName paths (pre ++ (p, cur) :: post) (length pre)
      = Ok (pre ++ (p, cur') :: post)
      ∧ ∀ x, x ∈ cur'
             ↔ x ∈ cur
               ∨ ∃ path, path ∈ paths ∧ x = (fileName path, lastModified path).
Proof.
  induction paths as [|path paths IH]; intros cur.
  - exists cur. split; [done |]. intros x. split; [auto |].
    intros [H|(path & H & _)]; [done | by apply elem_of_nil in H].
  - cbn [rearm]. rewrite value_at_middle. simpl. rewrite set_value_at_middle.
    destruct (IH (set_insert (fileName path, lastModified path) cur))
      as (cur' & Hr & Hx).
    exists cur'. split; [done |]. intros x. rewrite Hx.
    assert (Hins : x ∈ set_insert (fileName path, lastModified path) cur
                   ↔ x ∈ cur ∨ x = (fileName path, lastModified path)).
    { unfold set_insert. destruct (decide (_ ∈ cur)) as [Hin|Hin].
      - split; [auto |]. intros [H| ->]; done.
      - rewrite elem_of_app, list_elem_of_singleton. tauto. }
    rewrite Hins. split.
    + intros [[H| ->]|(q & Hq & ->)]; [auto | |].
      * right. exists path. split; [apply list_elem_of_here | done].
      * right. exists q. split; [by apply list_elem_of_further | done].
    + intros [H|(q & Hq & ->)]; [auto |].
      apply elem_of_cons in Hq as [->|Hq]; [auto |].
      right. by exists q.
Qed.

(** X26. An event for a watched directory in which every changed file has
    recorded dependents: the handler returns and logs nothing. The dirty
    set of the job it starts holds exactly the changed files and their
    dependents. A dependent is handed on for re-indexing exactly if it is
    on disk and has stored arguments, with these arguments, as a PCH unit
    or as an ordinary one according to [isPch]. The other directories
    keep their pairs; the directory of the event keeps its unchanged
    pairs and has each changed file watched again with its current
    modification time. *)
Theorem onDirectoryChanged_tracks_changes (pairs : list (string * Z)) :
  endsWith "/"%char p = true →
  p ∉ pre.*1 →
  (∀ file, changed_file file_exists lastModified p pairs file →
           ∃ ds, deps !! file = Some ds ∧ ds ≠ ∅) →
  ∃ pairs' job,
    onDirectoryChanged file_exists lastModified fileName deps true db
      (pre ++ (p, pairs) :: post) p
    = Ok (pre ++ (p, pairs') :: post, Some job, [])
    ∧ (∀ f, f ∈ mDirty job
            ↔ changed_file file_exists lastModified p pairs f
              ∨ dependent_of_changed file_exists lastModified deps p pairs f)
    ∧ (∀ path args,
         mToIndexPch job !! path = Some args
         ↔ dependent_of_changed file_exists lastModified deps p pairs path
           ∧ file_exists path = true ∧ db !! path = Some args
           ∧ isPch args = true)
    ∧ (∀ path args,
         mToIndex job !! path = Some args
         ↔ dependent_of_changed file_exists lastModified deps p pairs path
           ∧ file_exists path = true ∧ db !! path = Some args
           ∧ isPch args = false)
    ∧ (∀ x, x ∈ pairs'
            ↔ (x ∈ pairs ∧ changed file_exists lastModified p x = false)
              ∨ ∃ file, changed_file file_exists lastModified p pairs file
                        ∧ x = (fileName file, lastModified file)).
Proof.
  intros Hslash Hpre Hdeps. unfold onDirectoryChanged.
  rewrite Hslash, find_from_first by done. simpl.
  rewrite value_at_middle. simpl.
  set (s0 := {| watched := pre ++ (p, pairs) :: post; it := length pre;
                pending := []; dirtyFiles := ∅; toIndex := ∅; toIndexPch := ∅;
                logged := [] |}).
  destruct (scan_tracked pairs pairs s0)
    as (s' & cur' & R & R1 & R2 & R3 & R4 & R5 & R6 & R7 & R8 & R9);
    [done | done | done | done |].
  rewrite R. simpl. rewrite R1, R2.
  destruct (rearm_tracked (pending s') cur') as (pairs' & Hr & Hx).
  rewrite Hr. simpl.
  exists pairs', (mkDirtyJob (dirtyFiles s') (toIndexPch s') (toIndex s')).
  rewrite R3. split; [done |]. simpl. split_and!.
  - intros f. rewrite R7. simpl. split; [| tauto].
    intros [H|H]; [by apply elem_of_empty in H | done].
  - intros path args. rewrite R8. simpl. rewrite lookup_empty. split; [| tauto].
    intros [H|H]; [done | done].
  - intros path args. rewrite R9. simpl. rewrite lookup_empty. split; [| tauto].
    intros [H|H]; [done | done].
  - intros x. rewrite Hx, R6, R5. simpl. split.
    + intros [[Hin Hn]|(path & Hq & ->)].
      * left. split; [done |].
        destruct (changed file_exists lastModified p x) eqn:E; [| done].
        exfalso. apply Hn. auto.
      * right. apply list_elem_of_fmap in Hq as (wp & -> & Hwp).
        apply list_elem_of_filter in Hwp as [Hc Hin].
        exists (p +:+ wp.1). split; [| done]. by exists wp.
    + intros [[Hin Hc]|(file & (wp & Hin & Hc & ->) & ->)].
      * left. split; [done |]. intros [_ Hc']. congruence.
      * right. exists (p +:+ wp.1). split; [| done].
        apply list_elem_of_fmap. exists wp. split; [done |].
        by apply list_elem_of_filter.
Qed.

End Tracked.

Lemma onDirectoryChanged_tracks_changes_witness :
  ∃ pairs' job,
    onDirectoryChanged all_exist modified_at_2 base_name deps_of_b true info_of_b
      ([] ++ ("/d/", [("b.h", 1%Z)]) :: []) "/d/"
    = Ok ([] ++ ("/d/", pairs') :: [], Some job, [])
    ∧ (∀ f, f ∈ mDirty job
            ↔ changed_file all_exist modified_at_2 "/d/" [("b.h", 1%Z)] f
              ∨ dependent_of_changed all_exist modified_at_2 deps_of_b "/d/"
                  [("b.h", 1%Z)] f)
    ∧ (∀ path args,
         mToIndexPch job !! path = Some args
         ↔ dependent_of_changed all_exist modified_at_2 deps_of_b "/d/"
             [("b.h", 1%Z)] path
           ∧ all_exist path = true ∧ info_of_b !! path = Some args
           ∧ isPch args = true)
    ∧ (∀ path args,
         mToIndex job !! path = Some args
         ↔ dependent_of_changed all_exist modified_at_2 deps_of_b "/d/"
             [("b.h", 1%Z)] path
           ∧ all_exist path = true ∧ info_of_b !! path = Some args
           ∧ isPch args = false)
    ∧ (∀ x, x ∈ pairs'
            ↔ (x ∈ [("b.h", 1%Z)] ∧ changed all_exist modified_at_2 "/d/" x = false)
              ∨ ∃ file, changed_file all_exist modified_at_2 "/d/"
                          [("b.h", 1%Z)] file
                        ∧ x = (base_name file, modified_at_2 file)).
Proof.
  apply (onDirectoryChanged_tracks_changes all_exist modified_at_2 base_name
           deps_of_b info_of_b "/d/" [] [] [("b.h", 1%Z)]).
  - reflexivity.
  - apply not_elem_of_nil.
  - intros file (wp & Hin & _ & ->).
    apply list_elem_of_singleton in Hin as ->.
    exists {["/d/b.cpp"]}.
    split; [apply lookup_singleton_eq | apply non_empty_singleton_L].
Defined.

End WatcherScanFacts.

(** ** Repeated sweeps of the SymbolName table *)

Module SweepFacts.
Import RTags LevelDB Dirty DirtyFacts.

Lemma clean_locations_subseteq (D : gset string) (v : gset Location) :
  filter (λ l, path l ∉ D) v ⊆ v.
Proof. intros l Hl. by apply elem_of_filter in Hl as [_ ?]. Qed.

Lemma clean_locations_union (D1 D2 : gset string) (v : gset Location) :
  filter (λ l, path l ∉ D1 ∪ D2) v
  = filter (λ l, path l ∉ D2) (filter (λ l, path l ∉ D1) v).
Proof.
  apply set_eq. intros l. rewrite !elem_of_filter, not_elem_of_union. tauto.
Qed.

Lemma clean_locations_none (D : gset string) (v : gset Location) :
  D = ∅ → filter (λ l, path l ∉ D) v = v.
Proof.
  intros ->. apply set_eq. intros l. rewrite elem_of_filter.
  split; [by intros [_ ?] |].
  intros Hl. split; [apply not_elem_of_empty | done].
Qed.

Lemma sweepSymbolNames_value (D : gset string)
    (tbl : gmap string (gset Location)) (k : string) :
  sweepSymbolNames D tbl !! k
  = match tbl !! k with
    | Some v =>
        if decide (filter (λ l, path l ∉ D) v = v) then Some v
        else if decide (filter (λ l, path l ∉ D) v = ∅) then None
        else Some (filter (λ l, path l ∉ D) v)
    | None => None
    end.
Proof.
  rewrite sweepSymbolNames_lookup. destruct (tbl !! k) as [v|]; [| done].
  unfold name_op.
  destruct (decide (filter (λ l, path l ∉ D) v = v)); [done |].
  by destruct (decide (filter (λ l, path l ∉ D) v = ∅)).
Qed.

Lemma sweepSymbolNames_union (D1 D2 : gset string)
    (tbl : gmap string (gset Location)) :
  sweepSymbolNames D2 (sweepSymbolNames D1 tbl) = sweepSymbolNames (D1 ∪ D2) tbl.
Proof.
  apply map_eq. intros k. rewrite !sweepSymbolNames_value.
  destruct (tbl !! k) as [v|]; [| done].
  rewrite clean_locations_union.
  set (a := filter (λ l, path l ∉ D1) v).
  set (b := filter (λ l, path l ∉ D2) a).
  assert (Ha : a ⊆ v) by apply clean_locations_subseteq.
  assert (Hb : b ⊆ a) by apply clean_locations_subseteq.
  assert (Hempty : filter (λ l, path l ∉ D2) (∅ : gset Location) = ∅).
  { apply set_eq. intros l. rewrite elem_of_filter. split; [by intros [_ ?] |].
    intros Hl. by apply elem_of_empty in Hl. }
  destruct (decide (a = v)) as [Hav|Hav].
  - assert (Hbv : filter (λ l, path l ∉ D2) v = b) by (unfold b; by rewrite Hav).
    by rewrite Hbv.
  - destruct (decide (a = ∅)) as [Ha0|Ha0].
    + assert (Hb0 : b = ∅) by (unfold b; by rewrite Ha0).
      rewrite Hb0.
      destruct (decide (∅ = v)) as [Hv|Hv]; [congruence |].
      by rewrite decide_True.
    + fold b.
      destruct (decide (b = a)) as [Hba|Hba].
      * rewrite Hba. rewrite (decide_False (P := a = v)) by done.
        by rewrite (decide_False (P := a = ∅)).
      * assert (Hbv : b ≠ v).
        { intros Hbv. apply Hav. apply (anti_symm (⊆)); [done |].
          by rewrite <- Hbv. }
        rewrite (decide_False (P := b = v)) by done.
        by destruct (decide (b = ∅)).
Qed.

(** X27. Sweeping the SymbolName table for one dirty set and then for
    another leaves what one sweep for their union leaves. So a sweep for
    the empty set changes nothing, and a second sweep for the same set
    changes nothing more. *)
Theorem sweepSymbolNames_composes (D1 D2 : gset string)
    (tbl : gmap string (gset Location)) :
  sweepSymbolNames D2 (sweepSymbolNames D1 tbl) = sweepSymbolNames (D1 ∪ D2) tbl
  ∧ sweepSymbolNames ∅ tbl = tbl
  ∧ sweepSymbolNames D1 (sweepSymbolNames D1 tbl) = sweepSymbolNames D1 tbl.
Proof.
  split_and!.
  - apply sweepSymbolNames_union.
  - apply map_eq. intros k. rewrite sweepSymbolNames_value.
    destruct (tbl !! k) as [v|]; [| done].
    by rewrite (clean_locations_none ∅ v eq_refl), decide_True.
  - rewrite sweepSymbolNames_union. by rewrite union_idemp_L.
Qed.

End SweepFacts.

(** ** The cursor visitor *)

Module VisitorFacts.
Import RTags Rdm JobBody Visitor NameFacts SymbolTableFacts.

Lemma addNamePermutations_from_sound (location : Location) (chain : list string) :
  ∀ (qparam qnoparam : string) (names names' : gmap string (gset Location)),
    addNamePermutations_from chain location qparam qnoparam names = Ok names' →
    ∀ key l, l ∈ default ∅ (names' !! key) →
             l ∈ default ∅ (names !! key) ∨ l = location.
Proof.
  induction chain as [|qname chain IH]; intros qparam qnoparam names names'.
  - intros [= <-]. auto.
  - cbn [addNamePermutations_from].
    destruct (decide (qname = EmptyString)); [intros [= <-]; auto |].
    destruct (if decide (qparam = EmptyString)
              then (qname +:+ qparam, strip_params (qname +:+ qnoparam))
              else ((qname +:+ "::") +:+ qparam, (qname +:+ "::") +:+ qnoparam))
      as [qp1 qn1].
    destruct (decide (qp1 = EmptyString)); [done |].
    destruct (decide (qp1 = qn1)).
    + intros Hrun key l Hl.
      destruct (IH _ _ _ _ Hrun key l Hl) as [H|H]; [| auto].
      apply insert_name_elem in H. tauto.
    + destruct (decide (qn1 = EmptyString)); [done |].
      intros Hrun key l Hl.
      destruct (IH _ _ _ _ Hrun key l Hl) as [H|H]; [| auto].
      apply insert_name_elem in H as [H|H]; [| tauto].
      apply insert_name_elem in H. tauto.
Qed.

Lemma Forall_nonempty_split (parents : list string) :
  Forall (λ p, p ≠ EmptyString) parents
  ∨ ∃ pre more, parents = pre ++ EmptyString :: more
                ∧ Forall (λ p, p ≠ EmptyString) pre.
Proof.
  induction parents as [|p parents IH].
  - left. constructor.
  - destruct (decide (p = EmptyString)) as [->|Hp].
    + right. exists [], parents. split; [done | constructor].
    + destruct IH as [IH|(pre & more & -> & Hpre)].
      * left. by constructor.
      * right. exists (p :: pre), more. split; [done | by constructor].
Qed.

(** The permutation loop returns on every chain on which its second
    assertion holds. *)
Lemma addNamePermutations_returns (location : Location) (chain : list string)
    (names : gmap string (gset Location)) :
  names_assertable chain →
  ∃ names', addNamePermutations chain location names = Ok names'.
Proof.
  intros Hok. destruct chain as [|name parents]; [by eexists |].
  destruct (Hok name parents eq_refl) as [->|Hstrip]; [by eexists |].
  destruct (decide (name = EmptyString)) as [->|Hname]; [by eexists |].
  unfold addNamePermutations.
  assert (Hfirst : ∀ ps, Forall (λ p, p ≠ EmptyString) ps →
            ∃ names', addNamePermutations_from (name :: ps) location
                        EmptyString EmptyString names = Ok names').
  { intros ps Hps. cbn [addNamePermutations_from].
    rewrite (decide_False (P := name = EmptyString)) by done.
    rewrite (decide_True (P := EmptyString = EmptyString)) by done.
    rewrite append_empty_r.
    rewrite (decide_False (P := name = EmptyString)) by done.
    destruct (decide (name = strip_params name)).
    - destruct (addNamePermutations_from_parents location ps Hps
                  name (strip_params name) (insert_name name location names)
                  Hname Hstrip) as (names' & Hrun & _).
      by exists names'.
    - rewrite (decide_False (P := strip_params name = EmptyString)) by done.
      destruct (addNamePermutations_from_parents location ps Hps
                  name (strip_params name)
                  (insert_name (strip_params name) location
                     (insert_name name location names))
                  Hname Hstrip) as (names' & Hrun & _).
      by exists names'. }
  destruct (Forall_nonempty_split parents) as [Hall|(pre & more & -> & Hpre)].
  - by apply Hfirst.
  - rewrite (app_comm_cons pre (EmptyString :: more) name).
    rewrite addNamePermutations_from_stops. by apply Hfirst.
Qed.

Section VisitorInvariant.

Variable canonicalize : string → string.

Lemma createLocation_cases (file : string) (start : Z) (paths : gset string) :
  ((createLocation canonicalize file start paths).1 = None
   ∧ (createLocation canonicalize file start paths).2 = paths)
  ∨ ∃ loc, (createLocation canonicalize file start paths).1 = Some loc
           ∧ (createLocation canonicalize file start paths).2
             = {[path loc]} ∪ paths.
Proof.
  unfold createLocation. destruct (decide (file = EmptyString)); [by left |].
  right. by eexists.
Qed.

Lemma visited_update (job : JobTables) (loc : Location) (info' : CursorInfo)
    (refs' : gmap Location (Location * bool))
    (names' : gmap string (gset Location)) (paths' : gset string) :
  Visited job →
  mPaths job ⊆ paths' → path loc ∈ paths' →
  references info' = ∅ →
  (∀ name l, l ∈ default ∅ (names' !! name) →
             l ∈ default ∅ (mSymbolNames job !! name) ∨ l = loc) →
  ((refs' = mReferences job
    ∧ target info' = target (default empty_info (mSymbols job !! loc)))
   ∨ ∃ refLoc member,
       refs' = <[loc := (refLoc, member)]> (mReferences job)
       ∧ target info' = Some refLoc ∧ path refLoc ∈ paths') →
  Visited {| mSymbols := <[loc := info']> (mSymbols job); mReferences := refs';
             mSymbolNames := names'; mPaths := paths' |}.
Proof.
  intros [V1 V2 V3 V4 V5] Hsub Hloc Hrefs Hnames Hcase.
  constructor; simpl.
  - intros l. destruct (decide (l = loc)) as [->|Hne]; [done |].
    rewrite lookup_insert_ne by (intros E; by apply Hne).
    intros H. by apply Hsub, V1.
  - intros l r m Hl. destruct Hcase as [[-> Ht]|(refLoc & member & -> & Ht & Hp)].
    + destruct (V2 l r m Hl) as (Hp & info & Hs & Hti).
      split; [by apply Hsub |].
      destruct (decide (l = loc)) as [->|Hne].
      * exists info'. rewrite lookup_insert_eq. split; [done |].
        rewrite Ht, Hs. done.
      * exists info. by rewrite lookup_insert_ne by (intros E; by apply Hne).
    + destruct (decide (l = loc)) as [->|Hne].
      * rewrite lookup_insert_eq in Hl. injection Hl as <- <-.
        split; [done |]. exists info'. by rewrite lookup_insert_eq.
      * rewrite lookup_insert_ne in Hl by (intros E; by apply Hne).
        destruct (V2 l r m Hl) as (Hp' & info & Hs & Hti).
        split; [by apply Hsub |].
        exists info. by rewrite lookup_insert_ne by (intros E; by apply Hne).
  - intros l info t. destruct (decide (l = loc)) as [->|Hne].
    + rewrite lookup_insert_eq. intros [= <-] Ht'.
      destruct Hcase as [[-> Ht]|(refLoc & member & -> & Ht & Hp)].
      * rewrite Ht' in Ht. destruct (mSymbols job !! loc) as [old|] eqn:Hold;
          simpl in Ht; [| done].
        by apply (V3 loc old t).
      * exists member. rewrite lookup_insert_eq. congruence.
    + rewrite lookup_insert_ne by (intros E; by apply Hne). intros Hs Ht'.
      destruct (V3 l info t Hs Ht') as [m Hm].
      destruct Hcase as [[-> Ht]|(refLoc & member & -> & Ht & Hp)].
      * by exists m.
      * exists m. by rewrite lookup_insert_ne by (intros E; by apply Hne).
  - intros name l Hl. destruct (Hnames name l Hl) as [H| ->].
    + destruct (decide (l = loc)) as [->|Hne].
      * rewrite lookup_insert_eq. by eexists.
      * rewrite lookup_insert_ne by (intros E; by apply Hne). by apply (V4 name).
    + rewrite lookup_insert_eq. by eexists.
  - intros l info. destruct (decide (l = loc)) as [->|Hne].
    + rewrite lookup_insert_eq. by intros [= <-].
    + rewrite lookup_insert_ne by (intros E; by apply Hne). apply V5.
Qed.

Lemma visited_stored_info (job : JobTables) (loc : Location) :
  Visited job →
  references (default empty_info (mSymbols job !! loc)) = ∅.
Proof.
  intros V. destruct (mSymbols job !! loc) as [info|] eqn:H; simpl; [| done].
  by apply (no_references_yet job V loc).
Qed.

Lemma indexVisitor_visited (job job' : JobTables) (c : Cursor) :
  Visited job → indexVisitor canonicalize job c = Ok job' → Visited job'.
Proof.
  intros V. unfold indexVisitor.
  destruct (decide (cursorKind c = CXCursor_CXXAccessSpecifier));
    [by intros [= <-] |].
  destruct (createLocation_cases (cursorFile c) (cursorStart c) (mPaths job))
    as [[-> ->]|(loc & -> & ->)].
  { intros [= <-]. by destruct job. }
  set (info := default empty_info (mSymbols job !! loc)).
  assert (Hinfo : references info = ∅) by by apply visited_stored_info.
  assert (Hsub : mPaths job ⊆ {[path loc]} ∪ mPaths job) by apply union_subseteq_r.
  assert (Hloc : path loc ∈ {[path loc]} ∪ mPaths job).
  { apply elem_of_union_l. by apply elem_of_singleton. }
  destruct (bool_decide (cursorKind c = CXCursor_CallExpr)
            && bool_decide (refKind c = CXCursor_CXXMethod)).
  { intros [= <-]. apply visited_update; auto. }
  destruct (negb (bool_decide (symbolLength info = 0%Z))
            && bool_decide (kind info = CXCursor_Constructor)
            && bool_decide (cursorKind c = CXCursor_TypeRef)).
  { intros [= <-]. apply visited_update; auto. }
  set (info1 := if bool_decide (symbolLength info = 0%Z)
                then with_kind info (cursorKind c) else info).
  set (info2 := if bool_decide (symbolLength info1 = 0%Z)
                then with_symbolLength info1
                       (spelling_length (if isReference c then refSpelling c
                                         else cursorSpelling c))
                else info1).
  assert (H2 : references info2 = ∅ ∧ target info2 = target info).
  { unfold info2, info1.
    destruct (bool_decide (symbolLength info = 0%Z));
      destruct (bool_decide (symbolLength _ = 0%Z)); by simpl. }
  destruct H2 as [Hr2 Ht2].
  destruct (if isDefinition c || bool_decide (cursorKind c = CXCursor_FunctionDecl)
            then addNamePermutations (displayNames c) loc (mSymbolNames job)
            else Ok (mSymbolNames job)) as [names| | |] eqn:Hnames; try done.
  assert (Hsound : ∀ name l, l ∈ default ∅ (names !! name) →
                     l ∈ default ∅ (mSymbolNames job !! name) ∨ l = loc).
  { destruct (isDefinition c || bool_decide (cursorKind c = CXCursor_FunctionDecl)).
    - by apply (addNamePermutations_from_sound loc (displayNames c)
                  EmptyString EmptyString).
    - injection Hnames as <-. auto. }
  cbn [mbind result_bind rbind].
  destruct (negb (refInvalid c) && negb (refEqual c)).
  - destruct (createLocation_cases (refFile c) (refStart c)
                ({[path loc]} ∪ mPaths job)) as [[-> ->]|(refLoc & -> & ->)].
    + intros [= <-]. apply visited_update; auto.
    + intros [= <-]. apply visited_update; auto.
      * etrans; [apply Hsub | apply union_subseteq_r].
      * by apply elem_of_union_r.
      * right. exists refLoc, (isMemberFunction c). split; [done |].
        split; [done |]. apply elem_of_union_l. by apply elem_of_singleton.
  - intros [= <-]. apply visited_update; auto.
Qed.

Lemma visited_no_tables : Visited no_tables.
Proof.
  constructor; simpl.
  - intros loc [? H]. by rewrite lookup_empty in H.
  - intros loc r m H. by rewrite lookup_empty in H.
  - intros loc info t H. by rewrite lookup_empty in H.
  - intros name loc H. rewrite lookup_empty in H. by apply elem_of_empty in H.
  - intros loc info H. by rewrite lookup_empty in H.
Qed.

Lemma indexVisitor_returns (job : JobTables) (c : Cursor) :
  names_assertable (displayNames c) →
  ∃ job', indexVisitor canonicalize job c = Ok job'.
Proof.
  intros Hok. unfold indexVisitor.
  destruct (decide (cursorKind c = CXCursor_CXXAccessSpecifier)); [by eexists |].
  destruct ((createLocation canonicalize (cursorFile c) (cursorStart c)
               (mPaths job)).1) as [loc|]; [| by eexists].
  destruct (bool_decide (cursorKind c = CXCursor_CallExpr)
            && bool_decide (refKind c = CXCursor_CXXMethod)); [by eexists |].
  destruct (negb _ && _ && _); [by eexists |].
  destruct (isDefinition c || bool_decide (cursorKind c = CXCursor_FunctionDecl)).
  - destruct (addNamePermutations_returns loc (displayNames c)
                (mSymbolNames job) Hok) as [names ->].
    cbn [mbind result_bind rbind].
    destruct (negb (refInvalid c) && negb (refEqual c)); [| by eexists].
    destruct ((createLocation canonicalize (refFile c) (refStart c) _).1);
      by eexists.
  - cbn [mbind result_bind rbind].
    destruct (negb (refInvalid c) && negb (refEqual c)); [| by eexists].
    destruct ((createLocation canonicalize (refFile c) (refStart c) _).1);
      by eexists.
Qed.

Lemma visitChildren_visited (cursors : list Cursor) :
  Forall (λ c, names_assertable (displayNames c)) cursors →
  ∀ job, Visited job →
         ∃ job', visitChildren canonicalize job cursors = Ok job' ∧ Visited job'.
Proof.
  induction 1 as [|c cursors Hc Hrest IH]; intros job V.
  - by exists job.
  - cbn [visitChildren].
    destruct (indexVisitor_returns job c Hc) as [job1 H1]. rewrite H1.
    cbn [mbind result_bind rbind].
    apply IH. by apply (indexVisitor_visited job job1 c).
Qed.

(** X29. On cursors whose display names do not start with a parenthesis
    the traversal of a translation unit returns, and it leaves the tables
    of the job so that: the file of every symbol is among the files the
    job saw; every recorded reference starts at a symbol that has the
    referenced location as its target, in a file the job saw; every
    target belongs to a recorded reference; every named location is a
    symbol; and no symbol has references yet. A location with a recorded
    reference is therefore a symbol with a target after the references
    were resolved and the table pruned. *)
Theorem visitChildren_keeps_tables_linked (cursors : list Cursor) :
  Forall (λ c, names_assertable (displayNames c)) cursors →
  ∃ job,
    visitChildren canonicalize no_tables cursors = Ok job
    ∧ Visited job
    ∧ ∀ loc refLoc member,
        mReferences job !! loc = Some (refLoc, member) →
        ∃ info,
          prune (resolveReferences (mReferences job) (mSymbols job)) !! loc
          = Some info
          ∧ is_Some (target info).
Proof.
  intros Hok.
  destruct (visitChildren_visited cursors Hok no_tables visited_no_tables)
    as (job & Hrun & V).
  exists job. split; [done |]. split; [done |].
  intros loc refLoc member Href.
  destruct (references_have_target job V loc refLoc member Href)
    as (_ & info & Hs & Ht).
  destruct (resolve_fold_grows (map_to_list (mReferences job)) (mSymbols job)
              loc info Hs) as (info' & Hs' & _ & _ & _ & Htarget).
  assert (Hsome : is_Some (target info')).
  { apply Htarget. rewrite Ht. by eexists. }
  exists info'. split; [| done].
  apply prune_lookup. split; [done |].
  intros [Hnone _]. rewrite Hnone in Hsome. by destruct Hsome.
Qed.

(** X30. What one visit can do to the symbol table: it touches the entry
    of the cursor's own location only; a symbol that was there keeps its
    references, and, once it has a length, its kind and its length, so
    the first cursor with a spelling at a location decides both. A call
    expression that references a C++ method records neither a reference
    nor a name, but it does leave an entry for its location. *)
Theorem indexVisitor_first_writer_wins (job job' : JobTables) (c : Cursor) :
  indexVisitor canonicalize job c = Ok job' →
  (∀ l, (createLocation canonicalize (cursorFile c) (cursorStart c)
           (mPaths job)).1 ≠ Some l →
        mSymbols job' !! l = mSymbols job !! l
        ∧ mReferences job' !! l = mReferences job !! l)
  ∧ (∀ l info, mSymbols job !! l = Some info →
       ∃ info', mSymbols job' !! l = Some info'
                ∧ references info' = references info
                ∧ (symbolLength info ≠ 0%Z →
                   kind info' = kind info
                   ∧ symbolLength info' = symbolLength info))
  ∧ (cursorKind c = CXCursor_CallExpr → refKind c = CXCursor_CXXMethod →
     mReferences job' = mReferences job
     ∧ mSymbolNames job' = mSymbolNames job
     ∧ ∀ l, (createLocation canonicalize (cursorFile c) (cursorStart c)
               (mPaths job)).1 = Some l →
            is_Some (mSymbols job' !! l)).
Proof.
  unfold indexVisitor.
  destruct (decide (cursorKind c = CXCursor_CXXAccessSpecifier)) as [Hacc|Hacc].
  { intros [= <-]. split_and!; [done | |].
    - intros l info H. exists info. done.
    - intros Hk. rewrite Hk in Hacc. discriminate. }
  destruct ((createLocation canonicalize (cursorFile c) (cursorStart c)
               (mPaths job)).1) as [loc|] eqn:Hloc.
  2: { intros [= <-]. simpl. split_and!; [done | |].
       - intros l info H. exists info. done.
       - intros _ _. split_and!; [done | done |]. intros l H. discriminate. }
  set (info := default empty_info (mSymbols job !! loc)).
  assert (Hkeep : ∀ (new : CursorInfo) l old,
             references new = references info →
             (symbolLength info ≠ 0%Z →
              kind new = kind info ∧ symbolLength new = symbolLength info) →
             mSymbols job !! l = Some old →
             ∃ info', <[loc := new]> (mSymbols job) !! l = Some info'
                      ∧ references info' = references old
                      ∧ (symbolLength old ≠ 0%Z →
                         kind info' = kind old
                         ∧ symbolLength info' = symbolLength old)).
  { intros new l old Hr Hk Hl. destruct (decide (l = loc)) as [->|Hne].
    - exists new. rewrite lookup_insert_eq. unfold info in Hr, Hk.
      rewrite Hl in Hr, Hk. simpl in Hr, Hk. done.
    - exists old. by rewrite lookup_insert_ne by (intros E; by apply Hne). }
  assert (Hother : ∀ (new : CursorInfo) l,
             Some loc ≠ Some l →
             <[loc := new]> (mSymbols job) !! l = mSymbols job !! l).
  { intros new l Hne. apply lookup_insert_ne. congruence. }
  destruct (bool_decide (cursorKind c = CXCursor_CallExpr)
            && bool_decide (refKind c = CXCursor_CXXMethod)) eqn:Hcall.
  { intros [= <-]. simpl. split_and!.
    - intros l Hne. split; [by apply Hother | done].
    - intros l old Hl. by apply Hkeep.
    - intros _ _. split_and!; [done | done |].
      intros l [= <-]. rewrite lookup_insert_eq. by eexists. }
  assert (Hnocall : ¬ (cursorKind c = CXCursor_CallExpr
                       ∧ refKind c = CXCursor_CXXMethod)).
  { intros [H1 H2].
    apply andb_false_iff in Hcall as [Hcall|Hcall];
      apply bool_decide_eq_false in Hcall; done. }
  destruct (negb (bool_decide (symbolLength info = 0%Z))
            && bool_decide (kind info = CXCursor_Constructor)
            && bool_decide (cursorKind c = CXCursor_TypeRef)).
  { intros [= <-]. simpl. split_and!.
    - intros l Hne. split; [by apply Hother | done].
    - intros l old Hl. by apply Hkeep.
    - intros H1 H2. destruct Hnocall. done. }
  set (info1 := if bool_decide (symbolLength info = 0%Z)
                then with_kind info (cursorKind c) else info).
  set (info2 := if bool_decide (symbolLength info1 = 0%Z)
                then with_symbolLength info1
                       (spelling_length (if isReference c then refSpelling c
                                         else cursorSpelling c))
                else info1).
  assert (H2 : references info2 = references info
               ∧ (symbolLength info ≠ 0%Z →
                  kind info2 = kind info ∧ symbolLength info2 = symbolLength info)).
  { unfold info2, info1.
    destruct (bool_decide (symbolLength info = 0%Z)) eqn:Hz.
    - simpl. rewrite Hz. simpl. split; [done |].
      apply bool_decide_eq_true in Hz. done.
    - by rewrite Hz. }
  destruct H2 as [Hr2 Hk2].
  destruct (if isDefinition c || bool_decide (cursorKind c = CXCursor_FunctionDecl)
            then addNamePermutations (displayNames c) loc (mSymbolNames job)
            else Ok (mSymbolNames job)) as [names| | |]; try done.
  cbn [mbind result_bind rbind].
  destruct (negb (refInvalid c) && negb (refEqual c)).
  - destruct ((createLocation canonicalize (refFile c) (refStart c) _).1)
      as [refLoc|].
    + intros [= <-]. simpl. split_and!.
      * intros l Hne. split; [by apply Hother |].
        apply lookup_insert_ne. congruence.
      * intros l old Hl. by apply Hkeep.
      * intros H1 H2. destruct Hnocall. done.
    + intros [= <-]. simpl. split_and!.
      * intros l Hne. split; [by apply Hother | done].
      * intros l old Hl. by apply Hkeep.
      * intros H1 H2. destruct Hnocall. done.
  - intros [= <-]. simpl. split_and!.
    + intros l Hne. split; [by apply Hother | done].
    + intros l old Hl. by apply Hkeep.
    + intros H1 H2. destruct Hnocall. done.
Qed.

End VisitorInvariant.

Lemma visitChildren_keeps_tables_linked_witness :
  ∃ job,
    visitChildren (λ f, f) no_tables [def_foo; use_foo] = Ok job
    ∧ Visited job
    ∧ ∀ loc refLoc member,
        mReferences job !! loc = Some (refLoc, member) →
        ∃ info,
          prune (resolveReferences (mReferences job) (mSymbols job)) !! loc
          = Some info
          ∧ is_Some (target info).
Proof.
  apply (visitChildren_keeps_tables_linked (λ f, f) [def_foo; use_foo]).
  apply Forall_cons. split.
  - intros name parents [= <- <-]. right. intros H. vm_compute in H. discriminate.
  - apply Forall_cons. split; [| apply Forall_nil_2].
    intros name parents [= <- <-]. right. intros H. vm_compute in H. discriminate.
Defined.

Lemma indexVisitor_first_writer_wins_witness :
  (∃ info', mSymbols after_again_foo !! mkLocation "/src/a.cpp" 4 = Some info'
            ∧ kind info' = CXCursor_FunctionDecl
            ∧ symbolLength info' = 3%Z)
  ∧ mReferences after_call_method = mReferences after_def_foo
  ∧ mSymbolNames after_call_method = mSymbolNames after_def_foo
  ∧ is_Some (mSymbols after_call_method !! mkLocation "/src/a.cpp" 60).
Proof.
  split.
  - destruct (indexVisitor_first_writer_wins (λ f, f) after_def_foo
                after_again_foo again_foo) as (_ & Hkeep & _);
      [vm_compute; reflexivity |].
    destruct (Hkeep (mkLocation "/src/a.cpp" 4)
                {| kind := CXCursor_FunctionDecl; symbolLength := 3;
                   target := None; references := ∅ |})
      as (info' & Hlook & _ & Hfirst); [vm_compute; reflexivity |].
    exists info'. split; [exact Hlook |]. apply Hfirst. discriminate.
  - destruct (indexVisitor_first_writer_wins (λ f, f) after_def_foo
                after_call_method call_method) as (_ & _ & Hcall);
      [vm_compute; reflexivity |].
    destruct Hcall as (Hrefs & Hnames & Hentry); [reflexivity | reflexivity |].
    split; [exact Hrefs |]. split; [exact Hnames |].
    apply Hentry. vm_compute. reflexivity.
Defined.

End VisitorFacts.
